(** * cache-benchmark: a shallow embedding of [main.cpp]

    The program measures the associativity, the size and the line size of a
    CPU cache by timing pointer chases over a page-aligned arena.  This file
    embeds the program function by function and proves the properties its
    specification states about it.

    Conventions.
    - [std::uint64_t] and [std::uint32_t] values are integers of [Z]; every
      arithmetic operation of the source is followed by its wrap-around
      ([wrap64], [wrap32]).
    - [measure_t] (a [std::chrono::duration<double>]) is a binary64 float.
    - The globals [a], [rng_seed] and the monotonic clock form the [world]
      that every procedure threads; a procedure that would run into
      undefined behaviour (a slot outside the arena, a division by zero,
      [container[0]] of an empty container) or that runs out of the fuel
      given to an unbounded loop yields [None]. *)

From Stdlib Require Import ZArith List Bool Lia Floats String Ascii.
From Stdlib Require Import Permutation Sorted DecimalString.
Import ListNotations.

#[local] Set Warnings "-inexact-float".
#[local] Open Scope Z_scope.

(** ** Machine integers *)

Definition wrap64 (z : Z) : Z := z mod 2 ^ 64.
Definition wrap32 (z : Z) : Z := z mod 2 ^ 32.

Definition uint64 (z : Z) : Prop := 0 <= z < 2 ^ 64.

(** [x / y] and [x % y] on unsigned integers; undefined for [y = 0]. *)
Definition udiv (x y : Z) : option Z := if y =? 0 then None else Some (x / y).
Definition umod (x y : Z) : option Z := if y =? 0 then None else Some (x mod y).

(** ** Constants (lines 13-15) *)

Definition max_discover_mem : Z := Z.shiftl 1 15.
Definition max_check_mem : Z := Z.shiftl 1 24.
Definition page_size : Z := 16384.
Definition sizeof_uint64 : Z := 8.

(** ** [aligned_array] (lines 34-58) *)

Record aligned_array : Type := mk_aligned_array { size : Z; begin : Z }.

(** The byte count the constructor passes to [std::aligned_alloc]. *)
Definition aligned_array_bytes (size : Z) : Z :=
  let bytes := wrap64 (size * sizeof_uint64) in
  if negb (bytes mod page_size =? 0)
  then wrap64 ((page_size / page_size + 1) * page_size)
  else bytes.

(** The constructor; [aligned_alloc alignment bytes] is the allocator of the
    environment and returns the address of the block. *)
Definition aligned_array_ctor (aligned_alloc : Z -> Z -> Z) (size : Z) : aligned_array :=
  mk_aligned_array size (aligned_alloc page_size (aligned_array_bytes size)).

(** The two global arrays (lines 62-63). *)
Definition clutter_size : Z := Z.shiftl 1 23.
Definition a_size : Z := max_check_mem.

(** ** The growth rule [next_spots] (lines 157-173) *)

Definition step : Z := Z.shiftl 1 9.

Definition next_spots (stride spots : Z) : Z :=
  if wrap64 (spots * stride) <=? step then wrap64 (spots * 2)
  else if stride >? step then wrap64 (spots + 1)
  else wrap64 (spots + step / stride).

(** ** The world and its monad *)

(** [measure_t], line 17. *)
Abbreviation duration := float.

Record world : Type := mk_world {
  a_mem : Z -> Z;          (** the slots of the arena [a], by index *)
  rng_seed : Z;            (** the global [rng_seed] *)
  clock : nat -> duration; (** elapsed time of the n-th timed walk *)
  walks : nat              (** number of timed walks so far *)
}.

Definition M (A : Type) : Type := world -> option (A * world).

Definition ret {A : Type} (x : A) : M A := fun w => Some (x, w).

Definition bind {A B : Type} (m : M A) (f : A -> M B) : M B :=
  fun w => match m w with
           | Some (x, w') => f x w'
           | None => None
           end.

Definition fail {A : Type} : M A := fun _ => None.

Definition lift {A : Type} (o : option A) : M A :=
  fun w => match o with Some x => Some (x, w) | None => None end.

Declare Scope monad_scope.
Delimit Scope monad_scope with monad.
Notation "x <- m ;; k" := (bind m (fun x => k))
  (at level 61, m at next level, right associativity) : monad_scope.
Notation "m ;;; k" := (bind m (fun _ => k))
  (at level 61, right associativity) : monad_scope.
#[local] Open Scope monad_scope.

(** Sequencing of partial computations that do not touch the world. *)
Notation "'let?' x := m 'in' k" :=
  (match m with Some x => k | None => None end)
  (at level 10, x name, m at level 100, k at level 200, only parsing).

(** A [for] loop whose counter takes the values of [l] in order. *)
Fixpoint for_each (l : list Z) (body : Z -> M unit) : M unit :=
  match l with
  | [] => ret tt
  | i :: rest => body i ;;; for_each rest body
  end.

(** [0; 1; ...; n-1] and [n; n-1; ...; 1]. *)
Definition upto (n : Z) : list Z := map Z.of_nat (seq 0 (Z.to_nat n)).
Definition downto1 (n : Z) : list Z := map Z.of_nat (rev (seq 1 (Z.to_nat n))).

Section Program.

(** [a.begin], the address [std::aligned_alloc] returned for the arena. *)
Variable a_begin : Z.

(** ** The arena [a] *)

Definition in_arena (i : Z) : bool := (0 <=? i) && (i <? a_size).

Definition a_get (i : Z) : M Z :=
  fun w => if in_arena i then Some (a_mem w i, w) else None.

Definition upd (m : Z -> Z) (i v : Z) : Z -> Z :=
  fun j => if j =? i then v else m j.

Definition a_set (i v : Z) : M unit :=
  fun w => if in_arena i
           then Some (tt, mk_world (upd (a_mem w) i v) (rng_seed w) (clock w) (walks w))
           else None.

(** [reinterpret_cast<std::uint64_t>(&a[i])]. *)
Definition addr_of (i : Z) : Z := wrap64 (a_begin + sizeof_uint64 * i).

(** The slot a pointer value designates, when it points into the arena. *)
Definition slot_of (ptr : Z) : option Z :=
  let off := wrap64 (ptr - a_begin) in
  if (off mod sizeof_uint64 =? 0) && in_arena (off / sizeof_uint64)
  then Some (off / sizeof_uint64) else None.

(** [*ptr] for a pointer value. *)
Definition deref (ptr : Z) : M Z := i <- lift (slot_of ptr) ;; a_get i.

(** [std::swap(a[i], a[j])]. *)
Definition swap (i j : Z) : M unit :=
  x <- a_get i ;; y <- a_get j ;; a_set i y ;;; a_set j x.

(** ** The sequence generator (lines 65-72) *)

Definition rng_next (seed : Z) : Z :=
  wrap64 (wrap64 (seed * 2862933555777941757) + 3037000493).

Definition rng : M Z :=
  fun w => let s := rng_next (rng_seed w) in
           Some (s, mk_world (a_mem w) s (clock w) (walks w)).

Definition set_rng_seed (s : Z) : M unit :=
  fun w => Some (tt, mk_world (a_mem w) s (clock w) (walks w)).

(** ** [shuffle] (lines 74-80); the counter [i] is a [std::uint32_t] *)

Definition shuffle (stride spots : Z) : M unit :=
  for_each (downto1 (wrap32 (wrap64 (spots - 1)))) (fun i =>
    r <- rng ;;
    k <- lift (umod r (wrap32 (i + 1))) ;;
    swap (wrap64 (i * stride)) (wrap64 (k * stride))).

(** ** [create_forward_chain] (lines 82-92) *)

Definition create_forward_chain (stride spots : Z) : M unit :=
  let size := wrap64 (stride * spots) in
  for_each (upto (wrap64 (spots - 1))) (fun i =>
    let next := addr_of (wrap64 (wrap64 (i + 1) * stride)) in
    a_set (wrap64 (i * stride)) next) ;;;
  a_set (wrap64 (size - stride)) (addr_of 0).

(** ** [measure_walk] (lines 94-125)

    The pass over [clutter] and the two pointer chases only read [a]; what
    they read goes to [sink].  The elapsed time of the timed chase is the
    next reading of the clock. *)

Definition ops : Z := Z.shiftl 1 20.

(** The pointer chase of lines 107-111 and 115-119: [n] times [ptr = *ptr].
    It returns the pointers it visited and the pointer it ends on. *)
Fixpoint chase (n : nat) (ptr : Z) : M (list Z * Z) :=
  match n with
  | O => ret ([], ptr)
  | S n' =>
      next <- deref ptr ;;
      r <- chase n' next ;;
      ret (ptr :: fst r, snd r)
  end.

Definition measure_walk (stride spots initial_offset : Z) : M duration :=
  fun w => Some (clock w (walks w),
                 mk_world (a_mem w) (rng_seed w) (clock w) (S (walks w))).

(** ** [measure_shuffled] (lines 127-138) *)

(** Lines 129-135: the pattern the walk is timed on. *)
Definition shuffled_pattern (stride spots : Z) : M unit :=
  create_forward_chain stride spots ;;;
  shuffle stride spots ;;;
  for_each (upto spots) (fun i =>
    v <- a_get (wrap64 (i * stride)) ;;
    a_set (wrap64 (wrap64 (i * stride) + stride / 2))
          (wrap64 (v + wrap64 (stride / 2 * sizeof_uint64)))).

Definition measure_shuffled (stride spots : Z) : M duration :=
  shuffled_pattern stride spots ;;;
  measure_walk stride spots (stride / 2).

(** ** [measure_lookbehind] (lines 140-155); the counter is a [std::uint32_t] *)

Definition lookbehind_offset : Z := 16.

(** Lines 144-152: the pattern the walk is timed on. *)
Definition lookbehind_pattern (stride spots : Z) : M unit :=
  create_forward_chain stride spots ;;;
  (if 2 ^ 32 <=? spots then fail (* the 32-bit counter never reaches spots *)
   else for_each (upto spots) (fun i =>
     behind_index <- lift (umod (wrap64 (wrap64 (i + spots) - lookbehind_offset)) spots) ;;
     let behind := wrap64 (wrap64 (behind_index * stride) + stride / 2) in
     v <- a_get (wrap64 (i * stride)) ;;
     a_set behind v ;;;
     a_set (wrap64 (i * stride)) (addr_of behind))).

Definition measure_lookbehind (stride spots : Z) : M duration :=
  lookbehind_pattern stride spots ;;;
  measure_walk stride spots 0.

(** ** [median] and [sum] (lines 175-191) *)

(** [std::sort] with [operator<], as an insertion sort. *)
Fixpoint insert_sorted (x : duration) (l : list duration) : list duration :=
  match l with
  | [] => [x]
  | y :: rest => if (x <? y)%float then x :: l else y :: insert_sorted x rest
  end.

Definition sort (l : list duration) : list duration := fold_right insert_sorted [] l.

Definition median (container : list duration) : option duration :=
  nth_error (sort container) (Z.to_nat (Z.of_nat (List.length container) / 2)).

Definition sum (container : list duration) : option duration :=
  match container with
  | [] => None
  | first :: rest => Some (fold_left PrimFloat.add rest first)
  end.

(** ** [measure] (lines 193-214) *)

(** A [std::map<std::uint64_t, std::vector<measure_t>>] is only ever read
    and written through [operator[]], which yields an empty vector for a
    key that is absent: a function from keys to vectors. *)
Definition measurements : Type := Z -> list duration.

Definition no_measurements : measurements := fun _ => [].

Definition push_back (results : measurements) (spots : Z) (d : duration) : measurements :=
  fun k => if k =? spots then results spots ++ [d] else results k.

(** A loop over [l] that threads the local state [s]. *)
Fixpoint for_fold {S : Type} (l : list Z) (body : Z -> S -> M S) (s : S) : M S :=
  match l with
  | [] => ret s
  | i :: rest => s' <- body i s ;; for_fold rest body s'
  end.

Definition iterations : Z := 9.

(** Lines 208-209, the body of the inner loop in iteration [i]. *)
Definition trial (stride : Z) (method : Z -> Z -> M duration) (i spots : Z)
           (results : measurements) : M measurements :=
  set_rng_seed (wrap64 (spots + i)) ;;;
  d <- method stride spots ;;
  ret (push_back results spots d).

Definition measure (stride : Z) (all_spots : list Z) (method : Z -> Z -> M duration)
  : M measurements :=
  for_fold (upto iterations) (fun i => for_fold all_spots (trial stride method i))
    no_measurements.

(** ** [make_spots] (lines 216-225) *)

Fixpoint make_spots_loop (fuel : nat) (stride max_spots spots : Z) : option (list Z) :=
  match fuel with
  | O => None
  | S fuel' =>
      if spots <=? max_spots
      then option_map (cons spots)
             (make_spots_loop fuel' stride max_spots (next_spots stride spots))
      else Some []
  end.

(** Every turn of the loop increases [spots], so [max_spots + 1] turns are
    enough ([make_spots_defined] below). *)
Definition make_spots (stride : Z) : option (list Z) :=
  let? q := udiv max_discover_mem stride in
  let max_spots := next_spots stride q in
  make_spots_loop (S (Z.to_nat max_spots)) stride max_spots 1.

(** ** [find_rest_spots] (lines 227-281) *)

(** [std::cbrt], the cube root of the C library. *)
Variable cbrt : float -> float.

(** [std::set<std::uint64_t>::insert]: the set is kept as its sorted
    sequence of distinct elements, the order in which it is iterated. *)
Fixpoint set_insert (x : Z) (s : list Z) : list Z :=
  match s with
  | [] => [x]
  | y :: rest =>
      if x <? y then x :: s
      else if x =? y then s
      else y :: set_insert x rest
  end.

(** Lines 237-246. *)
Definition with_halves (all_spots : list Z) : list Z :=
  fold_left (fun new_spots spots =>
               let new_spots := set_insert spots new_spots in
               if spots >? 1 then set_insert (spots / 2) new_spots else new_spots)
            all_spots [].

(** The key of [new_measured] the half distance reads (lines 258 and 270). *)
Definition half_key (spots : Z) : Z := wrap64 (spots / 2 + spots mod 2).

(** One turn of the loop of lines 251-260 on the pair
    [(full_distance, half_distance)]. *)
Definition distance_step (prev_measured new_measured : measurements)
           (acc : float * float) (spots : Z) : option (float * float) :=
  let? prev := sum (prev_measured spots) in
  let? full := sum (new_measured spots) in
  let diff := (prev - full)%float in
  let full_distance := (fst acc + cbrt (abs diff))%float in
  let? prev := sum (prev_measured spots) in
  let? half := sum (new_measured (half_key spots)) in
  let diff := (prev - half)%float in
  let half_distance := (snd acc + cbrt (abs diff))%float in
  Some (full_distance, half_distance).

Fixpoint distances_from (prev_measured new_measured : measurements)
         (acc : float * float) (all_spots : list Z) : option (float * float) :=
  match all_spots with
  | [] => Some acc
  | spots :: rest =>
      let? acc' := distance_step prev_measured new_measured acc spots in
      distances_from prev_measured new_measured acc' rest
  end.

Definition distances (prev_measured new_measured : measurements) (all_spots : list Z)
  : option (float * float) :=
  distances_from prev_measured new_measured (0%float, 0%float) all_spots.

(** Lines 266-273: [spots *= stride / 2 / initial_stride] for every element.
    The sums the diagnostic line prints are those the distance loop has
    computed already. *)
Fixpoint scale_spots (stride initial_stride : Z) (all_spots : list Z) : option (list Z) :=
  match all_spots with
  | [] => Some []
  | spots :: rest =>
      let? factor := udiv (stride / 2) initial_stride in
      let? rest' := scale_spots stride initial_stride rest in
      Some (wrap64 (spots * factor) :: rest')
  end.

(** The [while (true)] loop; [fuel] bounds its number of turns. *)
Fixpoint find_rest_loop (fuel : nat) (initial_stride stride : Z) (all_spots : list Z)
         (prev_measured : measurements) : M (list Z) :=
  match fuel with
  | O => fail
  | S fuel' =>
      let stride := wrap64 (stride * 2) in
      let new_spots := with_halves all_spots in
      new_measured <- measure stride new_spots measure_shuffled ;;
      d <- lift (distances prev_measured new_measured all_spots) ;;
      if (fst d <? snd d)%float
      then lift (scale_spots stride initial_stride all_spots)
      else
        all_spots' <- lift (make_spots stride) ;;
        find_rest_loop fuel' initial_stride stride all_spots' new_measured
  end.

Definition find_rest_spots (fuel : nat) (initial_stride : Z) : M (list Z) :=
  let stride := initial_stride in
  all_spots <- lift (make_spots stride) ;;
  prev_measured <- measure stride all_spots measure_shuffled ;;
  find_rest_loop fuel initial_stride stride all_spots prev_measured.

(** ** [find_jump] (lines 283-322) *)

Definition alpha : float := 0.5%float.

(** [v[i] = x] on a vector. *)
Fixpoint vec_set {A : Type} (v : list A) (i : nat) (x : A) : list A :=
  match v, i with
  | [], _ => []
  | _ :: rest, O => x :: rest
  | y :: rest, S i' => y :: vec_set rest i' x
  end.

(** [v[i]] for a [std::size_t] index. *)
Definition at_ {A : Type} (v : list A) (i : Z) : option A :=
  if i <? 0 then None else nth_error v (Z.to_nat i).

(** Lines 289-292. *)
Fixpoint totals (measured : measurements) (search_spots : list Z) : option (list duration) :=
  match search_spots with
  | [] => Some []
  | spots :: rest =>
      let? t := sum (measured spots) in
      let? ts := totals measured rest in
      Some (t :: ts)
  end.

(** Lines 294-298, the loop that runs [i] from [size - 1] down to [1]. *)
Fixpoint smooth_loop (idx : list Z) (smooth_suffix : list duration) : option (list duration) :=
  match idx with
  | [] => Some smooth_suffix
  | i :: rest =>
      let? x := at_ smooth_suffix (i - 1) in
      let? y := at_ smooth_suffix i in
      smooth_loop rest
        (vec_set smooth_suffix (Z.to_nat (i - 1)) (x * alpha + y * (1 - alpha))%float)
  end.

Definition vec_size {A : Type} (v : list A) : Z := Z.of_nat (List.length v).

Definition smooth (sums : list duration) : option (list duration) :=
  smooth_loop (downto1 (wrap64 (vec_size sums - 1))) sums.

(** The test of line 314. *)
Definition jump_test (result next_result smooth_next : duration) : bool :=
  ((1.045 <=? next_result / result) && (1.12 <=? smooth_next / result))%float.

(** Lines 308-321. *)
Fixpoint jump_loop (measured : measurements) (search_spots : list Z)
         (smooth_suffix : list duration) (idx : list Z) : option Z :=
  match idx with
  | [] => Some 0
  | i :: rest =>
      let? spots := at_ search_spots i in
      let? result := sum (measured spots) in
      let? next := at_ search_spots (i + 1) in
      let? next_result := sum (measured next) in
      let? smooth_next := at_ smooth_suffix (i + 1) in
      if jump_test result next_result smooth_next
      then Some spots
      else jump_loop measured search_spots smooth_suffix rest
  end.

(** Everything after the call of [measure]. *)
Definition find_jump_scan (measured : measurements) (search_spots : list Z) : option Z :=
  let? sums := totals measured search_spots in
  let? smooth_suffix := smooth sums in
  jump_loop measured search_spots smooth_suffix
            (upto (wrap64 (vec_size search_spots - 1))).

Definition find_jump (initial_stride : Z) (search_spots : list Z) : M Z :=
  measured <- measure initial_stride search_spots measure_shuffled ;;
  lift (find_jump_scan measured search_spots).

(** ** [find_cache_line_size] (lines 324-356) *)

Definition min_stride : Z := 2.
Definition max_stride : Z := 128.

(** Lines 331-338; [fuel] bounds the number of turns. *)
Fixpoint sweep (fuel : nat) (stride : Z) (results : list duration) : M (list duration) :=
  match fuel with
  | O => fail
  | S fuel' =>
      if stride <=? max_stride
      then
        spots <- lift (udiv max_check_mem stride) ;;
        measured <- measure stride [spots] measure_lookbehind ;;
        result <- lift (median (measured spots)) ;;
        sweep fuel' (wrap64 (stride * 2)) (results ++ [result])
      else ret results
  end.

(** One turn of the loop of lines 343-353 on the pair
    [(cache_line_stride, max_speedup)]. *)
Definition speedup_step (results : list duration) (acc : Z * float) (i : Z)
  : option (Z * float) :=
  let stride := wrap64 (Z.shiftl min_stride i) in
  let? result := at_ results i in
  let? previous_result := at_ results (i - 1) in
  if (snd acc <=? result / previous_result)%float
  then Some (stride / 2, (result / previous_result)%float)
  else Some acc.

Fixpoint speedup_loop (results : list duration) (acc : Z * float) (idx : list Z)
  : option (Z * float) :=
  match idx with
  | [] => Some acc
  | i :: rest =>
      let? acc' := speedup_step results acc i in
      speedup_loop results acc' rest
  end.

(** Lines 340-355: everything after the sweep. *)
Definition cache_line_scan (results : list duration) : option Z :=
  let? acc := speedup_loop results (1, 1.0%float)
                (map (Z.add 1) (upto (vec_size results - 1))) in
  Some (fst acc).

(** Doubling from [min_stride] passes [max_stride] within [max_stride] turns. *)
Definition find_cache_line_size : M Z :=
  results <- sweep (Z.to_nat max_stride) min_stride [] ;;
  lift (cache_line_scan results).

(** ** [main] (lines 358-377) *)

Definition initial_stride : Z := 2.

(** [std::cout << n] for a [std::uint64_t]. *)
Definition dec (n : Z) : string := NilZero.string_of_uint (N.to_uint (Z.to_N n)).

Definition newline : string := String (ascii_of_nat 10) EmptyString.

(** Lines 373-376: what goes to the standard output. *)
Definition summary (rest_spots : list Z) (jump cache_line_size : Z) : option string :=
  let? front := hd_error rest_spots in
  let? associativity := udiv jump front in
  Some ("associativity=" ++ dec associativity
        ++ " cache_size=" ++ dec (wrap64 (wrap64 (jump * initial_stride) * sizeof_uint64))
        ++ " cache_line_size=" ++ dec (wrap64 (cache_line_size * sizeof_uint64))
        ++ newline)%string.

(** The program; it yields what it wrote to the standard output.  [fuel]
    bounds the turns of the loop of [find_rest_spots]. *)
Definition main (fuel : nat) : M string :=
  rest_spots <- find_rest_spots fuel initial_stride ;;
  jump <- find_jump initial_stride rest_spots ;;
  cache_line_size <- find_cache_line_size ;;
  lift (summary rest_spots jump cache_line_size).

End Program.

(** * Vocabulary of the properties *)

(** The memory a loop of stores [a[idx i] = val i] leaves. *)
Definition stores (idx val : Z -> Z) (l : list Z) (m : Z -> Z) : Z -> Z :=
  fold_left (fun m i => upd m (idx i) (val i)) l m.

(** The arena after [create_forward_chain stride spots]. *)
Definition chain_mem (a_begin stride spots : Z) (m : Z -> Z) : Z -> Z :=
  upd (stores (fun i => i * stride) (fun i => addr_of a_begin ((i + 1) * stride))
              (upto (spots - 1)) m)
      ((spots - 1) * stride) (addr_of a_begin 0).

(** A world to run examples in: a zeroed arena and a clock that measures
    every walk as zero seconds. *)
Definition blank_world : world := mk_world (fun _ => 0) 0 (fun _ => 0%float) 0.

(** The arena after [std::swap(a[x], a[y])]. *)
Definition swap_mem (m : Z -> Z) (x y : Z) : Z -> Z := upd (upd m x (m y)) y (m x).

(** The pairs [(i, rng() % (i + 1))] the loop of [shuffle] goes through when
    [i] runs over [idx], and the seed it leaves. *)
Fixpoint picks (idx : list Z) (seed : Z) : list (Z * Z) * Z :=
  match idx with
  | [] => ([], seed)
  | i :: rest =>
      let r := rng_next seed in
      ((i, r mod (i + 1)) :: fst (picks rest r), snd (picks rest r))
  end.

Definition apply_swaps (stride : Z) (ps : list (Z * Z)) (m : Z -> Z) : Z -> Z :=
  fold_left (fun m p => swap_mem m (fst p * stride) (snd p * stride)) ps m.

(** The values the [spots] anchors hold. *)
Definition anchors (stride spots : Z) (m : Z -> Z) : list Z :=
  map (fun i => m (i * stride)) (upto spots).

(** A key whose lexicographic order is the order [SFcompare] decides; a NaN
    has none. *)
Definition fkey (x : spec_float) : option (Z * Z * Z) :=
  match x with
  | S754_nan => None
  | S754_infinity true => Some (-2, 0, 0)
  | S754_infinity false => Some (2, 0, 0)
  | S754_zero _ => Some (0, 0, 0)
  | S754_finite true m e => Some (-1, - e, Zneg m)
  | S754_finite false m e => Some (1, e, Zpos m)
  end.

Definition lex_compare (p q : Z * Z * Z) : comparison :=
  match fst (fst p) ?= fst (fst q) with
  | Eq => match snd (fst p) ?= snd (fst q) with
          | Eq => snd p ?= snd q
          | c => c
          end
  | c => c
  end.

Definition lex_lt (p q : Z * Z * Z) : Prop :=
  fst (fst p) < fst (fst q) \/
  (fst (fst p) = fst (fst q) /\
   (snd (fst p) < snd (fst q) \/ (snd (fst p) = snd (fst q) /\ snd p < snd q))).

Definition lex_le (p q : Z * Z * Z) : Prop :=
  fst (fst p) < fst (fst q) \/
  (fst (fst p) = fst (fst q) /\
   (snd (fst p) < snd (fst q) \/ (snd (fst p) = snd (fst q) /\ snd p <= snd q))).

(** The smoothed suffix, from the end backwards:
    [smoothed[i] = result[i] * 0.5 + smoothed[i+1] * 0.5]. *)
Fixpoint smooth_rec (l : list duration) : list duration :=
  match l with
  | [] => []
  | x :: rest =>
      match smooth_rec rest with
      | [] => [x]
      | (y :: _) as s => (x * alpha + y * (1 - alpha))%float :: s
      end
  end.

(** The spots value at the first position [i] that passes the test of
    [find_jump], for the totals [sums]; [0] when there is none. *)
Definition first_jump (search_spots : list Z) (sums : list duration) : Z :=
  match find (fun i => jump_test (nth i sums 0%float) (nth (S i) sums 0%float)
                                 (nth (S i) (smooth_rec sums) 0%float))
             (seq 0 (List.length search_spots - 1)) with
  | Some i => nth i search_spots 0
  | None => 0
  end.

(** A synthetic set of measurements: one sample [values[i]] for
    [spots[i]]. *)
Fixpoint curve (spots : list Z) (values : list duration) : measurements :=
  match spots, values with
  | s :: spots', v :: values' => push_back (curve spots' values') s v
  | _, _ => no_measurements
  end.

(** A clock that reads [samples], then zero, and a world with a zeroed
    arena and that clock. *)
Definition clock_of (samples : list duration) : nat -> duration :=
  fun n => nth n samples 0%float.

Definition world_with_clock (samples : list duration) : world :=
  mk_world (fun _ => 0) 0 (clock_of samples) 0.

(** Totals 1.0, 1.0, 1.2, 1.2: the first reading of the clock is the whole
    total of a spots value, the later ones are zero. *)
Definition step_samples : list duration := [1.0; 1.0; 1.2; 1.2]%float.

(** Totals 1.0, 1.0, 2.0, 1.0, 1.0: a single spike that returns to the
    baseline. *)
Definition spike_samples : list duration := [1.0; 1.0; 2.0; 1.0; 1.0]%float.

(** The sweep of [find_cache_line_size] over the strides of [strides]. *)
Fixpoint sweep_over (a_begin : Z) (strides : list Z) (results : list duration)
  : M (list duration) :=
  match strides with
  | [] => ret results
  | stride :: rest =>
      spots <- lift (udiv max_check_mem stride) ;;
      measured <- measure stride [spots] (measure_lookbehind a_begin) ;;
      result <- lift (median (measured spots)) ;;
      sweep_over a_begin rest (results ++ [result])
  end.

(** [results[i] / results[i - 1]], and half of the stride [min_stride << i]
    that [results[i]] belongs to. *)
Definition ratio (results : list duration) (i : nat) : float :=
  (nth i results 0 / nth (i - 1) results 0)%float.

Definition half_stride (i : nat) : Z := wrap64 (Z.shiftl min_stride (Z.of_nat i)) / 2.

(** [x] does not come after [y] in a sorted sequence. *)
Definition not_after (x y : duration) : Prop := (y <? x)%float = false.

(** What the scan of [find_cache_line_size] has established before it looks
    at position [j]. *)
Definition scan_invariant (results : list duration) (j : nat) (acc : Z * float) : Prop :=
  (1.0 <=? snd acc)%float = true /\
  (forall t, (1 <= t < j)%nat -> (snd acc <? ratio results t)%float = false) /\
  ((acc = (1, 1.0%float) /\
    forall t, (1 <= t < j)%nat -> (1.0 <=? ratio results t)%float = false) \/
   (exists i, (1 <= i < j)%nat /\ acc = (half_stride i, ratio results i) /\
              forall t, (i < t < j)%nat -> (ratio results i <=? ratio results t)%float = false)).

(** Medians that fall from one stride to the next. *)
Definition falling_medians : list duration := [40; 20; 15; 10; 5]%float.

(** The total of the samples measured for [spots]. *)
Definition total (measured : measurements) (spots : Z) : duration :=
  match sum (measured spots) with
  | Some t => t
  | None => 0%float
  end.

(** The two differences the loop of lines 251-260 takes for [spots]. *)
Definition full_difference (prev_measured new_measured : measurements) (spots : Z) : float :=
  (total prev_measured spots - total new_measured spots)%float.

Definition half_difference (prev_measured new_measured : measurements) (spots : Z) : float :=
  (total prev_measured spots - total new_measured (half_key spots))%float.

(** Samples for the spots values 1, 2 and 3 at two strides. *)
Definition prev_samples : measurements := curve [1; 2; 3] [5; 5; 5]%float.
Definition new_samples : measurements := curve [1; 2; 3] [1; 2; 4]%float.

(** A computation that runs in every world and leaves the clock alone. *)
Definition keeps_clock (w w' : world) : Prop :=
  clock w' = clock w /\ walks w' = walks w.

Definition runs {A : Type} (m : M A) : Prop :=
  forall w, exists x w', m w = Some (x, w') /\ keeps_clock w w'.

(** Two worlds with the same seed and the same contents of the slots [P]. *)
Definition agree (P : Z -> Prop) (w1 w2 : world) : Prop :=
  rng_seed w1 = rng_seed w2 /\ forall j, P j -> a_mem w1 j = a_mem w2 j.

Definition same_outcome {A : Type} (Q : Z -> Prop) (r1 r2 : option (A * world)) : Prop :=
  match r1, r2 with
  | Some (x1, w1), Some (x2, w2) => x1 = x2 /\ agree Q w1 w2
  | None, None => True
  | _, _ => False
  end.

(** A computation whose result, seed and slots [Q] are determined by the
    seed and the slots [P] it starts from. *)
Definition det {A : Type} (P Q : Z -> Prop) (m : M A) : Prop :=
  forall w1 w2, agree P w1 w2 -> same_outcome Q (m w1) (m w2).

(** The slots of a pattern: the anchors, and the slots half a stride
    further. *)
Definition is_anchor (stride spots j : Z) : Prop :=
  exists k, 0 <= k < spots /\ j = k * stride.

Definition is_half (stride spots j : Z) : Prop :=
  exists k, 0 <= k < spots /\ j = k * stride + stride / 2.

(** The seed set to [s]. *)
Definition reseeded (s : Z) (w : world) : world :=
  mk_world (a_mem w) s (clock w) (walks w).

(** The world after the timed walk. *)
Definition walked (w : world) : world :=
  mk_world (a_mem w) (rng_seed w) (clock w) (S (walks w)).

(** The slot the turn [i] of the loop of [measure_lookbehind] stores to. *)
Definition behind_slot (stride spots i : Z) : Z :=
  wrap64 (i + spots - lookbehind_offset) mod spots * stride + stride / 2.

Definition is_behind (stride spots j : Z) : Prop :=
  exists i, 0 <= i < spots /\ j = behind_slot stride spots i.

(** [n] successive values of the generator started on [seed]. *)
Fixpoint rng_stream (seed : Z) (n : nat) : list Z :=
  match n with
  | O => []
  | S n' => rng_next seed :: rng_stream (rng_next seed) n'
  end.

(** [n] successive calls of [rng]. *)
Fixpoint rng_values (n : nat) : M (list Z) :=
  match n with
  | O => ret []
  | S n' => r <- rng ;; rest <- rng_values n' ;; ret (r :: rest)
  end.

(** A world with a used arena, a seed and some walks behind it. *)
Definition busy_world : world :=
  mk_world (fun j => 3 * j + 1) 7 (clock_of step_samples) 5.

(** ** The program as a function of the clock

    What the program measures and prints depends on the world only through
    the readings of the clock; the functions below compute it from the
    clock [c] and the number [t] of walks timed so far.  They give up where
    a pattern would not fit the arena. *)

Fixpoint record_trials (c : nat -> duration) (all_spots : list Z)
         (acc : measurements * nat) : measurements * nat :=
  match all_spots with
  | [] => acc
  | spots :: rest =>
      record_trials c rest (push_back (fst acc) spots (c (snd acc)), S (snd acc))
  end.

Fixpoint record_iterations (c : nat -> duration) (n : nat) (all_spots : list Z)
         (acc : measurements * nat) : measurements * nat :=
  match n with
  | O => acc
  | S n' => record_iterations c n' all_spots (record_trials c all_spots acc)
  end.

Definition fit (stride : Z) (all_spots : list Z) : bool :=
  (1 <=? stride) &&
  forallb (fun spots => (1 <=? spots) && (spots * stride <=? a_size)) all_spots.

Definition measure_clock (c : nat -> duration) (t : nat) (stride : Z) (all_spots : list Z)
  : option (measurements * nat) :=
  if fit stride all_spots
  then Some (record_iterations c (Z.to_nat iterations) all_spots (no_measurements, t))
  else None.

Fixpoint find_rest_loop_clock (cbrt : float -> float) (c : nat -> duration) (fuel : nat)
         (initial_stride stride : Z) (all_spots : list Z) (prev_measured : measurements)
         (t : nat) : option (list Z * nat) :=
  match fuel with
  | O => None
  | S fuel' =>
      let stride := wrap64 (stride * 2) in
      match measure_clock c t stride (with_halves all_spots) with
      | None => None
      | Some (new_measured, t') =>
          let? d := distances cbrt prev_measured new_measured all_spots in
          if (fst d <? snd d)%float
          then let? rest_spots := scale_spots stride initial_stride all_spots in
               Some (rest_spots, t')
          else let? all_spots' := make_spots stride in
               find_rest_loop_clock cbrt c fuel' initial_stride stride all_spots'
                                    new_measured t'
      end
  end.

Definition find_rest_spots_clock (cbrt : float -> float) (c : nat -> duration) (fuel : nat)
           (initial_stride : Z) (t : nat) : option (list Z * nat) :=
  let? all_spots := make_spots initial_stride in
  match measure_clock c t initial_stride all_spots with
  | None => None
  | Some (prev_measured, t') =>
      find_rest_loop_clock cbrt c fuel initial_stride initial_stride all_spots
                           prev_measured t'
  end.

Definition find_jump_clock (c : nat -> duration) (t : nat) (initial_stride : Z)
           (search_spots : list Z) : option (Z * nat) :=
  match measure_clock c t initial_stride search_spots with
  | None => None
  | Some (measured, t') =>
      let? jump := find_jump_scan measured search_spots in Some (jump, t')
  end.

Fixpoint sweep_clock (c : nat -> duration) (t : nat) (strides : list Z)
         (results : list duration) : option (list duration * nat) :=
  match strides with
  | [] => Some (results, t)
  | stride :: rest =>
      let? spots := udiv max_check_mem stride in
      match measure_clock c t stride [spots] with
      | None => None
      | Some (measured, t') =>
          let? result := median (measured spots) in
          sweep_clock c t' rest (results ++ [result])
      end
  end.

Definition find_cache_line_size_clock (c : nat -> duration) (t : nat) : option (Z * nat) :=
  match sweep_clock c t [2; 4; 8; 16; 32; 64; 128] [] with
  | None => None
  | Some (results, t') => let? size := cache_line_scan results in Some (size, t')
  end.

Definition main_clock (cbrt : float -> float) (c : nat -> duration) (fuel : nat) (t : nat)
  : option string :=
  match find_rest_spots_clock cbrt c fuel initial_stride t with
  | None => None
  | Some (rest_spots, t1) =>
      match find_jump_clock c t1 initial_stride rest_spots with
      | None => None
      | Some (jump, t2) =>
          match find_cache_line_size_clock c t2 with
          | None => None
          | Some (cache_line_size, _) => summary rest_spots jump cache_line_size
          end
      end
  end.

(** ** Whole runs of the program *)

(** A cube root by Newton's iteration, to run [find_rest_spots] with. *)
Fixpoint newton_cbrt_from (n : nat) (a x : float) : float :=
  match n with
  | O => x
  | S n' => newton_cbrt_from n' a ((2 * x + a / (x * x)) / 3)%float
  end.

Definition newton_cbrt (a : float) : float :=
  if (a =? 0)%float then a else newton_cbrt_from 100 a a.

(** A clock for a whole run of the program.  At the strides 2 and 4 a walk
    over [spots] anchors takes [spots] seconds, so that [find_rest_spots]
    stops at the stride 4; the walks of [find_jump] take [jump_phase spots]
    seconds; the medians of the seven strides of [find_cache_line_size] are
    10, 10, 10, 40, 40, 40 and 40 seconds. *)
Definition float_of_Z (z : Z) : float := PrimFloat.of_uint63 (Uint63.of_Z z).

Definition spots_at (stride : Z) : list Z :=
  match make_spots stride with Some l => l | None => [] end.

Definition phase (all_spots : list Z) (f : Z -> duration) : list duration :=
  List.concat (repeat (map f all_spots) 9).

Definition example_samples (jump_phase : Z -> duration) : list duration :=
  phase (spots_at 2) float_of_Z
  ++ phase (with_halves (spots_at 2)) float_of_Z
  ++ phase (spots_at 2) jump_phase
  ++ List.concat (map (fun m => repeat m 9) [10; 10; 10; 40; 40; 40; 40]%float).

Definition step_at_512 (spots : Z) : duration :=
  if spots <? 512 then 1.0%float else 2.0%float.

Definition flat (spots : Z) : duration := 1.0%float.

(** A string of decimal digits. *)
Definition is_digit (c : ascii) : bool :=
  ((48 <=? nat_of_ascii c) && (nat_of_ascii c <=? 57))%nat.

Definition digits (s : string) : Prop :=
  s <> EmptyString /\ Forall (fun c => is_digit c = true) (list_ascii_of_string s).

(** The line of the three fields, without its end. *)
Definition summary_line (f1 f2 f3 : string) : string :=
  ("associativity=" ++ f1 ++ " cache_size=" ++ f2 ++ " cache_line_size=" ++ f3)%string.

(** ** The pointer chases of [measure_walk] (lines 106-119)

    The chase that warms the cache starts on [&a[0]], the timed one on
    [&a[initial_offset]]; each follows [ops] links.  The result is the
    pointers each of them visited.  A link that does not point into the
    arena makes the chase undefined. *)
Definition walk_chases (a_begin initial_offset : Z) : M (list Z * list Z) :=
  warm <- chase a_begin (Z.to_nat ops) (addr_of a_begin 0) ;;
  timed <- chase a_begin (Z.to_nat ops) (addr_of a_begin initial_offset) ;;
  ret (fst warm, fst timed).

(** Every slot of [S] is in the arena and holds the address of a slot of
    [S]. *)
Definition closed (a_begin : Z) (S : Z -> Prop) (m : Z -> Z) : Prop :=
  forall s, S s -> 0 <= s < a_size /\ exists t, S t /\ m s = addr_of a_begin t.

(** The pointers to the slots of [S]. *)
Definition points_into (a_begin : Z) (S : Z -> Prop) (ptr : Z) : Prop :=
  exists t, S t /\ ptr = addr_of a_begin t.

(** The anchors and the slots the turns [l] of the loop of
    [measure_lookbehind] store to. *)
Definition is_linked (stride spots : Z) (l : list Z) (j : Z) : Prop :=
  is_anchor stride spots j \/ exists i, In i l /\ j = behind_slot stride spots i.

(** ** The turns of the loop of [find_rest_spots]

    In the turn that starts with the stride [2^k] the candidates are those
    of [make_spots (2^k)].  [turn_ok k] checks what the turn relies on: the
    patterns of the spots values it measures at the stride [2^(k+1)] fit
    the arena; every key the distance loop reads is one of these spots
    values; and so is every candidate of the next turn. *)
Definition mem (x : Z) (l : list Z) : bool := existsb (Z.eqb x) l.

Definition turn_ok (k : Z) : bool :=
  match make_spots (2 ^ k), make_spots (2 ^ (k + 1)) with
  | Some all_spots, Some next_spots =>
      let new_spots := with_halves all_spots in
      fit (2 ^ (k + 1)) new_spots &&
      forallb (fun s => mem s new_spots && mem (half_key s) new_spots) all_spots &&
      forallb (fun s => mem s new_spots) next_spots
  | _, _ => false
  end.

(** The seed before a call of [rng] that left [seed]:
    16133697096952638549 is the inverse of the multiplier modulo 2^64. *)
Definition rng_prev (seed : Z) : Z :=
  wrap64 ((seed - 3037000493) * 16133697096952638549).

(** ** The trials of a run of [measure]

    The pairs (iteration index, spots value) of the trials of [measure], in
    the order in which its two loops run them. *)
Definition schedule (all_spots : list Z) : list (Z * Z) :=
  flat_map (fun i => map (fun spots => (i, spots)) all_spots) (upto iterations).

(** The trials [trials], one after the other. *)
Fixpoint run_trials (stride : Z) (method : Z -> Z -> M duration) (trials : list (Z * Z))
         (results : measurements) : M measurements :=
  match trials with
  | [] => ret results
  | (i, spots) :: rest =>
      results' <- trial stride method i spots results ;;
      run_trials stride method rest results'
  end.

(** In the run of [measure stride all_spots method] that starts in [w], the
    trial of [spots] in the iteration [i] starts in the world [u] and ends
    in the world [v]: the run is the trials before it, which lead from [w]
    to [u], the trial itself, and the trials after it. *)
Definition trial_in_measure (stride : Z) (method : Z -> Z -> M duration)
           (all_spots : list Z) (w : world) (i spots : Z) (u v : world) : Prop :=
  exists before after results results' measured w',
    schedule all_spots = before ++ (i, spots) :: after /\
    run_trials stride method before no_measurements w = Some (results, u) /\
    trial stride method i spots results u = Some (results', v) /\
    run_trials stride method after results' v = Some (measured, w') /\
    measure stride all_spots method w = Some (measured, w').

(** * Properties *)

(** ** Machine arithmetic *)

Lemma wrap64_small (z : Z) : 0 <= z < 2 ^ 64 -> wrap64 z = z.
Proof. intros H. unfold wrap64. now apply Z.mod_small. Qed.

Lemma wrap32_small (z : Z) : 0 <= z < 2 ^ 32 -> wrap32 z = z.
Proof. intros H. unfold wrap32. now apply Z.mod_small. Qed.

Lemma wrap64_range (z : Z) : 0 <= wrap64 z < 2 ^ 64.
Proof. unfold wrap64. apply Z.mod_pos_bound. lia. Qed.

Lemma a_size_value : a_size = 2 ^ 24.
Proof. reflexivity. Qed.

(** ** The allocation request of [aligned_array] *)

Lemma page_divides_word (z : Z) : wrap64 z mod page_size = z mod page_size.
Proof.
  unfold wrap64, page_size.
  apply Z.mod_mod_divide.
  exists (2 ^ 50). reflexivity.
Qed.

(** C10: whatever the allocator, the constructor of [aligned_array] keeps
    the slot count it is given and calls [std::aligned_alloc] once, with the
    page size, 16384, as the alignment and with a byte count, and keeps the
    address it returns.  The count is [size * 8] when that is a multiple of
    the page size, and two pages, 32768 bytes, otherwise, whatever [size]
    is.  [size * 8] is the 64-bit product the source computes: it is the
    exact product for fewer than 2^61 slots.  Both global arrays, of 2^23
    and 2^24 slots, are in the first case and are given [2^23 * 8] and
    [2^24 * 8] bytes. *)
Theorem aligned_array_ctor_request (aligned_alloc : Z -> Z -> Z) (slots : Z) :
  uint64 slots ->
  size (aligned_array_ctor aligned_alloc slots) = slots /\
  ((slots * sizeof_uint64) mod page_size = 0 ->
     begin (aligned_array_ctor aligned_alloc slots)
       = aligned_alloc page_size (wrap64 (slots * sizeof_uint64))) /\
  ((slots * sizeof_uint64) mod page_size <> 0 ->
     begin (aligned_array_ctor aligned_alloc slots)
       = aligned_alloc page_size (2 * page_size)) /\
  (slots < 2 ^ 61 -> wrap64 (slots * sizeof_uint64) = slots * 8) /\
  page_size = 16384 /\ 2 * page_size = 32768 /\
  clutter_size = 2 ^ 23 /\ a_size = 2 ^ 24 /\
  aligned_array_ctor aligned_alloc clutter_size
    = mk_aligned_array (2 ^ 23) (aligned_alloc 16384 (2 ^ 23 * 8)) /\
  aligned_array_ctor aligned_alloc a_size
    = mk_aligned_array (2 ^ 24) (aligned_alloc 16384 (2 ^ 24 * 8)).
Proof.
  intros [Hlo Hhi]. unfold aligned_array_ctor, aligned_array_bytes. cbn [size begin].
  rewrite page_divides_word.
  split; [reflexivity|]. split; [|split; [|split]].
  - intros H. rewrite H. reflexivity.
  - intros H. apply Z.eqb_neq in H. rewrite H. reflexivity.
  - intros H. apply wrap64_small. unfold sizeof_uint64. lia.
  - repeat split; reflexivity.
Qed.

Lemma aligned_array_ctor_request_witness :
  uint64 6144 /\
  begin (aligned_array_ctor (fun _ bytes => bytes) 3) = 32768 /\
  begin (aligned_array_ctor (fun _ bytes => bytes) 6144) = 6144 * 8 /\
  begin (aligned_array_ctor (fun alignment _ => alignment) 6144) = 16384.
Proof.
  assert (H3 : uint64 3) by (unfold uint64; lia).
  assert (H : uint64 6144) by (unfold uint64; lia).
  split; [exact H|].
  destruct (aligned_array_ctor_request (fun _ bytes => bytes) 3 H3) as (_ & _ & Hodd & _).
  destruct (aligned_array_ctor_request (fun _ bytes => bytes) 6144 H)
    as (_ & Hpages & _ & Hexact & _).
  destruct (aligned_array_ctor_request (fun alignment _ => alignment) 6144 H)
    as (_ & Halign & _).
  split; [rewrite Hodd; [reflexivity | discriminate]|].
  split.
  - rewrite Hpages by reflexivity. apply Hexact. lia.
  - rewrite Halign by reflexivity. reflexivity.
Defined.

(** ** The growth rule *)

(** C5: the three branches of [next_spots], on every pair of 64-bit
    arguments with the products and sums of the source (which wrap at
    2^64), without the wrap-around when [spots * stride] does not overflow,
    and on the three literal inputs. *)
Theorem next_spots_growth_rule (stride spots : Z) :
  uint64 stride -> uint64 spots ->
  next_spots stride spots =
    (if wrap64 (spots * stride) <=? 512 then wrap64 (spots * 2)
     else if stride >? 512 then wrap64 (spots + 1)
     else wrap64 (spots + 512 / stride)) /\
  (spots * stride < 2 ^ 64 -> spots < 2 ^ 63 ->
   next_spots stride spots =
     (if spots * stride <=? 512 then spots * 2
      else if stride >? 512 then spots + 1
      else spots + 512 / stride)) /\
  next_spots 256 1 = 2 /\ next_spots 1024 10 = 11 /\ next_spots 64 100 = 108.
Proof.
  intros [Hs0 Hs1] [Hp0 Hp1].
  split; [reflexivity|]. split; [|repeat split; reflexivity].
  intros Hprod Hspots. unfold next_spots. change step with 512.
  rewrite (wrap64_small (spots * stride)) by nia.
  destruct (spots * stride <=? 512) eqn:E1.
  - apply wrap64_small. lia.
  - apply Z.leb_gt in E1.
    destruct (stride >? 512) eqn:E2.
    + apply wrap64_small. nia.
    + assert (stride <= 512) by (rewrite Z.gtb_ltb in E2; apply Z.ltb_ge in E2; lia).
      assert (0 < stride) by nia.
      assert (0 <= 512 / stride <= 512).
      { split; [apply Z.div_pos; lia|].
        apply Z.div_le_upper_bound; nia. }
      apply wrap64_small. nia.
Qed.

Lemma next_spots_growth_rule_witness :
  next_spots 64 100 = 100 + 512 / 64.
Proof.
  assert (Hs : uint64 64) by (unfold uint64; lia).
  assert (Hp : uint64 100) by (unfold uint64; lia).
  destruct (next_spots_growth_rule 64 100 Hs Hp) as (_ & H & _).
  rewrite H by lia. reflexivity.
Defined.

(** ** Loops and the monad *)

Lemma bind_some {A B : Type} (m : M A) (f : A -> M B) (w w' : world) (x : A) :
  m w = Some (x, w') -> bind m f w = f x w'.
Proof. intros H. unfold bind. rewrite H. reflexivity. Qed.

Lemma bind_inv {A B : Type} (m : M A) (f : A -> M B) (w : world) (r : B * world) :
  bind m f w = Some r -> exists x w', m w = Some (x, w') /\ f x w' = Some r.
Proof.
  unfold bind. destruct (m w) as [[x w']|]; [|discriminate].
  intros H. now exists x, w'.
Qed.

Lemma for_each_ext (l : list Z) (f g : Z -> M unit) :
  (forall i, In i l -> f i = g i) -> for_each l f = for_each l g.
Proof.
  induction l as [|i l IH]; intros H; simpl; [reflexivity|].
  rewrite (H i) by now left.
  rewrite IH; [reflexivity|]. intros j Hj. apply H. now right.
Qed.

Lemma for_each_app (l1 l2 : list Z) (f : Z -> M unit) (w w1 : world) :
  for_each l1 f w = Some (tt, w1) ->
  for_each (l1 ++ l2) f w = for_each l2 f w1.
Proof.
  revert w. induction l1 as [|i l1 IH]; intros w H; simpl in *.
  - inversion H. reflexivity.
  - apply bind_inv in H. destruct H as ([] & w' & Hi & Hrest).
    rewrite (bind_some _ _ _ _ _ Hi). now apply IH.
Qed.

Lemma in_upto (n i : Z) : In i (upto n) <-> 0 <= i < n.
Proof.
  unfold upto. rewrite in_map_iff. split.
  - intros (k & <- & Hk). apply in_seq in Hk. lia.
  - intros H. exists (Z.to_nat i). split; [lia|]. apply in_seq. lia.
Qed.

Lemma in_downto1 (n i : Z) : In i (downto1 n) <-> 1 <= i <= n.
Proof.
  unfold downto1. rewrite in_map_iff. split.
  - intros (k & <- & Hk). apply in_rev, in_seq in Hk. lia.
  - intros H. exists (Z.to_nat i). split; [lia|]. apply in_rev.
    rewrite rev_involutive. apply in_seq. lia.
Qed.

Lemma NoDup_upto (n : Z) : NoDup (upto n).
Proof.
  unfold upto. apply Finite.Injective_map_NoDup_in.
  - intros x y _ _ H. lia.
  - apply seq_NoDup.
Qed.

Lemma length_upto (n : Z) : List.length (upto n) = Z.to_nat n.
Proof. unfold upto. now rewrite length_map, length_seq. Qed.

(** ** The arena *)

Lemma in_arena_iff (i : Z) : in_arena i = true <-> 0 <= i < a_size.
Proof. unfold in_arena. rewrite andb_true_iff, Z.leb_le, Z.ltb_lt. tauto. Qed.

Lemma upd_same (m : Z -> Z) (i v : Z) : upd m i v i = v.
Proof. unfold upd. now rewrite Z.eqb_refl. Qed.

Lemma upd_other (m : Z -> Z) (i v j : Z) : j <> i -> upd m i v j = m j.
Proof. intros H. unfold upd. apply Z.eqb_neq in H. now rewrite H. Qed.


Lemma stores_other (idx val : Z -> Z) (l : list Z) (m : Z -> Z) (j : Z) :
  (forall i, In i l -> idx i <> j) -> stores idx val l m j = m j.
Proof.
  revert m. induction l as [|i l IH]; intros m H; simpl; [reflexivity|].
  unfold stores in *. simpl. rewrite IH by (intros k Hk; apply H; now right).
  apply upd_other. intros E. apply (H i); [now left | now symmetry].
Qed.

Lemma stores_at (idx val : Z -> Z) (l : list Z) (m : Z -> Z) (i : Z) :
  NoDup (map idx l) -> In i l -> stores idx val l m (idx i) = val i.
Proof.
  revert m. induction l as [|k l IH]; intros m Hnd Hin; [contradiction|].
  simpl in Hnd. inversion Hnd as [|? ? Hk Hl]; subst.
  unfold stores in *. simpl. destruct Hin as [->|Hin].
  - fold (stores idx val l (upd m (idx i) (val i))).
    rewrite stores_other; [apply upd_same|].
    intros j Hj E. apply Hk. rewrite <- E. now apply in_map.
  - now apply IH.
Qed.

Lemma for_each_a_set (idx val : Z -> Z) (l : list Z) (w : world) :
  (forall i, In i l -> in_arena (idx i) = true) ->
  for_each l (fun i => a_set (idx i) (val i)) w =
    Some (tt, mk_world (stores idx val l (a_mem w)) (rng_seed w) (clock w) (walks w)).
Proof.
  revert w. induction l as [|i l IH]; intros w H; simpl.
  - destruct w; reflexivity.
  - unfold bind at 1. unfold a_set at 1. rewrite (H i) by now left.
    rewrite IH by (intros k Hk; apply H; now right). reflexivity.
Qed.

Lemma slot_of_addr_of (a_begin j : Z) :
  0 <= j < a_size -> slot_of a_begin (addr_of a_begin j) = Some j.
Proof.
  intros H. rewrite a_size_value in H.
  assert (E : wrap64 (addr_of a_begin j - a_begin) = sizeof_uint64 * j).
  { unfold addr_of, wrap64. rewrite Zminus_mod_idemp_l.
    replace (a_begin + sizeof_uint64 * j - a_begin) with (sizeof_uint64 * j) by ring.
    apply Z.mod_small. unfold sizeof_uint64. lia. }
  unfold slot_of. rewrite E. unfold sizeof_uint64.
  rewrite Z.mul_comm, Z.mod_mul, Z.div_mul by lia. simpl.
  assert (Hin : in_arena j = true) by (apply in_arena_iff; rewrite a_size_value; lia).
  now rewrite Hin.
Qed.

Lemma addr_of_inj (a_begin i j : Z) :
  0 <= i < a_size -> 0 <= j < a_size ->
  addr_of a_begin i = addr_of a_begin j -> i = j.
Proof.
  intros Hi Hj E.
  apply (f_equal (slot_of a_begin)) in E.
  rewrite !slot_of_addr_of in E by assumption. now inversion E.
Qed.

(** ** The forward chain *)

Section ForwardChain.

Variable a_begin : Z.
Variables stride spots : Z.
Hypothesis stride_pos : 1 <= stride.
Hypothesis spots_pos : 1 <= spots.
Hypothesis fits : spots * stride <= a_size.

Lemma anchor_bound (i : Z) :
  0 <= i < spots -> 0 <= i * stride /\ i * stride <= (spots - 1) * stride < a_size.
Proof. intros H. nia. Qed.

Lemma anchor_inj (i j : Z) : i * stride = j * stride -> i = j.
Proof. intros H. nia. Qed.


Lemma create_forward_chain_run (w : world) :
  create_forward_chain a_begin stride spots w =
    Some (tt, mk_world (chain_mem a_begin stride spots (a_mem w)) (rng_seed w) (clock w) (walks w)).
Proof.
  pose proof a_size_value as Ha.
  unfold create_forward_chain.
  rewrite (wrap64_small (spots - 1)) by nia.
  rewrite (for_each_ext _ _
             (fun i => a_set (i * stride) (addr_of a_begin ((i + 1) * stride)))).
  2:{ intros i Hi. apply in_upto in Hi.
      destruct (anchor_bound i) as [? ?]; [lia|].
      destruct (anchor_bound (i + 1)) as [? ?]; [lia|].
      rewrite (wrap64_small (i * stride)) by lia.
      rewrite (wrap64_small (i + 1)) by nia.
      rewrite (wrap64_small ((i + 1) * stride)) by lia. reflexivity. }
  erewrite bind_some.
  2:{ apply for_each_a_set. intros i Hi. apply in_upto in Hi.
      apply in_arena_iff. destruct (anchor_bound i); lia. }
  rewrite (wrap64_small (stride * spots)) by nia.
  replace (stride * spots - stride) with ((spots - 1) * stride) by ring.
  destruct (anchor_bound (spots - 1)) as [? ?]; [lia|].
  rewrite (wrap64_small ((spots - 1) * stride)) by lia.
  unfold a_set. simpl.
  assert (Hin : in_arena ((spots - 1) * stride) = true) by (apply in_arena_iff; lia).
  rewrite Hin. reflexivity.
Qed.

Lemma chain_mem_anchor (m : Z -> Z) (i : Z) :
  0 <= i < spots ->
  chain_mem a_begin stride spots m (i * stride) =
    addr_of a_begin ((i + 1) mod spots * stride).
Proof.
  intros Hi. unfold chain_mem.
  destruct (Z.eq_dec i (spots - 1)) as [->|Hne].
  - rewrite upd_same. replace (spots - 1 + 1) with spots by ring.
    now rewrite Z.mod_same by lia.
  - rewrite upd_other by (intros E; apply anchor_inj in E; lia).
    rewrite (stores_at (fun i => i * stride)).
    + now rewrite Z.mod_small by lia.
    + apply Finite.Injective_map_NoDup_in; [|apply NoDup_upto].
      intros x y _ _. apply anchor_inj.
    + apply in_upto. lia.
Qed.

Lemma chain_mem_other (m : Z -> Z) (j : Z) :
  (forall i, 0 <= i < spots -> j <> i * stride) ->
  chain_mem a_begin stride spots m j = m j.
Proof.
  intros H. unfold chain_mem.
  rewrite upd_other by (apply H; lia).
  apply stores_other. intros i Hi E. apply in_upto in Hi.
  apply (H i); [lia | now symmetry].
Qed.

(** Following the links of a forward chain. *)
Lemma chase_forward_chain (w : world) :
  (forall i, 0 <= i < spots ->
             a_mem w (i * stride) = addr_of a_begin ((i + 1) mod spots * stride)) ->
  forall (n : nat) (k : Z), 0 <= k < spots ->
    chase a_begin n (addr_of a_begin (k * stride)) w =
      Some ((map (fun t => addr_of a_begin ((k + Z.of_nat t) mod spots * stride)) (seq 0 n),
             addr_of a_begin ((k + Z.of_nat n) mod spots * stride)), w).
Proof.
  intros Hlinks. induction n as [|n IH]; intros k Hk.
  - simpl. unfold ret. now rewrite Z.add_0_r, Z.mod_small.
  - cbn [chase].
    assert (Hd : deref a_begin (addr_of a_begin (k * stride)) w =
                 Some (addr_of a_begin ((k + 1) mod spots * stride), w)).
    { unfold deref, bind, lift. rewrite slot_of_addr_of.
      - unfold a_get.
        assert (Hin : in_arena (k * stride) = true).
        { apply in_arena_iff. destruct (anchor_bound k); lia. }
        rewrite Hin, Hlinks by assumption. reflexivity.
      - destruct (anchor_bound k); lia. }
    rewrite (bind_some _ _ _ _ _ Hd).
    assert (Hk' : 0 <= (k + 1) mod spots < spots) by (apply Z.mod_pos_bound; lia).
    rewrite (bind_some _ _ _ _ _ (IH _ Hk')). unfold ret. cbn [fst snd].
    assert (E : forall t, ((k + 1) mod spots + t) mod spots = (k + (1 + t)) mod spots).
    { intros t. rewrite Zplus_mod_idemp_l. f_equal. ring. }
    rewrite E. replace (1 + Z.of_nat n) with (Z.of_nat (S n)) by lia.
    do 3 f_equal. cbn [seq map]. rewrite Z.add_0_r, (Z.mod_small k) by lia.
    f_equal. rewrite <- seq_shift, map_map.
    apply map_ext. intros t. rewrite E. do 3 f_equal. lia.
Qed.

Lemma rotation_permutation (k : Z) :
  0 <= k < spots ->
  Permutation (map (fun t => (k + t) mod spots) (upto spots)) (upto spots).
Proof.
  intros Hk. apply Permutation_map_same_l.
  - apply Finite.Injective_map_NoDup_in; [|apply NoDup_upto].
    intros x y Hx Hy E. apply in_upto in Hx, Hy.
    apply Z.cong_iff_0 in E.
    replace (k + x - (k + y)) with (x - y) in E by ring.
    destruct (Z.eq_dec x y) as [|Hne]; [assumption|exfalso].
    apply Z.mod_divide in E; [|lia]. destruct E as [q Hq].
    assert (q = 0) by nia. lia.
  - intros x Hx. apply in_map_iff in Hx. destruct Hx as (t & <- & _).
    apply in_upto. apply Z.mod_pos_bound. lia.
Qed.

End ForwardChain.


(** C6: for [stride >= 1] and [spots >= 1] with [spots * stride] slots
    inside the arena, [create_forward_chain] returns; afterwards anchor [i]
    (slot [i * stride]) holds the address of anchor [i + 1], the last one
    that of anchor [0], and no other slot has changed; from any anchor,
    [spots] steps of the pointer chase end on that anchor again and visit,
    starting with it, each of the [spots] anchors exactly once. *)
Theorem create_forward_chain_cycle (a_begin stride spots : Z) (w : world) :
  1 <= stride -> 1 <= spots -> spots * stride <= a_size ->
  exists w',
    create_forward_chain a_begin stride spots w = Some (tt, w') /\
    (forall i, 0 <= i < spots ->
       a_mem w' (i * stride) = addr_of a_begin ((i + 1) mod spots * stride)) /\
    (forall j, (forall i, 0 <= i < spots -> j <> i * stride) -> a_mem w' j = a_mem w j) /\
    (forall k, 0 <= k < spots ->
       exists visited,
         chase a_begin (Z.to_nat spots) (addr_of a_begin (k * stride)) w' =
           Some ((visited, addr_of a_begin (k * stride)), w') /\
         hd_error visited = Some (addr_of a_begin (k * stride)) /\
         NoDup visited /\
         Permutation visited (map (fun i => addr_of a_begin (i * stride)) (upto spots))).
Proof.
  intros Hstride Hspots Hfit.
  eexists. split; [now apply create_forward_chain_run|]. cbn [a_mem].
  split; [intros i Hi; now apply chain_mem_anchor|].
  split; [intros j Hj; now apply chain_mem_other|].
  intros k Hk.
  set (w' := mk_world _ _ _ _).
  assert (Hlinks : forall i, 0 <= i < spots ->
            a_mem w' (i * stride) = addr_of a_begin ((i + 1) mod spots * stride)).
  { intros i Hi. now apply chain_mem_anchor. }
  pose proof (chase_forward_chain a_begin stride spots Hstride Hspots Hfit w' Hlinks
                (Z.to_nat spots) k Hk) as Hchase.
  rewrite Z2Nat.id in Hchase by lia.
  replace ((k + spots) mod spots) with k in Hchase.
  2:{ rewrite <- (Z.mul_1_l spots) at 1. rewrite Z.mod_add by lia.
      symmetry. apply Z.mod_small. lia. }
  eexists. split; [exact Hchase|].
  assert (Hvisited :
    map (fun t => addr_of a_begin ((k + Z.of_nat t) mod spots * stride))
        (seq 0 (Z.to_nat spots)) =
    map (fun i => addr_of a_begin (i * stride))
        (map (fun t => (k + t) mod spots) (upto spots))).
  { unfold upto. now rewrite !map_map. }
  pose proof (rotation_permutation spots Hspots k Hk) as Hrot.
  split; [|split].
  - destruct (Z.to_nat spots) as [|n] eqn:E; [lia|].
    cbn [seq map hd_error]. now rewrite Z.add_0_r, Z.mod_small by lia.
  - rewrite Hvisited.
    apply Finite.Injective_map_NoDup_in.
    + intros x y Hx Hy E.
      apply (Permutation_in _ Hrot), in_upto in Hx.
      apply (Permutation_in _ Hrot), in_upto in Hy.
      apply addr_of_inj in E.
      * eapply anchor_inj; [exact Hstride | exact E].
      * destruct (anchor_bound stride spots Hstride Hfit x); lia.
      * destruct (anchor_bound stride spots Hstride Hfit y); lia.
    + apply (Permutation_NoDup (Permutation_sym Hrot)), NoDup_upto.
  - rewrite Hvisited. now apply Permutation_map.
Qed.

Lemma create_forward_chain_cycle_witness :
  exists w',
    create_forward_chain 4096 2 3 blank_world = Some (tt, w') /\
    a_mem w' 0 = 4096 + 8 * 2 /\ a_mem w' 2 = 4096 + 8 * 4 /\ a_mem w' 4 = 4096.
Proof.
  destruct (create_forward_chain_cycle 4096 2 3 blank_world) as (w' & Hrun & Hlinks & _).
  - lia.
  - lia.
  - rewrite a_size_value. lia.
  - exists w'. split; [exact Hrun|].
    pose proof (Hlinks 0) as H0. pose proof (Hlinks 1) as H1.
    pose proof (Hlinks 2) as H2.
    change (0 * 2) with 0 in H0. change (1 * 2) with 2 in H1.
    change (2 * 2) with 4 in H2.
    rewrite H0, H1, H2 by lia.
    repeat split; reflexivity.
Defined.

(** ** The shuffle *)


Lemma picks_fst (idx : list Z) (seed : Z) : map fst (fst (picks idx seed)) = idx.
Proof.
  revert seed. induction idx as [|i idx IH]; intros seed; simpl; [reflexivity|].
  now rewrite IH.
Qed.

Lemma picks_range (idx : list Z) (seed : Z) :
  Forall (fun i => 0 <= i) idx ->
  Forall (fun p => 0 <= snd p <= fst p) (fst (picks idx seed)).
Proof.
  revert seed. induction idx as [|i idx IH]; intros seed H; simpl; [constructor|].
  inversion H; subst. constructor; [|now apply IH].
  simpl. pose proof (Z.mod_pos_bound (rng_next seed) (i + 1)). lia.
Qed.

Lemma swap_run (x y : Z) (w : world) :
  in_arena x = true -> in_arena y = true ->
  swap x y w = Some (tt, mk_world (swap_mem (a_mem w) x y) (rng_seed w) (clock w) (walks w)).
Proof.
  intros Hx Hy. unfold swap, bind, a_get, a_set.
  repeat (rewrite ?Hx, ?Hy; cbn beta iota). reflexivity.
Qed.

Section Shuffle.

Variables stride spots : Z.
Hypothesis stride_nonneg : 0 <= stride.
Hypothesis spots_range : 1 <= spots < 2 ^ 32.
Hypothesis fits : (spots - 1) * stride < a_size.

Lemma anchor_in_arena (i : Z) : 0 <= i < spots -> in_arena (i * stride) = true.
Proof. intros H. apply in_arena_iff. nia. Qed.

Lemma anchor_wrap (i : Z) : 0 <= i < spots -> wrap64 (i * stride) = i * stride.
Proof.
  intros H. apply wrap64_small. pose proof a_size_value. nia.
Qed.

Lemma shuffle_loop_run (idx : list Z) (w : world) :
  Forall (fun i => 1 <= i < spots) idx ->
  for_each idx (fun i =>
    r <- rng ;;
    k <- lift (umod r (wrap32 (i + 1))) ;;
    swap (wrap64 (i * stride)) (wrap64 (k * stride))) w =
  Some (tt, mk_world (apply_swaps stride (fst (picks idx (rng_seed w))) (a_mem w))
                     (snd (picks idx (rng_seed w))) (clock w) (walks w)).
Proof.
  revert w. induction idx as [|i idx IH]; intros w H.
  - simpl. destruct w; reflexivity.
  - inversion H as [|? ? Hi Hidx]; subst.
    cbn [for_each picks fst snd]. unfold bind at 1. unfold bind at 1.
    unfold rng at 1. cbn beta iota zeta.
    set (r := rng_next (rng_seed w)).
    rewrite (wrap32_small (i + 1)) by lia.
    unfold bind at 1. unfold lift, umod.
    assert (E : (i + 1 =? 0) = false) by (apply Z.eqb_neq; lia). rewrite E.
    pose proof (Z.mod_pos_bound r (i + 1)) as Hk.
    rewrite (anchor_wrap i), (anchor_wrap (r mod (i + 1))) by lia.
    rewrite swap_run by (apply anchor_in_arena; lia).
    rewrite IH by assumption. reflexivity.
Qed.

Lemma shuffle_run (w : world) :
  shuffle stride spots w =
  Some (tt, mk_world
              (apply_swaps stride (fst (picks (downto1 (spots - 1)) (rng_seed w))) (a_mem w))
              (snd (picks (downto1 (spots - 1)) (rng_seed w))) (clock w) (walks w)).
Proof.
  unfold shuffle.
  rewrite (wrap64_small (spots - 1)), (wrap32_small (spots - 1)) by lia.
  apply shuffle_loop_run.
  apply Forall_forall. intros i Hi. apply in_downto1 in Hi. lia.
Qed.

Lemma swap_mem_other (m : Z -> Z) (x y j : Z) : j <> x -> j <> y -> swap_mem m x y j = m j.
Proof. intros Hx Hy. unfold swap_mem. now rewrite !upd_other. Qed.

(** A swap of two anchors permutes the values the anchors hold. *)
Lemma swap_mem_anchors (m : Z -> Z) (i k : Z) :
  0 <= i < spots -> 0 <= k < spots ->
  Permutation (anchors stride spots (swap_mem m (i * stride) (k * stride)))
              (anchors stride spots m).
Proof.
  intros Hi Hk. unfold anchors.
  destruct (Z.eq_dec stride 0) as [->|Hs].
  - apply Permutation_refl'. apply map_ext. intros t.
    rewrite !Z.mul_0_r. unfold swap_mem. now rewrite upd_same.
  - set (tau := fun t => if t =? k then i else if t =? i then k else t).
    assert (E : map (fun t => swap_mem m (i * stride) (k * stride) (t * stride)) (upto spots)
                = map (fun t => m (t * stride)) (map tau (upto spots))).
    { rewrite map_map. apply map_ext. intros t. unfold tau, swap_mem, upd.
      destruct (t =? k) eqn:E1.
      - apply Z.eqb_eq in E1. subst t. now rewrite Z.eqb_refl.
      - assert (E1' : (t * stride =? k * stride) = false).
        { apply Z.eqb_neq in E1. apply Z.eqb_neq. nia. }
        rewrite E1'. destruct (t =? i) eqn:E2.
        + apply Z.eqb_eq in E2. subst t. now rewrite Z.eqb_refl.
        + assert (E2' : (t * stride =? i * stride) = false).
          { apply Z.eqb_neq in E2. apply Z.eqb_neq. nia. }
          now rewrite E2'. }
    rewrite E. apply Permutation_map. apply Permutation_map_same_l.
    + apply Finite.Injective_map_NoDup_in; [|apply NoDup_upto].
      intros x y _ _. unfold tau.
      destruct (x =? k) eqn:X1; destruct (y =? k) eqn:Y1;
        destruct (x =? i) eqn:X2; destruct (y =? i) eqn:Y2;
        rewrite ?Z.eqb_eq, ?Z.eqb_neq in *; lia.
    + intros x Hx. apply in_map_iff in Hx. destruct Hx as (t & <- & Ht).
      apply in_upto in Ht. apply in_upto. unfold tau.
      destruct (t =? k); [lia|]. destruct (t =? i); lia.
Qed.

Lemma apply_swaps_anchors (ps : list (Z * Z)) (m : Z -> Z) :
  Forall (fun p => 0 <= fst p < spots /\ 0 <= snd p < spots) ps ->
  Permutation (anchors stride spots (apply_swaps stride ps m)) (anchors stride spots m).
Proof.
  revert m. induction ps as [|p ps IH]; intros m H; simpl; [reflexivity|].
  inversion H as [|? ? [Hp1 Hp2] Hps]; subst.
  unfold apply_swaps in *. simpl. rewrite IH by assumption.
  now apply swap_mem_anchors.
Qed.

Lemma apply_swaps_other (ps : list (Z * Z)) (m : Z -> Z) (j : Z) :
  (forall i, 0 <= i < spots -> j <> i * stride) ->
  Forall (fun p => 0 <= fst p < spots /\ 0 <= snd p < spots) ps ->
  apply_swaps stride ps m j = m j.
Proof.
  intros Hj. revert m. induction ps as [|p ps IH]; intros m H; simpl; [reflexivity|].
  inversion H as [|? ? [Hp1 Hp2] Hps]; subst.
  unfold apply_swaps in *. simpl. rewrite IH by assumption.
  apply swap_mem_other; now apply Hj.
Qed.

Lemma picks_in_range (seed : Z) :
  Forall (fun p => 0 <= fst p < spots /\ 0 <= snd p < spots)
         (fst (picks (downto1 (spots - 1)) seed)).
Proof.
  assert (Hidx : Forall (fun i => 1 <= i < spots) (downto1 (spots - 1))).
  { apply Forall_forall. intros i Hi. apply in_downto1 in Hi. lia. }
  revert seed. induction Hidx as [|i idx Hi Hidx IH]; intros seed; simpl; [constructor|].
  constructor; [|apply IH]. simpl.
  pose proof (Z.mod_pos_bound (rng_next seed) (i + 1)). lia.
Qed.

End Shuffle.

Lemma downto1_cons (n : Z) : 1 <= n -> downto1 n = n :: downto1 (n - 1).
Proof.
  intros H. unfold downto1.
  replace (Z.to_nat n) with (S (Z.to_nat (n - 1))) by lia.
  rewrite seq_S, rev_app_distr. simpl. f_equal. lia.
Qed.

(** C7, as the code has it: for [1 <= spots < 2^32] with the anchors inside
    the arena, [shuffle] returns; it has gone through the anchor indices
    [spots - 1, ..., 1], swapping anchor [i] with the anchor at the index
    [rng() % (i + 1)], which is at most [i]; the values the [spots] anchors
    hold afterwards are a permutation of those they held before, and every
    other slot is unchanged. *)
Theorem shuffle_permutes_anchors (stride spots : Z) (w : world) :
  0 <= stride -> 1 <= spots < 2 ^ 32 -> (spots - 1) * stride < a_size ->
  exists (w' : world) (swaps : list (Z * Z)),
    shuffle stride spots w = Some (tt, w') /\
    map fst swaps = downto1 (spots - 1) /\
    fst (picks (downto1 (spots - 1)) (rng_seed w)) = swaps /\
    Forall (fun p => 0 <= snd p <= fst p) swaps /\
    a_mem w' = apply_swaps stride swaps (a_mem w) /\
    Permutation (anchors stride spots (a_mem w')) (anchors stride spots (a_mem w)) /\
    (forall j, (forall i, 0 <= i < spots -> j <> i * stride) -> a_mem w' j = a_mem w j).
Proof.
  intros Hstride Hspots Hfit.
  eexists. eexists. split; [now apply shuffle_run|]. cbn [a_mem].
  split; [apply picks_fst|]. split; [reflexivity|].
  split.
  { apply picks_range. apply Forall_forall. intros i Hi.
    apply in_downto1 in Hi. lia. }
  split; [reflexivity|].
  split.
  - apply apply_swaps_anchors; try assumption. now apply picks_in_range.
  - intros j Hj. apply apply_swaps_other with (spots := spots); try assumption.
    now apply picks_in_range.
Qed.

Lemma shuffle_permutes_anchors_witness :
  exists w', shuffle 2 3 blank_world = Some (tt, w') /\
             Permutation (anchors 2 3 (a_mem w')) (anchors 2 3 (a_mem blank_world)).
Proof.
  destruct (shuffle_permutes_anchors 2 3 blank_world)
    as (w' & swaps & Hrun & _ & _ & _ & _ & Hperm & _).
  - lia.
  - lia.
  - rewrite a_size_value. lia.
  - exists w'. split; [exact Hrun | exact Hperm].
Defined.

Lemma for_each_fails_at_head (i : Z) (rest : list Z) (body : Z -> M unit) (w : world) :
  body i w = None -> for_each (i :: rest) body w = None.
Proof. intros H. simpl. unfold bind. now rewrite H. Qed.

(** With [spots = 0] the 32-bit counter starts at [2^32 - 1] and the first
    turn of the loop divides by [i + 1 = 0]: [shuffle] is not defined for
    every [spots]. *)
Lemma shuffle_zero_spots_undefined : shuffle 1 0 blank_world = None.
Proof.
  unfold shuffle.
  replace (wrap32 (wrap64 (0 - 1))) with (2 ^ 32 - 1) by reflexivity.
  rewrite downto1_cons by lia.
  generalize (downto1 (2 ^ 32 - 1 - 1)). intros rest.
  apply for_each_fails_at_head. reflexivity.
Qed.

(** ** The order of binary64 floats *)

Lemma SFcompare_key (x y : spec_float) :
  SFcompare x y =
    match fkey x, fkey y with
    | Some p, Some q => Some (lex_compare p q)
    | _, _ => None
    end.
Proof.
  destruct x as [sx|sx| |sx mx ex], y as [sy|sy| |sy my ey];
    try destruct sx; try destruct sy; try reflexivity.
  cbn [SFcompare fkey]. unfold lex_compare. cbn [fst snd].
  rewrite Z.compare_opp, (Z.compare_antisym ex ey). cbn.
  destruct (ex ?= ey); reflexivity.
Qed.

Lemma lex_compare_lt (p q : Z * Z * Z) : lex_compare p q = Lt <-> lex_lt p q.
Proof.
  unfold lex_compare, lex_lt.
  destruct (Z.compare_spec (fst (fst p)) (fst (fst q)));
    destruct (Z.compare_spec (snd (fst p)) (snd (fst q)));
    destruct (Z.compare_spec (snd p) (snd q));
    split; intros; try discriminate; try reflexivity; lia.
Qed.

Lemma lex_compare_le (p q : Z * Z * Z) :
  (lex_compare p q = Lt \/ lex_compare p q = Eq) <-> lex_le p q.
Proof.
  unfold lex_compare, lex_le.
  destruct (Z.compare_spec (fst (fst p)) (fst (fst q)));
    destruct (Z.compare_spec (snd (fst p)) (snd (fst q)));
    destruct (Z.compare_spec (snd p) (snd q));
    split; intros; try (intuition discriminate); try (now left); try (now right);
    lia.
Qed.

Lemma ltb_key (x y : float) :
  (x <? y)%float = true <->
  exists p q, fkey (Prim2SF x) = Some p /\ fkey (Prim2SF y) = Some q /\ lex_lt p q.
Proof.
  rewrite ltb_spec. unfold SFltb. rewrite SFcompare_key.
  destruct (fkey (Prim2SF x)) as [p|], (fkey (Prim2SF y)) as [q|].
  - split.
    + intros H. exists p, q. repeat split. apply lex_compare_lt.
      destruct (lex_compare p q); now try discriminate.
    + intros (p' & q' & Hp & Hq & H). inversion Hp; inversion Hq; subst.
      apply lex_compare_lt in H. now rewrite H.
  - split; [discriminate|]. intros (p' & q' & _ & Hq & _). discriminate.
  - split; [discriminate|]. intros (p' & q' & Hp & _). discriminate.
  - split; [discriminate|]. intros (p' & q' & Hp & _). discriminate.
Qed.

Lemma leb_key (x y : float) :
  (x <=? y)%float = true <->
  exists p q, fkey (Prim2SF x) = Some p /\ fkey (Prim2SF y) = Some q /\ lex_le p q.
Proof.
  rewrite leb_spec. unfold SFleb. rewrite SFcompare_key.
  destruct (fkey (Prim2SF x)) as [p|], (fkey (Prim2SF y)) as [q|].
  - split.
    + intros H. exists p, q. repeat split. apply lex_compare_le.
      destruct (lex_compare p q); try discriminate; auto.
    + intros (p' & q' & Hp & Hq & H). inversion Hp; inversion Hq; subst.
      apply lex_compare_le in H. destruct H as [H|H]; now rewrite H.
  - split; [discriminate|]. intros (p' & q' & _ & Hq & _). discriminate.
  - split; [discriminate|]. intros (p' & q' & Hp & _). discriminate.
  - split; [discriminate|]. intros (p' & q' & Hp & _). discriminate.
Qed.

Ltac float_order :=
  repeat match goal with
         | H : (_ <? _)%float = true |- _ => apply ltb_key in H; destruct H as (? & ? & ? & ? & H)
         | H : (_ <=? _)%float = true |- _ => apply leb_key in H; destruct H as (? & ? & ? & ? & H)
         | H : ?a = Some _, H' : ?a = Some _ |- _ => rewrite H in H'; inversion H'; clear H'; subst
         end.

Lemma ltb_irrefl (x : float) : (x <? x)%float = false.
Proof.
  destruct (x <? x)%float eqn:E; [|reflexivity]. float_order.
  unfold lex_lt in E. lia.
Qed.

Lemma ltb_leb (x y : float) : (x <? y)%float = true -> (x <=? y)%float = true.
Proof.
  intros H. float_order. apply leb_key. eexists; eexists. repeat split; eauto.
  unfold lex_lt, lex_le in *. lia.
Qed.

Lemma ltb_asym (x y : float) : (x <? y)%float = true -> (y <? x)%float = false.
Proof.
  intros H. destruct (y <? x)%float eqn:E; [|reflexivity]. float_order.
  unfold lex_lt in *. lia.
Qed.

Lemma leb_trans (x y z : float) :
  (x <=? y)%float = true -> (y <=? z)%float = true -> (x <=? z)%float = true.
Proof.
  intros H1 H2. float_order. apply leb_key. eexists; eexists. repeat split; eauto.
  unfold lex_le in *. lia.
Qed.

Lemma leb_ltb_trans (x y z : float) :
  (x <=? y)%float = true -> (y <? z)%float = true -> (x <? z)%float = true.
Proof.
  intros H1 H2. float_order. apply ltb_key. eexists; eexists. repeat split; eauto.
  unfold lex_lt, lex_le in *. lia.
Qed.

Lemma leb_refl_of_leb (x y : float) : (x <=? y)%float = true -> (y <=? y)%float = true.
Proof.
  intros H. float_order. apply leb_key. eexists; eexists. repeat split; eauto.
  unfold lex_le in *. lia.
Qed.

(** ** The scan of [find_jump] *)

Lemma at_nat {A : Type} (v : list A) (i : nat) : at_ v (Z.of_nat i) = nth_error v i.
Proof.
  unfold at_. destruct (Z.of_nat i <? 0) eqn:E; [apply Z.ltb_lt in E; lia|].
  now rewrite Nat2Z.id.
Qed.

Lemma smooth_loop_app (idx1 idx2 : list Z) (s : list duration) :
  smooth_loop (idx1 ++ idx2) s =
    match smooth_loop idx1 s with
    | Some s' => smooth_loop idx2 s'
    | None => None
    end.
Proof.
  revert s. induction idx1 as [|i idx1 IH]; intros s; simpl; [reflexivity|].
  destruct (at_ s (i - 1)); [|reflexivity].
  destruct (at_ s i); [|reflexivity]. apply IH.
Qed.

Lemma smooth_loop_shift (idx : list Z) (x : duration) (s : list duration) :
  Forall (fun i => 1 <= i) idx ->
  smooth_loop (map (Z.add 1) idx) (x :: s) = option_map (cons x) (smooth_loop idx s).
Proof.
  intros H. revert s. induction H as [|i idx Hi Hidx IH]; intros s; [reflexivity|].
  cbn [map smooth_loop].
  assert (E1 : at_ (x :: s) (1 + i - 1) = at_ s (i - 1)).
  { unfold at_. destruct (1 + i - 1 <? 0) eqn:E; [apply Z.ltb_lt in E; lia|].
    destruct (i - 1 <? 0) eqn:E'; [apply Z.ltb_lt in E'; lia|].
    replace (Z.to_nat (1 + i - 1)) with (S (Z.to_nat (i - 1))) by lia. reflexivity. }
  assert (E2 : at_ (x :: s) (1 + i) = at_ s i).
  { unfold at_. destruct (1 + i <? 0) eqn:E; [apply Z.ltb_lt in E; lia|].
    destruct (i <? 0) eqn:E'; [apply Z.ltb_lt in E'; lia|].
    replace (Z.to_nat (1 + i)) with (S (Z.to_nat i)) by lia. reflexivity. }
  rewrite E1, E2.
  destruct (at_ s (i - 1)); [|reflexivity].
  destruct (at_ s i); [|reflexivity].
  replace (Z.to_nat (1 + i - 1)) with (S (Z.to_nat (i - 1))) by lia.
  cbn [vec_set]. apply IH.
Qed.

Lemma downto1_succ (n : Z) :
  0 <= n -> downto1 (n + 1) = map (Z.add 1) (downto1 n) ++ [1].
Proof.
  intros H. unfold downto1.
  replace (Z.to_nat (n + 1)) with (S (Z.to_nat n)) by lia.
  cbn [seq rev map]. rewrite <- seq_shift, map_app, <- !map_rev, !map_map.
  f_equal. apply map_ext. intros k. rewrite Nat2Z.inj_succ. lia.
Qed.

Lemma length_smooth_rec (l : list duration) : List.length (smooth_rec l) = List.length l.
Proof.
  induction l as [|x l IH]; [reflexivity|]. cbn [smooth_rec].
  destruct (smooth_rec l) as [|y s]; cbn [List.length] in *; lia.
Qed.

(** The loop of lines 294-298 computes the smoothed suffix. *)
Lemma smooth_spec (l : list duration) :
  l <> [] -> vec_size l < 2 ^ 64 -> smooth l = Some (smooth_rec l).
Proof.
  induction l as [|x l IH]; intros Hne Hsize; [contradiction|].
  unfold smooth, vec_size in *. cbn [List.length] in *.
  rewrite wrap64_small by lia.
  replace (Z.of_nat (S (List.length l)) - 1) with (Z.of_nat (List.length l)) by lia.
  destruct l as [|y l]; [reflexivity|].
  cbn [List.length].
  replace (Z.of_nat (S (List.length l))) with (Z.of_nat (List.length l) + 1) by lia.
  rewrite downto1_succ, smooth_loop_app by lia.
  rewrite smooth_loop_shift.
  2:{ apply Forall_forall. intros i Hi. apply in_downto1 in Hi. lia. }
  assert (IH' : smooth_loop (downto1 (Z.of_nat (List.length l))) (y :: l)
                = Some (smooth_rec (y :: l))).
  { cbn [List.length] in Hsize.
    rewrite <- IH; [|discriminate|cbn [List.length]; lia].
    cbn [List.length]. rewrite wrap64_small by lia. f_equal. f_equal. lia. }
  rewrite IH'. cbn [option_map smooth_loop].
  pose proof (length_smooth_rec (y :: l)) as Hlen.
  cbn [smooth_rec] in *.
  destruct (match smooth_rec l with [] => [y] | y0 :: _ => _ end) as [|z s] eqn:E;
    [cbn in Hlen; lia|].
  reflexivity.
Qed.

Lemma totals_length (measured : measurements) (spots : list Z) (sums : list duration) :
  totals measured spots = Some sums -> List.length sums = List.length spots.
Proof.
  revert sums. induction spots as [|s spots IH]; intros sums H; simpl in H.
  - now inversion H.
  - destruct (sum (measured s)); [|discriminate].
    destruct (totals measured spots) as [ts|]; [|discriminate].
    inversion H. simpl. now rewrite (IH ts).
Qed.

Lemma totals_nth (measured : measurements) (spots : list Z) (sums : list duration) (i : nat) :
  totals measured spots = Some sums -> (i < List.length spots)%nat ->
  sum (measured (nth i spots 0)) = Some (nth i sums 0%float).
Proof.
  revert sums i. induction spots as [|s spots IH]; intros sums i H Hi; simpl in *; [lia|].
  destruct (sum (measured s)) as [t|] eqn:Et; [|discriminate].
  destruct (totals measured spots) as [ts|]; [|discriminate].
  inversion H; subst. destruct i as [|i]; [exact Et|].
  simpl. apply IH; [reflexivity | lia].
Qed.

Lemma totals_defined (measured : measurements) (spots : list Z) :
  (forall s, In s spots -> measured s <> []) ->
  exists sums, totals measured spots = Some sums.
Proof.
  induction spots as [|s spots IH]; intros H; simpl; [now exists []|].
  destruct IH as [ts Hts]; [intros k Hk; apply H; now right|].
  rewrite Hts. specialize (H s (or_introl eq_refl)).
  unfold sum. destruct (measured s); [contradiction|]. eauto.
Qed.

Lemma jump_loop_spec (measured : measurements) (spots : list Z) (sums : list duration)
      (idx : list nat) :
  totals measured spots = Some sums ->
  Forall (fun i => (S i < List.length spots)%nat) idx ->
  jump_loop measured spots (smooth_rec sums) (map Z.of_nat idx) =
    Some match find (fun i => jump_test (nth i sums 0%float) (nth (S i) sums 0%float)
                                        (nth (S i) (smooth_rec sums) 0%float)) idx with
         | Some i => nth i spots 0
         | None => 0
         end.
Proof.
  intros Ht H. induction H as [|i idx Hi Hidx IH]; [reflexivity|].
  cbn [map jump_loop find].
  replace (Z.of_nat i + 1) with (Z.of_nat (S i)) by lia.
  rewrite !at_nat.
  rewrite (nth_error_nth' spots 0) by lia.
  rewrite (totals_nth _ _ _ _ Ht) by lia.
  rewrite (nth_error_nth' spots 0) by lia.
  rewrite (totals_nth _ _ _ _ Ht) by lia.
  rewrite (nth_error_nth' (smooth_rec sums) 0%float).
  2:{ rewrite length_smooth_rec, (totals_length _ _ _ Ht). lia. }
  destruct (jump_test _ _ _); [reflexivity | exact IH].
Qed.

(** Everything [find_jump] does after measuring. *)
Lemma find_jump_scan_spec (measured : measurements) (spots : list Z) (sums : list duration) :
  spots <> [] -> vec_size spots < 2 ^ 64 ->
  totals measured spots = Some sums ->
  find_jump_scan measured spots = Some (first_jump spots sums).
Proof.
  intros Hne Hsize Ht. unfold find_jump_scan. rewrite Ht.
  pose proof (totals_length _ _ _ Ht) as Hlen.
  rewrite smooth_spec.
  2:{ intros ->. destruct spots; [contradiction | discriminate]. }
  2:{ unfold vec_size in *. now rewrite Hlen. }
  unfold vec_size in *.
  assert (Hpos : (0 < List.length spots)%nat) by (destruct spots; [contradiction | simpl; lia]).
  rewrite wrap64_small by lia.
  unfold upto.
  replace (Z.to_nat (Z.of_nat (List.length spots) - 1)) with (List.length spots - 1)%nat by lia.
  apply jump_loop_spec; [assumption|].
  apply Forall_forall. intros i Hi. apply in_seq in Hi. lia.
Qed.

Lemma find_first (f : nat -> bool) (n i : nat) :
  (i < n)%nat -> f i = true -> (forall j, (j < i)%nat -> f j = false) ->
  find f (seq 0 n) = Some i.
Proof.
  intros Hi Hf Hbefore.
  assert (G : forall k start, (start <= i < start + k)%nat -> find f (seq start k) = Some i).
  { induction k as [|k IH]; intros start Hs; [lia|].
    cbn [seq find]. destruct (Nat.eq_dec start i) as [->|Hne].
    - now rewrite Hf.
    - rewrite Hbefore by lia. apply IH. lia. }
  apply G. lia.
Qed.

Lemma find_nothing {A : Type} (f : A -> bool) (l : list A) :
  (forall x, In x l -> f x = false) -> find f l = None.
Proof.
  induction l as [|x l IH]; intros H; [reflexivity|]. simpl.
  rewrite (H x) by now left. apply IH. intros y Hy. apply H. now right.
Qed.

Lemma smooth_rec_nonempty (l : list duration) : l <> [] -> smooth_rec l <> [].
Proof.
  intros H E. apply (f_equal (@List.length _)) in E.
  rewrite length_smooth_rec in E. destruct l; [contradiction | discriminate].
Qed.

Lemma smooth_rec_cons (x : duration) (l : list duration) :
  l <> [] ->
  smooth_rec (x :: l) =
    (x * alpha + nth 0 (smooth_rec l) 0 * (1 - alpha))%float :: smooth_rec l.
Proof.
  intros H. cbn [smooth_rec].
  destruct (smooth_rec l) eqn:E; [now apply smooth_rec_nonempty in E|]. reflexivity.
Qed.

Lemma smooth_rec_suffix (l1 l2 : list duration) (j : nat) :
  l2 <> [] ->
  nth (List.length l1 + j) (smooth_rec (l1 ++ l2)) 0%float = nth j (smooth_rec l2) 0%float.
Proof.
  intros H. induction l1 as [|x l1 IH]; [reflexivity|].
  cbn [app List.length]. rewrite smooth_rec_cons.
  - exact IH.
  - destruct l1; [assumption | discriminate].
Qed.

Lemma smooth_rec_repeat (u : duration) (m : nat) :
  (u * alpha + u * (1 - alpha))%float = u -> smooth_rec (repeat u m) = repeat u m.
Proof.
  intros H. induction m as [|m IH]; [reflexivity|].
  destruct m as [|m]; [reflexivity|].
  cbn [repeat] in *. rewrite smooth_rec_cons by discriminate.
  rewrite IH. cbn [nth]. now rewrite H.
Qed.

Lemma smooth_rec_nth (sums : list duration) (i : nat) :
  (S i < List.length sums)%nat ->
  nth i (smooth_rec sums) 0%float =
    (nth i sums 0 * 0.5 + nth (S i) (smooth_rec sums) 0 * 0.5)%float.
Proof.
  revert i. induction sums as [|x l IH]; intros i Hi; [simpl in Hi; lia|].
  assert (Hl : l <> []) by (intros ->; simpl in Hi; lia).
  rewrite smooth_rec_cons by assumption.
  destruct i as [|i]; [reflexivity|].
  cbn [nth]. apply IH. simpl in Hi. lia.
Qed.

Lemma smooth_rec_last (sums : list duration) :
  nth (List.length sums - 1) (smooth_rec sums) 0%float =
  nth (List.length sums - 1) sums 0%float.
Proof.
  induction sums as [|x l IH]; [reflexivity|].
  destruct l as [|y l]; [reflexivity|].
  rewrite smooth_rec_cons by discriminate.
  cbn [List.length] in *. replace (S (S (List.length l)) - 1)%nat with (S (List.length l)) by lia.
  cbn [nth]. replace (S (List.length l) - 1)%nat with (List.length l) in IH by lia.
  exact IH.
Qed.

(** The position [first_jump] stops at is the first that passes the test. *)
Lemma first_jump_first (spots : list Z) (sums : list duration) :
  let passes i :=
    ((1.045 <=? nth (S i) sums 0 / nth i sums 0) &&
     (1.12 <=? nth (S i) (smooth_rec sums) 0 / nth i sums 0))%float in
  (exists i, (S i < List.length spots)%nat /\ first_jump spots sums = nth i spots 0 /\
             passes i = true /\ forall j, (j < i)%nat -> passes j = false) \/
  (first_jump spots sums = 0 /\
   forall i, (S i < List.length spots)%nat -> passes i = false).
Proof.
  intros passes. unfold first_jump.
  change (fun i => jump_test (nth i sums 0%float) (nth (S i) sums 0%float)
                             (nth (S i) (smooth_rec sums) 0%float)) with passes.
  destruct (find passes (seq 0 (List.length spots - 1))) as [i|] eqn:E.
  - left. exists i. pose proof (find_some _ _ E) as [Hin Hp].
    apply in_seq in Hin. repeat split; [lia | assumption |].
    assert (G : forall k start, find passes (seq start k) = Some i ->
                forall j, (start <= j < i)%nat -> passes j = false).
    { induction k as [|k IH]; intros start Hf j Hj; [discriminate|].
      cbn [seq find] in Hf. destruct (passes start) eqn:Es.
      - inversion Hf. lia.
      - destruct (Nat.eq_dec j start) as [->|Hne]; [assumption|].
        apply (IH (S start)); [assumption | lia]. }
    intros j Hj. apply (G _ _ E). lia.
  - right. split; [reflexivity|]. intros i Hi.
    apply (find_none _ _ E). apply in_seq. lia.
Qed.

Lemma first_jump_step (spots : list Z) (b u : duration) (k m : nat) :
  (1 <= k)%nat -> (1 <= m)%nat -> List.length spots = (k + m)%nat ->
  (1.045 <=? b / b)%float = false ->
  jump_test b u u = true ->
  (u * alpha + u * (1 - alpha))%float = u ->
  first_jump spots (repeat b k ++ repeat u m) = nth (k - 1) spots 0.
Proof.
  intros Hk Hm Hlen Hflat Hup Hsm. unfold first_jump.
  assert (Hu : repeat u m <> []) by (destruct m; [lia | discriminate]).
  rewrite (find_first _ _ (k - 1)); [reflexivity | lia | |].
  - replace (S (k - 1)) with k by lia.
    pose proof (smooth_rec_suffix (repeat b k) (repeat u m) 0) as Hs.
    pose proof (app_nth2_plus (repeat b k) (repeat u m) 0%float 0) as Hn.
    rewrite repeat_length, Nat.add_0_r in Hs, Hn. rewrite Hs, Hn by assumption.
    rewrite app_nth1 by (rewrite repeat_length; lia).
    rewrite nth_repeat_lt by lia.
    rewrite smooth_rec_repeat by assumption.
    rewrite nth_repeat_lt by lia. exact Hup.
  - intros j Hj.
    rewrite !app_nth1 by (rewrite repeat_length; lia).
    rewrite !nth_repeat_lt by lia.
    unfold jump_test. now rewrite Hflat.
Qed.

Lemma first_jump_spike (spots : list Z) (b h : duration) (k m : nat) :
  (1 <= m)%nat -> List.length spots = (k + S m)%nat ->
  (1.045 <=? b / b)%float = false ->
  (b * alpha + b * (1 - alpha))%float = b ->
  jump_test b h (h * alpha + b * (1 - alpha))%float = false ->
  (1.045 <=? b / h)%float = false ->
  first_jump spots (repeat b k ++ h :: repeat b m) = 0.
Proof.
  intros Hm Hlen Hflat Hsm Hspike Hdown. unfold first_jump.
  rewrite find_nothing; [reflexivity|].
  intros i Hi. apply in_seq in Hi.
  assert (Hb : repeat b m <> []) by (destruct m; [lia | discriminate]).
  assert (Htail : forall j, (k < j < k + S m)%nat ->
            nth j (repeat b k ++ h :: repeat b m) 0%float = b).
  { intros j Hj. rewrite app_nth2 by (rewrite repeat_length; lia).
    rewrite repeat_length. destruct (j - k)%nat as [|d] eqn:E; [lia|].
    cbn [nth]. apply nth_repeat_lt. lia. }
  assert (Hhead : forall j, (j < k)%nat ->
            nth j (repeat b k ++ h :: repeat b m) 0%float = b).
  { intros j Hj. rewrite app_nth1 by (rewrite repeat_length; lia).
    apply nth_repeat_lt. lia. }
  assert (Hmid : nth k (repeat b k ++ h :: repeat b m) 0%float = h).
  { rewrite <- (repeat_length b k) at 1. apply nth_middle. }
  destruct (Nat.lt_trichotomy (S i) k) as [Hlt|[Heq|Hgt]].
  - rewrite !Hhead by lia. unfold jump_test. now rewrite Hflat.
  - rewrite Hhead by lia. rewrite Heq, Hmid.
    pose proof (smooth_rec_suffix (repeat b k) (h :: repeat b m) 0) as Hs.
    rewrite repeat_length, Nat.add_0_r in Hs. rewrite Hs by discriminate.
    rewrite smooth_rec_cons, smooth_rec_repeat by assumption.
    cbn [nth]. rewrite nth_repeat_lt by lia. exact Hspike.
  - destruct (Nat.eq_dec i k) as [->|Hne].
    + rewrite Hmid, Htail by lia. unfold jump_test. now rewrite Hdown.
    + rewrite !Htail by lia. unfold jump_test. now rewrite Hflat.
Qed.

(** ** What [measure] returns *)

Lemma for_fold_cons_inv {S : Type} (i : Z) (l : list Z) (body : Z -> S -> M S)
      (s s' : S) (w w' : world) :
  for_fold (i :: l) body s w = Some (s', w') ->
  exists s1 w1, body i s w = Some (s1, w1) /\ for_fold l body s1 w1 = Some (s', w').
Proof. intros H. simpl in H. now apply bind_inv in H. Qed.

Lemma trial_inv (stride : Z) (method : Z -> Z -> M duration) (i spots : Z)
      (r r' : measurements) (w w' : world) :
  trial stride method i spots r w = Some (r', w') ->
  exists d, r' = push_back r spots d.
Proof.
  unfold trial. intros H.
  apply bind_inv in H. destruct H as (? & w1 & _ & H).
  apply bind_inv in H. destruct H as (d & w2 & _ & H).
  inversion H. now exists d.
Qed.

Lemma push_back_nonempty (r : measurements) (spots : Z) (d : duration) (k : Z) :
  r k <> [] \/ k = spots -> push_back r spots d k <> [].
Proof.
  intros H. unfold push_back. destruct (k =? spots) eqn:E.
  - destruct (r spots); discriminate.
  - apply Z.eqb_neq in E. destruct H; [assumption | contradiction].
Qed.

Lemma trials_nonempty (stride : Z) (method : Z -> Z -> M duration) (i : Z)
      (all_spots : list Z) (r r' : measurements) (w w' : world) :
  for_fold all_spots (trial stride method i) r w = Some (r', w') ->
  forall k, r k <> [] \/ In k all_spots -> r' k <> [].
Proof.
  revert r w. induction all_spots as [|s l IH]; intros r w H k Hk.
  - inversion H; subst. destruct Hk; [assumption | contradiction].
  - apply for_fold_cons_inv in H. destruct H as (r1 & w1 & Ht & Hrest).
    apply trial_inv in Ht. destruct Ht as [d ->].
    apply (IH _ _ Hrest).
    destruct Hk as [Hk|[Hk|Hk]]; [left | left | now right];
      apply push_back_nonempty; auto.
Qed.

Lemma measure_nonempty (stride : Z) (method : Z -> Z -> M duration)
      (all_spots : list Z) (measured : measurements) (w w' : world) :
  measure stride all_spots method w = Some (measured, w') ->
  forall k, In k all_spots -> measured k <> [].
Proof.
  unfold measure.
  assert (G : forall idx r w0,
            for_fold idx (fun i => for_fold all_spots (trial stride method i)) r w0
              = Some (measured, w') ->
            forall k, r k <> [] -> measured k <> []).
  { induction idx as [|i idx IH]; intros r w0 H k Hk.
    - now inversion H; subst.
    - apply for_fold_cons_inv in H. destruct H as (r1 & w1 & Hi & Hrest).
      apply (IH _ _ Hrest). apply (trials_nonempty _ _ _ _ _ _ _ _ Hi). now left. }
  intros H k Hk. change (upto iterations) with (0 :: map Z.of_nat (seq 1 8)) in H.
  apply for_fold_cons_inv in H. destruct H as (r1 & w1 & Hi & Hrest).
  apply (G _ _ _ Hrest). apply (trials_nonempty _ _ _ _ _ _ _ _ Hi). now right.
Qed.

(** C1, as the code has it.  After measuring, [find_jump] has the total of
    the samples of every spots value; the smoothed suffix is the last total
    at the end and [total[i] * 0.5 + smoothed[i+1] * 0.5] before; the result
    is the spots value at the first position whose successor's total is at
    least 1.045 times and whose successor's smoothed value is at least 1.12
    times its own total (as quotients), and 0 when there is none.  On totals
    flat at [b] that step up to [u] and stay there it returns the spots
    value before the step; on totals flat at [b] with one spike [h] whose
    smoothed value [h * 0.5 + b * 0.5] stays below 1.12 times [b] it returns
    0. *)
Theorem find_jump_first_sustained_step
        (a_begin stride : Z) (search_spots : list Z) (measured : measurements)
        (w w' : world) :
  search_spots <> [] -> vec_size search_spots < 2 ^ 64 ->
  measure stride search_spots (measure_shuffled a_begin) w = Some (measured, w') ->
  exists sums,
    totals measured search_spots = Some sums /\
    (forall i, (i < List.length search_spots)%nat ->
       sum (measured (nth i search_spots 0)) = Some (nth i sums 0%float)) /\
    smooth sums = Some (smooth_rec sums) /\
    nth (List.length sums - 1) (smooth_rec sums) 0%float
      = nth (List.length sums - 1) sums 0%float /\
    (forall i, (S i < List.length sums)%nat ->
       nth i (smooth_rec sums) 0%float
         = (nth i sums 0 * 0.5 + nth (S i) (smooth_rec sums) 0 * 0.5)%float) /\
    find_jump a_begin stride search_spots w = Some (first_jump search_spots sums, w') /\
    (let passes i :=
       ((1.045 <=? nth (S i) sums 0 / nth i sums 0) &&
        (1.12 <=? nth (S i) (smooth_rec sums) 0 / nth i sums 0))%float in
     (exists i, (S i < List.length search_spots)%nat /\
                first_jump search_spots sums = nth i search_spots 0 /\
                passes i = true /\ forall j, (j < i)%nat -> passes j = false) \/
     (first_jump search_spots sums = 0 /\
      forall i, (S i < List.length search_spots)%nat -> passes i = false)) /\
    (forall (b u : duration) (k m : nat),
       (1 <= k)%nat -> (1 <= m)%nat ->
       sums = repeat b k ++ repeat u m ->
       (1.045 <=? b / b)%float = false ->
       ((1.045 <=? u / b) && (1.12 <=? u / b))%float = true ->
       (u * 0.5 + u * 0.5)%float = u ->
       first_jump search_spots sums = nth (k - 1) search_spots 0) /\
    (forall (b h : duration) (k m : nat),
       (1 <= m)%nat ->
       sums = repeat b k ++ h :: repeat b m ->
       (1.045 <=? b / b)%float = false ->
       (b * 0.5 + b * 0.5)%float = b ->
       ((1.045 <=? h / b) && (1.12 <=? (h * 0.5 + b * 0.5) / b))%float = false ->
       (1.045 <=? b / h)%float = false ->
       first_jump search_spots sums = 0).
Proof.
  intros Hne Hsize Hrun.
  destruct (totals_defined measured search_spots) as [sums Ht].
  { intros s Hs. eapply measure_nonempty; eauto. }
  pose proof (totals_length _ _ _ Ht) as Hlen.
  exists sums. split; [exact Ht|].
  split; [intros i Hi; now apply totals_nth|].
  split.
  { apply smooth_spec.
    - intros ->. destruct search_spots; [contradiction | discriminate].
    - unfold vec_size in *. now rewrite Hlen. }
  split; [apply smooth_rec_last|].
  split; [apply smooth_rec_nth|].
  split.
  { unfold find_jump. rewrite (bind_some _ _ _ _ _ Hrun).
    unfold lift. now rewrite (find_jump_scan_spec _ _ _ Hne Hsize Ht). }
  split; [apply first_jump_first|].
  split.
  - intros b u k m Hk Hm -> Hflat Hup Hsm.
    rewrite length_app, !repeat_length in Hlen.
    now apply first_jump_step.
  - intros b h k m Hm -> Hflat Hsm Hspike Hdown.
    rewrite length_app in Hlen. cbn [List.length] in Hlen.
    rewrite !repeat_length in Hlen.
    now apply first_jump_spike.
Qed.

Lemma find_jump_first_sustained_step_witness :
  exists w', find_jump 4096 2 [1; 2; 3; 4] (world_with_clock step_samples) = Some (2, w').
Proof.
  set (w := world_with_clock step_samples).
  set (r := measure 2 [1; 2; 3; 4] (measure_shuffled 4096) w).
  set (measured := match r with Some (m, _) => m | None => no_measurements end).
  set (w' := match r with Some (_, w1) => w1 | None => w end).
  assert (Hrun : measure 2 [1; 2; 3; 4] (measure_shuffled 4096) w = Some (measured, w')).
  { vm_compute. reflexivity. }
  destruct (find_jump_first_sustained_step 4096 2 [1; 2; 3; 4] measured w w')
    as (sums & Ht & _ & _ & _ & _ & Hjump & _ & Hstep & _).
  - discriminate.
  - reflexivity.
  - exact Hrun.
  - exists w'. rewrite Hjump. f_equal. f_equal.
    assert (Hsums : sums = repeat 1.0%float 2 ++ repeat 1.2%float 2).
    { vm_compute in Ht. now inversion Ht. }
    apply (Hstep 1.0%float 1.2%float 2%nat 2%nat); try reflexivity; try lia.
    exact Hsums.
Defined.

(** [find_jump] triggers on that curve: it returns the spots value before
    the spike. *)
Lemma find_jump_triggers_on_a_spike :
  exists measured w1 w',
    measure 2 [1; 2; 3; 4; 5] (measure_shuffled 4096) (world_with_clock spike_samples)
      = Some (measured, w1) /\
    totals measured [1; 2; 3; 4; 5] = Some spike_samples /\
    find_jump 4096 2 [1; 2; 3; 4; 5] (world_with_clock spike_samples) = Some (2, w') /\
    2 <> 0.
Proof.
  set (w := world_with_clock spike_samples).
  set (r := measure 2 [1; 2; 3; 4; 5] (measure_shuffled 4096) w).
  exists (match r with Some (m, _) => m | None => no_measurements end).
  exists (match r with Some (_, w1) => w1 | None => w end).
  exists (match r with Some (_, w1) => w1 | None => w end).
  split; [vm_compute; reflexivity|].
  split; [vm_compute; reflexivity|].
  split; [vm_compute; reflexivity | discriminate].
Qed.

(** ** [median] *)

Lemma insert_sorted_perm (x : duration) (l : list duration) :
  Permutation (insert_sorted x l) (x :: l).
Proof.
  induction l as [|y l IH]; simpl; [reflexivity|].
  destruct (x <? y)%float; [reflexivity|].
  rewrite IH. apply perm_swap.
Qed.

Lemma sort_perm (l : list duration) : Permutation (sort l) l.
Proof.
  induction l as [|x l IH]; simpl; [reflexivity|].
  rewrite insert_sorted_perm. now apply perm_skip.
Qed.

Lemma insert_sorted_hd (x y : duration) (l : list duration) :
  not_after y x -> HdRel not_after y l -> HdRel not_after y (insert_sorted x l).
Proof.
  intros Hx Hl. destruct l as [|z l]; simpl; [now constructor|].
  destruct (x <? z)%float; constructor; [assumption|]. now inversion Hl.
Qed.

Lemma insert_sorted_sorted (x : duration) (l : list duration) :
  Sorted not_after l -> Sorted not_after (insert_sorted x l).
Proof.
  induction l as [|y l IH]; intros H; simpl.
  - repeat constructor.
  - inversion H as [|? ? Hl Hy]; subst.
    destruct (x <? y)%float eqn:E.
    + constructor; [assumption|]. constructor. unfold not_after. now apply ltb_asym.
    + constructor; [now apply IH|]. now apply insert_sorted_hd.
Qed.

Lemma sort_sorted (l : list duration) : Sorted not_after (sort l).
Proof.
  induction l as [|x l IH]; simpl; [constructor|]. now apply insert_sorted_sorted.
Qed.

(** ** The scan of [find_cache_line_size] *)

Lemma bind_ext {A B : Type} (m : M A) (f g : A -> M B) (w : world) :
  (forall x w', f x w' = g x w') -> bind m f w = bind m g w.
Proof. intros H. unfold bind. destruct (m w) as [[x w']|]; [apply H | reflexivity]. Qed.

Lemma sweep_step (a_begin : Z) (fuel : nat) (stride : Z) (strides : list Z)
      (results : list duration) (w : world) :
  (stride <=? max_stride) = true ->
  (forall results' w', sweep a_begin fuel (wrap64 (stride * 2)) results' w'
                       = sweep_over a_begin strides results' w') ->
  sweep a_begin (S fuel) stride results w = sweep_over a_begin (stride :: strides) results w.
Proof.
  intros Hle Hnext. cbn [sweep sweep_over]. rewrite Hle.
  apply bind_ext. intros spots w1. apply bind_ext. intros measured w2.
  apply bind_ext. intros result w3. apply Hnext.
Qed.

Lemma sweep_strides (a_begin : Z) (w : world) :
  sweep a_begin (Z.to_nat max_stride) min_stride [] w =
  sweep_over a_begin [2; 4; 8; 16; 32; 64; 128] [] w.
Proof.
  change (Z.to_nat max_stride) with (7 + (1 + 120))%nat. cbn [Nat.add].
  revert w. generalize (@nil float).
  do 7 (let r := fresh "r" in let w := fresh "w" in
        intros r w; apply sweep_step; [reflexivity|]; clear r w).
  intros r w. reflexivity.
Qed.

Lemma speedup_step_spec (results : list duration) (acc : Z * float) (j : nat) :
  (1 <= j < List.length results)%nat ->
  speedup_step results acc (Z.of_nat j) =
    Some (if (snd acc <=? ratio results j)%float
          then (half_stride j, ratio results j) else acc).
Proof.
  intros Hj. unfold speedup_step.
  replace (Z.of_nat j - 1) with (Z.of_nat (j - 1)) by lia.
  rewrite !at_nat.
  rewrite (nth_error_nth' results 0%float) by lia.
  rewrite (nth_error_nth' results 0%float) by lia.
  fold (ratio results j). fold (half_stride j).
  now destruct (snd acc <=? ratio results j)%float.
Qed.

Lemma scan_invariant_step (results : list duration) (acc : Z * float) (j : nat) :
  (1 <= j)%nat ->
  scan_invariant results j acc ->
  scan_invariant results (S j)
    (if (snd acc <=? ratio results j)%float then (half_stride j, ratio results j) else acc).
Proof.
  intros Hj (Hone & Hmax & Hwhich).
  destruct (snd acc <=? ratio results j)%float eqn:E.
  - split; [|split].
    + cbn [snd]. eapply leb_trans; eauto.
    + intros t Ht. cbn [snd].
      destruct (Nat.eq_dec t j) as [->|Hne]; [apply ltb_irrefl|].
      destruct (ratio results j <? ratio results t)%float eqn:E'; [|reflexivity].
      rewrite <- (Hmax t) by lia. symmetry. eapply leb_ltb_trans; eauto.
    + right. exists j. split; [lia|]. split; [reflexivity|]. intros t Ht. lia.
  - split; [assumption|]. split.
    + intros t Ht. destruct (Nat.eq_dec t j) as [->|Hne]; [|apply Hmax; lia].
      destruct (snd acc <? ratio results j)%float eqn:E'; [|reflexivity].
      apply ltb_leb in E'. congruence.
    + destruct Hwhich as [[-> Hnone]|(i & Hi & -> & Hlater)].
      * left. split; [reflexivity|]. intros t Ht.
        destruct (Nat.eq_dec t j) as [->|Hne]; [exact E | apply Hnone; lia].
      * right. exists i. split; [lia|]. split; [reflexivity|]. intros t Ht.
        destruct (Nat.eq_dec t j) as [->|Hne]; [exact E | apply Hlater; lia].
Qed.

Lemma speedup_loop_spec (results : list duration) (k j : nat) (acc : Z * float) :
  (1 <= j)%nat -> (j + k <= List.length results)%nat ->
  scan_invariant results j acc ->
  exists acc', speedup_loop results acc (map Z.of_nat (seq j k)) = Some acc' /\
               scan_invariant results (j + k) acc'.
Proof.
  revert j acc. induction k as [|k IH]; intros j acc Hj Hlen Hinv.
  - exists acc. split; [reflexivity|]. now rewrite Nat.add_0_r.
  - cbn [seq map speedup_loop]. rewrite speedup_step_spec by lia.
    destruct (IH (S j) _ ltac:(lia) ltac:(lia) (scan_invariant_step _ _ _ Hj Hinv))
      as (acc' & Hrun & Hinv').
    exists acc'. split; [exact Hrun|]. now rewrite Nat.add_succ_r.
Qed.

Lemma cache_line_scan_spec (results : list duration) :
  exists c, cache_line_scan results = Some c /\
    ((c = 1 /\
      forall t, (1 <= t < List.length results)%nat ->
                (1.0 <=? ratio results t)%float = false) \/
     (exists i, (1 <= i < List.length results)%nat /\ c = half_stride i /\
        (1.0 <=? ratio results i)%float = true /\
        (forall t, (1 <= t < List.length results)%nat ->
                   (ratio results i <? ratio results t)%float = false) /\
        (forall t, (i < t < List.length results)%nat ->
                   (ratio results i <=? ratio results t)%float = false))).
Proof.
  unfold cache_line_scan.
  assert (Hidx : map (Z.add 1) (upto (vec_size results - 1))
                 = map Z.of_nat (seq 1 (List.length results - 1))).
  { unfold upto, vec_size.
    replace (Z.to_nat (Z.of_nat (List.length results) - 1))
      with (List.length results - 1)%nat by lia.
    rewrite <- seq_shift, !map_map. apply map_ext. intros t. lia. }
  rewrite Hidx.
  destruct results as [|x results].
  - exists 1. split; [reflexivity|]. left. split; [reflexivity|].
    intros t Ht. simpl in Ht. lia.
  - destruct (speedup_loop_spec (x :: results) (List.length (x :: results) - 1) 1
                (1, 1.0%float)) as (acc & Hrun & Hone & Hmax & Hwhich).
    + lia.
    + simpl. lia.
    + split; [reflexivity|]. split; [intros t Ht; lia|].
      left. split; [reflexivity|]. intros t Ht. lia.
    + rewrite Hrun. exists (fst acc). split; [reflexivity|].
      replace (1 + (List.length (x :: results) - 1))%nat
        with (List.length (x :: results)) in * by (simpl; lia).
      destruct Hwhich as [[-> Hnone]|(i & Hi & -> & Hlater)].
      * left. split; [reflexivity | exact Hnone].
      * right. exists i. repeat split; try assumption; lia.
Qed.

(** C4, as the code has it.  [find_cache_line_size] sweeps the strides 2,
    4, ..., 128, [results[i]] being the median for the stride [2 << i]; the
    median is the element in the middle of the sorted samples; the scan
    returns 1 when no ratio [results[i] / results[i-1]] reaches 1.0, and
    otherwise half of the stride of the last position [i] whose ratio is at
    least 1.0 and is not exceeded by any other ratio; for the medians 10,
    10, 10, 40, 40 it returns 8. *)
Theorem find_cache_line_size_scan (a_begin : Z) :
  (forall w,
     find_cache_line_size a_begin w =
     (results <- sweep_over a_begin [2; 4; 8; 16; 32; 64; 128] [] ;;
      lift (cache_line_scan results)) w) /\
  (forall i, (i < 7)%nat ->
     wrap64 (Z.shiftl min_stride (Z.of_nat i)) = nth i [2; 4; 8; 16; 32; 64; 128] 0 /\
     half_stride i = nth i [2; 4; 8; 16; 32; 64; 128] 0 / 2) /\
  (forall container,
     median container = nth_error (sort container) (List.length container / 2) /\
     Permutation (sort container) container /\
     Sorted not_after (sort container)) /\
  (forall results,
     exists c, cache_line_scan results = Some c /\
       ((c = 1 /\
         forall t, (1 <= t < List.length results)%nat ->
                   (1.0 <=? ratio results t)%float = false) \/
        (exists i, (1 <= i < List.length results)%nat /\ c = half_stride i /\
           (1.0 <=? ratio results i)%float = true /\
           (forall t, (1 <= t < List.length results)%nat ->
                      (ratio results i <? ratio results t)%float = false) /\
           (forall t, (i < t < List.length results)%nat ->
                      (ratio results i <=? ratio results t)%float = false)))) /\
  cache_line_scan [10; 10; 10; 40; 40]%float = Some 8.
Proof.
  split.
  { intros w. unfold find_cache_line_size, bind.
    now rewrite sweep_strides. }
  split.
  { intros i Hi. unfold half_stride.
    do 7 (destruct i as [|i]; [split; reflexivity|]). lia. }
  split.
  { intros container. split; [|split; [apply sort_perm | apply sort_sorted]].
    unfold median. f_equal.
    rewrite <- (Nat2Z.id (List.length container / 2)).
    f_equal. now rewrite Nat2Z.inj_div. }
  split; [apply cache_line_scan_spec | reflexivity].
Qed.

(** On [falling_medians] the greatest ratio, 15 / 20, is that of the stride
    8, whose half is 4; the scan returns 1. *)
Lemma cache_line_scan_falling_medians :
  cache_line_scan falling_medians = Some 1 /\
  (ratio falling_medians 1 <? ratio falling_medians 2)%float = true /\
  (ratio falling_medians 3 <? ratio falling_medians 2)%float = true /\
  (ratio falling_medians 4 <? ratio falling_medians 2)%float = true /\
  half_stride 2 = 4.
Proof. repeat split; reflexivity. Qed.

(** ** The distances of [find_rest_spots] *)

Lemma sum_total (measured : measurements) (spots : Z) :
  measured spots <> [] -> sum (measured spots) = Some (total measured spots).
Proof.
  intros H. unfold total, sum. destruct (measured spots); [contradiction | reflexivity].
Qed.

Lemma distances_from_spec (cbrt : float -> float) (prev_measured new_measured : measurements)
      (all_spots : list Z) (acc : float * float) :
  (forall s, In s all_spots ->
     prev_measured s <> [] /\ new_measured s <> [] /\ new_measured (half_key s) <> []) ->
  distances_from cbrt prev_measured new_measured acc all_spots =
    Some (fold_left (fun d s =>
                       d + cbrt (abs (full_difference prev_measured new_measured s)))%float
                    all_spots (fst acc),
          fold_left (fun d s =>
                       d + cbrt (abs (half_difference prev_measured new_measured s)))%float
                    all_spots (snd acc)).
Proof.
  revert acc. induction all_spots as [|s l IH]; intros acc H.
  - destruct acc; reflexivity.
  - destruct (H s (or_introl eq_refl)) as (Hp & Hn & Hh).
    cbn [distances_from fold_left]. unfold distance_step.
    rewrite !sum_total by assumption.
    rewrite IH by (intros k Hk; apply H; now right). reflexivity.
Qed.

Lemma half_key_rounds_up (s : Z) :
  uint64 s ->
  half_key s = (s + 1) / 2 /\
  (1 <= s -> 1 <= half_key s) /\
  (s mod 2 = 0 -> half_key s = s / 2) /\
  (s mod 2 = 1 -> half_key s = s / 2 + 1).
Proof.
  intros [H0 H1]. unfold half_key.
  pose proof (Z.mod_pos_bound s 2 ltac:(lia)) as Hm.
  pose proof (Z.div_mod s 2 ltac:(lia)) as Hd.
  rewrite wrap64_small by lia.
  pose proof (Z.mod_pos_bound (s + 1) 2 ltac:(lia)) as Hm'.
  pose proof (Z.div_mod (s + 1) 2 ltac:(lia)) as Hd'.
  repeat split; lia.
Qed.

Lemma in_set_insert (x y : Z) (s : list Z) : In x (set_insert y s) <-> x = y \/ In x s.
Proof.
  induction s as [|z s IH]; simpl; [intuition|].
  destruct (y <? z) eqn:E1; [simpl; intuition|].
  destruct (y =? z) eqn:E2.
  - apply Z.eqb_eq in E2. subst. simpl. intuition.
  - simpl. rewrite IH. intuition.
Qed.

(** The spots values measured at the doubled stride: those of the sequence
    and, for each one above 1, its half rounded down. *)
Lemma in_with_halves (all_spots : list Z) (x : Z) :
  In x (with_halves all_spots) <->
  In x all_spots \/ exists s, In s all_spots /\ 1 < s /\ x = s / 2.
Proof.
  unfold with_halves.
  assert (G : forall l acc,
    In x (fold_left (fun new_spots spots =>
                       let new_spots := set_insert spots new_spots in
                       if spots >? 1 then set_insert (spots / 2) new_spots else new_spots)
                    l acc) <->
    In x acc \/ In x l \/ exists s, In s l /\ 1 < s /\ x = s / 2).
  { induction l as [|s l IH]; intros acc; cbn [fold_left].
    - split; [auto|]. intros [H|[[]|(s & [] & _)]]. exact H.
    - rewrite IH. cbn zeta. destruct (s >? 1) eqn:E.
      + rewrite !in_set_insert. apply Z.gtb_lt in E. split.
        * intros [[->|[->|H]]|[H|(s' & Hs' & H)]].
          -- right. right. exists s. simpl. auto.
          -- right. left. now left.
          -- now left.
          -- right. left. now right.
          -- right. right. exists s'. simpl. tauto.
        * intros [H|[[<-|H]|(s' & [<-|Hs'] & H1 & ->)]]; eauto 8.
      + rewrite in_set_insert.
        assert (s <= 1) by (rewrite Z.gtb_ltb in E; apply Z.ltb_ge in E; lia).
        split.
        * intros [[->|H']|[H'|(s' & Hs' & H')]].
          -- right. left. now left.
          -- now left.
          -- right. left. now right.
          -- right. right. exists s'. simpl. tauto.
        * intros [H'|[[<-|H']|(s' & [<-|Hs'] & H1 & ->)]]; eauto 8. lia. }
  rewrite G. simpl. tauto.
Qed.

(** C2, as the code has it: the half distance of a spots value [s] is the
    cube root of the absolute difference between the total measured for [s]
    at the previous stride and the total measured at the new stride for
    [s / 2 + s % 2], which is [s] halved and rounded up (the halves that
    are measured besides the sequence itself are rounded down); the loop
    sums these cube roots, and those of the full distance, over the spots
    values of the original sequence, and then compares the two sums. *)
Theorem half_distance_rounds_up
        (cbrt : float -> float) (prev_measured new_measured : measurements)
        (all_spots : list Z) :
  (forall s, In s all_spots ->
     prev_measured s <> [] /\ new_measured s <> [] /\ new_measured (half_key s) <> []) ->
  distances cbrt prev_measured new_measured all_spots =
    Some (fold_left (fun d s =>
                       d + cbrt (abs (total prev_measured s - total new_measured s)))%float
                    all_spots 0%float,
          fold_left (fun d s =>
                       d + cbrt (abs (total prev_measured s
                                      - total new_measured (half_key s))))%float
                    all_spots 0%float) /\
  (forall s, uint64 s ->
     half_key s = (s + 1) / 2 /\
     (1 <= s -> 1 <= half_key s) /\
     (s mod 2 = 0 -> half_key s = s / 2) /\
     (s mod 2 = 1 -> half_key s = s / 2 + 1)) /\
  (forall x, In x (with_halves all_spots) <->
             In x all_spots \/ exists s, In s all_spots /\ 1 < s /\ x = s / 2) /\
  (forall a_begin fuel initial_stride stride w,
     find_rest_loop a_begin cbrt (S fuel) initial_stride stride all_spots prev_measured w =
     (new_measured <- measure (wrap64 (stride * 2)) (with_halves all_spots)
                        (measure_shuffled a_begin) ;;
      d <- lift (distances cbrt prev_measured new_measured all_spots) ;;
      if (fst d <? snd d)%float
      then lift (scale_spots (wrap64 (stride * 2)) initial_stride all_spots)
      else
        all_spots' <- lift (make_spots (wrap64 (stride * 2))) ;;
        find_rest_loop a_begin cbrt fuel initial_stride (wrap64 (stride * 2))
                       all_spots' new_measured) w).
Proof.
  intros H. split; [|split; [|split]].
  - unfold distances. now rewrite distances_from_spec.
  - apply half_key_rounds_up.
  - apply in_with_halves.
  - reflexivity.
Qed.

Lemma half_distance_rounds_up_witness :
  distances (fun x => x) prev_samples new_samples [1; 2; 3] =
    Some (8%float, 11%float).
Proof.
  destruct (half_distance_rounds_up (fun x => x) prev_samples new_samples [1; 2; 3])
    as (Hd & _).
  - intros s [<-|[<-|[<-|[]]]]; repeat split; discriminate.
  - rewrite Hd. reflexivity.
Defined.

(** For [s = 3] the code reads the new measurements at 2, where the claim
    has 1: the difference it takes is 5 - 2, not 5 - 1, and no sample
    measured at the new stride for the spots value 1 enters the distances
    of 3. *)
Lemma half_distance_of_three :
  half_key 3 = 2 /\ Z.max (3 / 2) 1 = 1 /\
  half_difference prev_samples new_samples 3 = 3%float /\
  (total prev_samples 3 - total new_samples (Z.max (3 / 2) 1))%float = 4%float /\
  (forall cbrt prev_measured new_measured d,
     distances cbrt prev_measured (push_back new_measured 1 d) [3]
     = distances cbrt prev_measured new_measured [3]).
Proof.
  repeat split; reflexivity.
Qed.

(** ** Computations that run *)

Lemma keeps_clock_refl (w : world) : keeps_clock w w.
Proof. now split. Qed.

Lemma keeps_clock_trans (w1 w2 w3 : world) :
  keeps_clock w1 w2 -> keeps_clock w2 w3 -> keeps_clock w1 w3.
Proof. intros [? ?] [? ?]. split; congruence. Qed.

Lemma runs_ret {A : Type} (x : A) : runs (ret x).
Proof. intros w. exists x, w. split; [reflexivity | apply keeps_clock_refl]. Qed.

Lemma runs_lift {A : Type} (o : option A) (x : A) : o = Some x -> runs (lift o).
Proof.
  intros -> w. exists x, w. split; [reflexivity | apply keeps_clock_refl].
Qed.

Lemma runs_bind {A B : Type} (m : M A) (f : A -> M B) :
  runs m -> (forall x w w', m w = Some (x, w') -> runs (f x)) -> runs (bind m f).
Proof.
  intros Hm Hf w. destruct (Hm w) as (x & w1 & Hx & Hk1).
  destruct (Hf x w w1 Hx w1) as (y & w2 & Hy & Hk2).
  exists y, w2. split; [|eapply keeps_clock_trans; eauto].
  unfold bind. now rewrite Hx.
Qed.

Lemma runs_a_get (i : Z) : in_arena i = true -> runs (a_get i).
Proof.
  intros H w. exists (a_mem w i), w. unfold a_get. rewrite H.
  split; [reflexivity | apply keeps_clock_refl].
Qed.

Lemma runs_a_set (i v : Z) : in_arena i = true -> runs (a_set i v).
Proof.
  intros H w. unfold a_set. rewrite H. eexists; eexists.
  split; [reflexivity | now split].
Qed.

Lemma runs_rng : runs rng.
Proof. intros w. unfold rng. eexists; eexists. split; [reflexivity | now split]. Qed.

Lemma runs_set_rng_seed (s : Z) : runs (set_rng_seed s).
Proof.
  intros w. unfold set_rng_seed. eexists; eexists. split; [reflexivity | now split].
Qed.

Lemma runs_for_each (l : list Z) (body : Z -> M unit) :
  (forall i, In i l -> runs (body i)) -> runs (for_each l body).
Proof.
  induction l as [|i l IH]; intros H; cbn [for_each]; [apply runs_ret|].
  apply runs_bind; [apply H; now left|]. intros _ _ _ _.
  apply IH. intros k Hk. apply H. now right.
Qed.

Lemma runs_swap (x y : Z) : in_arena x = true -> in_arena y = true -> runs (swap x y).
Proof.
  intros Hx Hy. unfold swap.
  apply runs_bind; [now apply runs_a_get|]. intros vx _ _ _.
  apply runs_bind; [now apply runs_a_get|]. intros vy _ _ _.
  apply runs_bind; [now apply runs_a_set|]. intros _ _ _ _.
  now apply runs_a_set.
Qed.

Lemma lift_inv {A : Type} (o : option A) (x : A) (w w' : world) :
  lift o w = Some (x, w') -> o = Some x.
Proof. unfold lift. destruct o; [|discriminate]. intros H. now inversion H. Qed.

(** ** Computations determined by the seed and some slots *)

Lemma agree_weaken (P Q : Z -> Prop) (w1 w2 : world) :
  (forall j, Q j -> P j) -> agree P w1 w2 -> agree Q w1 w2.
Proof. intros H [Hs Hm]. split; [assumption|]. intros j Hj. apply Hm. now apply H. Qed.

Lemma det_post {A : Type} (P Q Q' : Z -> Prop) (m : M A) :
  (forall j, Q' j -> Q j) -> det P Q m -> det P Q' m.
Proof.
  intros H Hm w1 w2 Hw. specialize (Hm w1 w2 Hw). unfold same_outcome in *.
  destruct (m w1) as [[x1 w1']|], (m w2) as [[x2 w2']|]; try assumption.
  destruct Hm. split; [assumption|]. eapply agree_weaken; eauto.
Qed.

Lemma det_ret {A : Type} (P : Z -> Prop) (x : A) : det P P (ret x).
Proof. intros w1 w2 H. now split. Qed.

Lemma det_lift {A : Type} (P : Z -> Prop) (o : option A) : det P P (lift o).
Proof. intros w1 w2 H. unfold lift. destruct o; [now split | exact I]. Qed.

Lemma det_bind {A B : Type} (P Q R : Z -> Prop) (m : M A) (f : A -> M B) :
  det P Q m -> (forall x w w', m w = Some (x, w') -> det Q R (f x)) ->
  det P R (bind m f).
Proof.
  intros Hm Hf w1 w2 Hw. specialize (Hm w1 w2 Hw). unfold bind, same_outcome in *.
  destruct (m w1) as [[x1 w1']|] eqn:E1, (m w2) as [[x2 w2']|]; try contradiction.
  - destruct Hm as [<- Hw']. exact (Hf x1 w1 w1' E1 w1' w2' Hw').
  - exact I.
Qed.

Lemma det_a_get (P : Z -> Prop) (i : Z) : P i -> det P P (a_get i).
Proof.
  intros Hi w1 w2 [Hs Hm]. unfold a_get. destruct (in_arena i); [|exact I].
  split; [now apply Hm | now split].
Qed.

Lemma det_a_set (P : Z -> Prop) (i v : Z) : det P (fun j => P j \/ j = i) (a_set i v).
Proof.
  intros w1 w2 [Hs Hm]. unfold a_set. destruct (in_arena i); [|exact I].
  split; [reflexivity|]. split; [assumption|]. cbn [a_mem]. intros j [Hj | ->].
  - unfold upd. destruct (j =? i); [reflexivity | now apply Hm].
  - now rewrite !upd_same.
Qed.

Lemma det_a_set_same (P : Z -> Prop) (i v : Z) : det P P (a_set i v).
Proof. eapply det_post; [|apply det_a_set]. intros j Hj. now left. Qed.

Lemma det_rng (P : Z -> Prop) : det P P rng.
Proof.
  intros w1 w2 [Hs Hm]. unfold rng. cbn. rewrite Hs. repeat split. assumption.
Qed.

Lemma det_swap (P : Z -> Prop) (x y : Z) : P x -> P y -> det P P (swap x y).
Proof.
  intros Hx Hy. unfold swap.
  eapply det_bind; [now apply det_a_get|]. intros vx _ _ _.
  eapply det_bind; [now apply det_a_get|]. intros vy _ _ _.
  eapply det_bind; [apply det_a_set_same|]. intros _ _ _ _.
  apply det_a_set_same.
Qed.

Lemma det_for_each (P : Z -> Prop) (l : list Z) (body : Z -> M unit) :
  (forall i, In i l -> det P P (body i)) -> det P P (for_each l body).
Proof.
  induction l as [|i l IH]; intros H; cbn [for_each]; [apply det_ret|].
  eapply det_bind; [apply H; now left|]. intros _ _ _ _.
  apply IH. intros k Hk. apply H. now right.
Qed.

(** A loop whose turn [i] reads slots of [P0] and stores to the slots
    [W i]. *)
Lemma det_for_each_grow (P0 : Z -> Prop) (W : Z -> Z -> Prop) (l : list Z)
      (body : Z -> M unit) :
  (forall i P, In i l -> (forall j, P0 j -> P j) ->
               det P (fun j => P j \/ W i j) (body i)) ->
  forall P, (forall j, P0 j -> P j) ->
            det P (fun j => P j \/ exists i, In i l /\ W i j) (for_each l body).
Proof.
  induction l as [|i l IH]; intros H P HP; cbn [for_each].
  - eapply det_post; [|apply det_ret]. intros j [Hj|(i & [] & _)]. exact Hj.
  - eapply det_bind; [apply (H i P); [now left | assumption]|]. intros _ _ _ _.
    eapply det_post; [|apply IH].
    + intros j [Hj|(k & [<-|Hk] & Hw)].
      * left. now left.
      * left. now right.
      * right. exists k. split; assumption.
    + intros k Q Hk HQ. apply H; [now right | assumption].
    + intros j Hj. left. now apply HP.
Qed.

(** ** One trial *)

(** A trial of a method that builds a pattern and times a walk on it. *)
Lemma trial_outcome (pattern : Z -> Z -> M unit) (offset : Z -> Z)
      (stride i spots : Z) (results : measurements) (w : world) :
  runs (pattern stride spots) ->
  exists wp,
    pattern stride spots (reseeded (wrap64 (spots + i)) w) = Some (tt, wp) /\
    keeps_clock w wp /\
    trial stride (fun stride spots =>
                    pattern stride spots ;;; measure_walk stride spots (offset stride))
          i spots results w
    = Some (push_back results spots (clock w (walks w)), walked wp).
Proof.
  intros Hruns.
  destruct (Hruns (reseeded (wrap64 (spots + i)) w)) as ([] & wp & Hp & Hc & Hw).
  exists wp. split; [exact Hp|]. split; [now split|].
  unfold trial, bind, set_rng_seed. fold (reseeded (wrap64 (spots + i)) w).
  rewrite Hp. unfold measure_walk, ret, walked. cbn in Hc, Hw.
  now rewrite Hc, Hw.
Qed.

Section Patterns.

Variable a_begin : Z.
Variables stride spots : Z.
Hypothesis stride_pos : 1 <= stride.
Hypothesis spots_pos : 1 <= spots.
Hypothesis fits : spots * stride <= a_size.

Lemma spots_small : spots < 2 ^ 32.
Proof. pose proof a_size_value. nia. Qed.

Lemma anchor_slot (k : Z) :
  0 <= k < spots ->
  wrap64 (k * stride) = k * stride /\ in_arena (k * stride) = true /\
  is_anchor stride spots (k * stride).
Proof.
  intros Hk. pose proof a_size_value.
  destruct (anchor_bound stride spots stride_pos fits k Hk) as [? ?].
  split; [apply wrap64_small; lia|].
  split; [apply in_arena_iff; lia|]. now exists k.
Qed.

Lemma half_slot (k : Z) :
  0 <= k < spots ->
  wrap64 (k * stride + stride / 2) = k * stride + stride / 2 /\
  in_arena (k * stride + stride / 2) = true.
Proof.
  intros Hk. pose proof a_size_value.
  assert (0 <= stride / 2 < stride).
  { split; [apply Z.div_pos; lia | apply Z.div_lt_upper_bound; lia]. }
  assert (0 <= k * stride + stride / 2 < a_size) by nia.
  split; [apply wrap64_small; lia | apply in_arena_iff; lia].
Qed.

Lemma runs_create_forward_chain : runs (create_forward_chain a_begin stride spots).
Proof.
  intros w. eexists; eexists.
  split; [now apply create_forward_chain_run | now split].
Qed.

Lemma runs_shuffle : runs (shuffle stride spots).
Proof.
  intros w. eexists; eexists. pose proof spots_small.
  split; [apply shuffle_run; nia | now split].
Qed.

Lemma runs_shuffled_pattern : runs (shuffled_pattern a_begin stride spots).
Proof.
  unfold shuffled_pattern.
  apply runs_bind; [apply runs_create_forward_chain|]. intros _ _ _ _.
  apply runs_bind; [apply runs_shuffle|]. intros _ _ _ _.
  apply runs_for_each. intros i Hi. apply in_upto in Hi.
  destruct (anchor_slot i Hi) as (Ew & Hin & _). rewrite Ew.
  destruct (half_slot i Hi) as (Ew' & Hin').
  apply runs_bind; [now apply runs_a_get|]. intros v _ _ _.
  rewrite Ew'. now apply runs_a_set.
Qed.

Lemma behind_index_range (i : Z) :
  0 <= wrap64 (wrap64 (i + spots) - lookbehind_offset) mod spots < spots /\
  wrap64 (wrap64 (i + spots) - lookbehind_offset) mod spots * stride + stride / 2
    = behind_slot stride spots i.
Proof.
  split; [apply Z.mod_pos_bound; lia|].
  unfold behind_slot, wrap64. now rewrite Zminus_mod_idemp_l.
Qed.

Lemma runs_lookbehind_pattern : runs (lookbehind_pattern a_begin stride spots).
Proof.
  unfold lookbehind_pattern. pose proof spots_small as Hs.
  apply runs_bind; [apply runs_create_forward_chain|]. intros _ _ _ _.
  apply Z.leb_gt in Hs. rewrite Hs.
  apply runs_for_each. intros i Hi. apply in_upto in Hi.
  apply runs_bind.
  { apply (runs_lift _ (wrap64 (wrap64 (i + spots) - lookbehind_offset) mod spots)).
    unfold umod. destruct (spots =? 0) eqn:E; [apply Z.eqb_eq in E; lia | reflexivity]. }
  intros b w w' Hb. apply lift_inv in Hb. unfold umod in Hb.
  destruct (spots =? 0); [discriminate|]. inversion Hb; subst b.
  destruct (behind_index_range i) as [Hr _].
  destruct (anchor_slot _ Hr) as (Ew & _ & _). rewrite Ew.
  destruct (half_slot _ Hr) as (Ew' & Hin'). rewrite Ew'.
  destruct (anchor_slot i Hi) as (Ewi & Hini & _). rewrite Ewi.
  apply runs_bind; [now apply runs_a_get|]. intros v _ _ _.
  apply runs_bind; [now apply runs_a_set|]. intros _ _ _ _.
  now apply runs_a_set.
Qed.

Lemma det_create_forward_chain (P : Z -> Prop) :
  det P (is_anchor stride spots) (create_forward_chain a_begin stride spots).
Proof.
  intros w1 w2 [Hs _]. rewrite !create_forward_chain_run by assumption.
  split; [reflexivity|]. split; [exact Hs|]. cbn [a_mem].
  intros j (k & Hk & ->). now rewrite !chain_mem_anchor.
Qed.

Lemma det_shuffle (P : Z -> Prop) :
  (forall j, is_anchor stride spots j -> P j) -> det P P (shuffle stride spots).
Proof.
  intros HP. unfold shuffle. pose proof spots_small.
  rewrite (wrap64_small (spots - 1)), (wrap32_small (spots - 1)) by lia.
  apply det_for_each. intros i Hi. apply in_downto1 in Hi.
  eapply det_bind; [apply det_rng|]. intros r _ _ _.
  eapply det_bind; [apply det_lift|]. intros k w w' Hk. apply lift_inv in Hk.
  rewrite (wrap32_small (i + 1)) in Hk by lia. unfold umod in Hk.
  destruct (i + 1 =? 0); [discriminate|]. inversion Hk; subst k.
  pose proof (Z.mod_pos_bound r (i + 1) ltac:(lia)).
  destruct (anchor_slot i) as (-> & _ & Ha); [lia|].
  destruct (anchor_slot (r mod (i + 1))) as (-> & _ & Ha'); [lia|].
  apply det_swap; now apply HP.
Qed.

Lemma det_shuffled_pattern (P : Z -> Prop) :
  det P (fun j => is_anchor stride spots j \/ is_half stride spots j)
      (shuffled_pattern a_begin stride spots).
Proof.
  unfold shuffled_pattern.
  eapply det_bind; [apply det_create_forward_chain|]. intros _ _ _ _.
  eapply det_bind; [apply det_shuffle; auto|]. intros _ _ _ _.
  eapply det_post.
  2:{ apply (det_for_each_grow (is_anchor stride spots)
               (fun i j => j = i * stride + stride / 2)); [|auto].
      intros i P' Hi HP'. apply in_upto in Hi.
      destruct (anchor_slot i Hi) as (-> & _ & Ha).
      destruct (half_slot i Hi) as (-> & _).
      eapply det_bind; [apply det_a_get; now apply HP'|]. intros v _ _ _.
      apply det_a_set. }
  intros j [Hj|(k & Hk & ->)]; [now left|].
  right. exists k. split; [now apply in_upto | reflexivity].
Qed.

Lemma det_lookbehind_pattern (P : Z -> Prop) :
  det P (fun j => is_anchor stride spots j \/ is_behind stride spots j)
      (lookbehind_pattern a_begin stride spots).
Proof.
  unfold lookbehind_pattern. pose proof spots_small as Hs.
  eapply det_bind; [apply det_create_forward_chain|]. intros _ _ _ _.
  apply Z.leb_gt in Hs. rewrite Hs.
  eapply det_post.
  2:{ apply (det_for_each_grow (is_anchor stride spots)
               (fun i j => j = behind_slot stride spots i)); [|auto].
      intros i P' Hi HP'. apply in_upto in Hi.
      eapply det_bind; [apply det_lift|]. intros b w w' Hb. apply lift_inv in Hb.
      unfold umod in Hb. destruct (spots =? 0); [discriminate|]. inversion Hb; subst b.
      destruct (behind_index_range i) as [Hr Hslot].
      destruct (anchor_slot _ Hr) as (-> & _ & _).
      destruct (half_slot _ Hr) as (-> & _). rewrite Hslot.
      destruct (anchor_slot i Hi) as (-> & _ & Ha).
      eapply det_bind; [apply det_a_get; now apply HP'|]. intros v _ _ _.
      eapply det_bind; [apply det_a_set|]. intros _ _ _ _.
      eapply det_post; [|apply det_a_set_same].
      intros j Hj. exact Hj. }
  intros j [Hj|(k & Hk & ->)]; [now left|].
  right. exists k. split; [now apply in_upto | reflexivity].
Qed.

End Patterns.

Lemma rng_values_stream (n : nat) (w : world) :
  exists w', rng_values n w = Some (rng_stream (rng_seed w) n, w').
Proof.
  revert w. induction n as [|n IH]; intros w; [now exists w|].
  cbn [rng_values rng_stream]. unfold bind at 1. unfold rng at 1. cbn beta iota zeta.
  destruct (IH (mk_world (a_mem w) (rng_next (rng_seed w)) (clock w) (walks w)))
    as (w' & Hw').
  exists w'. unfold bind. rewrite Hw'. reflexivity.
Qed.

(** ** The trials of a run of [measure] *)

Lemma run_trials_app (stride : Z) (method : Z -> Z -> M duration)
      (l1 l2 : list (Z * Z)) (r : measurements) (w : world) :
  run_trials stride method (l1 ++ l2) r w =
  (r' <- run_trials stride method l1 r ;; run_trials stride method l2 r') w.
Proof.
  revert r w. induction l1 as [|[i s] l1 IH]; intros r w; [reflexivity|].
  cbn [app run_trials]. unfold bind.
  destruct (trial stride method i s r w) as [[r1 w1]|]; [|reflexivity].
  rewrite IH. reflexivity.
Qed.

Lemma for_fold_trials (stride : Z) (method : Z -> Z -> M duration) (i : Z)
      (all_spots : list Z) (r : measurements) (w : world) :
  for_fold all_spots (trial stride method i) r w =
  run_trials stride method (map (fun spots => (i, spots)) all_spots) r w.
Proof.
  revert r w. induction all_spots as [|s l IH]; intros r w; [reflexivity|].
  cbn [for_fold map run_trials]. apply bind_ext. intros r1 w1. apply IH.
Qed.

(** [measure] runs the trials of its schedule. *)
Lemma measure_schedule (stride : Z) (method : Z -> Z -> M duration) (all_spots : list Z)
      (w : world) :
  measure stride all_spots method w =
  run_trials stride method (schedule all_spots) no_measurements w.
Proof.
  unfold measure, schedule. generalize (upto iterations) no_measurements w.
  induction l as [|i l IH]; intros r w0; [reflexivity|].
  cbn [for_fold flat_map]. rewrite run_trials_app.
  unfold bind. rewrite for_fold_trials.
  destruct (run_trials stride method _ r w0) as [[r1 w1]|]; [apply IH | reflexivity].
Qed.

Lemma in_schedule (all_spots : list Z) (i spots : Z) :
  In (i, spots) (schedule all_spots) <-> 0 <= i < iterations /\ In spots all_spots.
Proof.
  unfold schedule. rewrite in_flat_map. split.
  - intros (k & Hk & H). apply in_upto in Hk. apply in_map_iff in H.
    destruct H as (s & E & Hs). inversion E; subst. now split.
  - intros [Hi Hs]. exists i. split; [now apply in_upto|].
    apply in_map_iff. now exists spots.
Qed.

Section TrialsOfMeasure.

Variable pattern : Z -> Z -> M unit.
Variable offset : Z -> Z.
Variable stride : Z.
Hypothesis pattern_runs :
  forall spots, 1 <= spots -> spots * stride <= a_size -> runs (pattern stride spots).

Let method : Z -> Z -> M duration :=
  fun stride spots => pattern stride spots ;;; measure_walk stride spots (offset stride).

Lemma run_trials_runs (trials : list (Z * Z)) :
  (forall t, In t trials -> 1 <= snd t /\ snd t * stride <= a_size) ->
  forall r w, exists r' w', run_trials stride method trials r w = Some (r', w').
Proof.
  induction trials as [|[i s] l IH]; intros Hfit r w.
  - now exists r, w.
  - destruct (Hfit (i, s) (or_introl eq_refl)) as [Hs1 Hs2]. cbn [snd] in Hs1, Hs2.
    destruct (trial_outcome pattern offset stride i s r w (pattern_runs s Hs1 Hs2))
      as (wp & _ & _ & Ht).
    fold method in Ht. cbn [run_trials]. rewrite (bind_some _ _ _ _ _ Ht).
    apply IH. intros t Ht'. apply Hfit. now right.
Qed.

(** Every trial of the schedule takes place, on a pattern built from the
    seed [spots + i]. *)
Lemma trial_of_measure (all_spots : list Z) (w : world) (i spots : Z) :
  (forall s, In s all_spots -> 1 <= s /\ s * stride <= a_size) ->
  0 <= i < iterations -> In spots all_spots ->
  exists u p,
    pattern stride spots (reseeded (wrap64 (spots + i)) u) = Some (tt, p) /\
    trial_in_measure stride method all_spots w i spots u (walked p).
Proof.
  intros Hfit Hi Hs.
  assert (Hin : In (i, spots) (schedule all_spots)) by (apply in_schedule; now split).
  destruct (in_split _ _ Hin) as (before & after & Esched).
  assert (Hall : forall t, In t (schedule all_spots) -> 1 <= snd t /\ snd t * stride <= a_size).
  { intros [k s] Ht. apply in_schedule in Ht. apply Hfit. apply Ht. }
  destruct (run_trials_runs before) with (r := no_measurements) (w := w)
    as (r & u & Hbefore).
  { intros t Ht. apply Hall. rewrite Esched. apply in_or_app. now left. }
  destruct (Hfit spots Hs) as [Hs1 Hs2].
  destruct (trial_outcome pattern offset stride i spots r u (pattern_runs spots Hs1 Hs2))
    as (p & Hp & _ & Ht).
  fold method in Ht.
  destruct (run_trials_runs after) with (r := push_back r spots (clock u (walks u)))
                                        (w := walked p)
    as (measured & w' & Hafter).
  { intros t Ht'. apply Hall. rewrite Esched. apply in_or_app. right. now right. }
  exists u, p. split; [exact Hp|].
  exists before, after, r, (push_back r spots (clock u (walks u))), measured, w'.
  split; [exact Esched|]. split; [exact Hbefore|]. split; [exact Ht|].
  split; [exact Hafter|].
  rewrite measure_schedule, Esched, run_trials_app.
  rewrite (bind_some _ _ _ _ _ Hbefore). cbn [run_trials].
  rewrite (bind_some _ _ _ _ _ Ht). exact Hafter.
Qed.

(** The same trial in two runs of [measure]. *)
Lemma trials_of_measure_agree (Q : Z -> Prop) (l1 l2 : list Z) (w1 w2 : world) (i spots : Z) :
  (forall s, In s l1 -> 1 <= s /\ s * stride <= a_size) ->
  (forall s, In s l2 -> 1 <= s /\ s * stride <= a_size) ->
  0 <= i < iterations -> In spots l1 -> In spots l2 ->
  det (fun _ => False) Q (pattern stride spots) ->
  exists u1 v1 u2 v2,
    trial_in_measure stride method l1 w1 i spots u1 v1 /\
    trial_in_measure stride method l2 w2 i spots u2 v2 /\
    rng_seed v1 = rng_seed v2 /\
    forall j, Q j -> a_mem v1 j = a_mem v2 j.
Proof.
  intros Hfit1 Hfit2 Hi Hs1 Hs2 Hdet.
  destruct (trial_of_measure l1 w1 i spots Hfit1 Hi Hs1) as (u1 & p1 & Hp1 & Ht1).
  destruct (trial_of_measure l2 w2 i spots Hfit2 Hi Hs2) as (u2 & p2 & Hp2 & Ht2).
  assert (Hseeded : agree (fun _ => False) (reseeded (wrap64 (spots + i)) u1)
                          (reseeded (wrap64 (spots + i)) u2)).
  { split; [reflexivity | contradiction]. }
  specialize (Hdet _ _ Hseeded). rewrite Hp1, Hp2 in Hdet.
  destruct Hdet as (_ & Hseed & Hmem).
  exists u1, (walked p1), u2, (walked p2).
  split; [exact Ht1|]. split; [exact Ht2|]. split; [exact Hseed | exact Hmem].
Qed.

End TrialsOfMeasure.

(** C8, as the code has it.  The generator is a function of its seed: [n]
    calls return the stream of that seed.  [measure] runs the trials of its
    schedule, one for each iteration index 0, ..., 8 and each spots value,
    and a trial sets the seed to [spots + i] before it runs the method.  So
    in two runs of [measure] at the same stride, started in any two worlds
    (arena contents, seed, clock) on any two sequences of spots values whose
    patterns fit the arena, the trials of a spots value and an iteration
    index that both runs have draw the same values and leave the same seed
    and the same values in every slot of the pattern: the anchors and the
    slots half a stride further for the shuffled pattern, the anchors and
    the look-behind slots for the look-behind pattern.  The values are
    addresses: both runs have the arena at the same address [a_begin]. *)
Theorem measure_patterns_reproducible
        (a_begin stride i spots : Z) (l1 l2 : list Z) (w1 w2 : world) :
  1 <= stride ->
  (forall s, In s l1 -> 1 <= s /\ s * stride <= a_size) ->
  (forall s, In s l2 -> 1 <= s /\ s * stride <= a_size) ->
  0 <= i < iterations -> In spots l1 -> In spots l2 ->
  (forall n w, exists w', rng_values n w = Some (rng_stream (rng_seed w) n, w')) /\
  (forall method all_spots w,
     measure stride all_spots method w
       = run_trials stride method (schedule all_spots) no_measurements w) /\
  (forall all_spots k s,
     In (k, s) (schedule all_spots) <-> 0 <= k < 9 /\ In s all_spots) /\
  (forall method k s results w,
     trial stride method k s results w =
     (d <- method stride s ;; ret (push_back results s d)) (reseeded (wrap64 (s + k)) w)) /\
  (exists u1 v1 u2 v2,
     trial_in_measure stride (measure_shuffled a_begin) l1 w1 i spots u1 v1 /\
     trial_in_measure stride (measure_shuffled a_begin) l2 w2 i spots u2 v2 /\
     (forall n, exists x1 x2,
        rng_values n (reseeded (wrap64 (spots + i)) u1)
          = Some (rng_stream (wrap64 (spots + i)) n, x1) /\
        rng_values n (reseeded (wrap64 (spots + i)) u2)
          = Some (rng_stream (wrap64 (spots + i)) n, x2)) /\
     rng_seed v1 = rng_seed v2 /\
     forall k, 0 <= k < spots ->
       a_mem v1 (k * stride) = a_mem v2 (k * stride) /\
       a_mem v1 (k * stride + stride / 2) = a_mem v2 (k * stride + stride / 2)) /\
  (exists u1 v1 u2 v2,
     trial_in_measure stride (measure_lookbehind a_begin) l1 w1 i spots u1 v1 /\
     trial_in_measure stride (measure_lookbehind a_begin) l2 w2 i spots u2 v2 /\
     rng_seed v1 = rng_seed v2 /\
     forall k, 0 <= k < spots ->
       a_mem v1 (k * stride) = a_mem v2 (k * stride) /\
       a_mem v1 (behind_slot stride spots k) = a_mem v2 (behind_slot stride spots k)).
Proof.
  intros Hstride Hfit1 Hfit2 Hi Hs1 Hs2.
  destruct (Hfit1 spots Hs1) as [Hspots Hfit].
  split; [apply rng_values_stream|].
  split; [intros method all_spots w; apply measure_schedule|].
  split; [intros all_spots k s; apply in_schedule|].
  split; [reflexivity|].
  split.
  - destruct (trials_of_measure_agree (shuffled_pattern a_begin) (fun s => s / 2) stride
                (fun s H1 H2 => runs_shuffled_pattern a_begin stride s Hstride H1 H2)
                (fun j => is_anchor stride spots j \/ is_half stride spots j)
                l1 l2 w1 w2 i spots Hfit1 Hfit2 Hi Hs1 Hs2)
      as (u1 & v1 & u2 & v2 & Ht1 & Ht2 & Hseed & Hmem).
    { now apply det_shuffled_pattern. }
    exists u1, v1, u2, v2.
    split; [exact Ht1|]. split; [exact Ht2|]. split.
    + intros n.
      destruct (rng_values_stream n (reseeded (wrap64 (spots + i)) u1)) as (x1 & H1).
      destruct (rng_values_stream n (reseeded (wrap64 (spots + i)) u2)) as (x2 & H2).
      now exists x1, x2.
    + split; [exact Hseed|]. intros k Hk. split; apply Hmem.
      * left. now exists k.
      * right. now exists k.
  - destruct (trials_of_measure_agree (lookbehind_pattern a_begin) (fun _ => 0) stride
                (fun s H1 H2 => runs_lookbehind_pattern a_begin stride s Hstride H1 H2)
                (fun j => is_anchor stride spots j \/ is_behind stride spots j)
                l1 l2 w1 w2 i spots Hfit1 Hfit2 Hi Hs1 Hs2)
      as (u1 & v1 & u2 & v2 & Ht1 & Ht2 & Hseed & Hmem).
    { now apply det_lookbehind_pattern. }
    exists u1, v1, u2, v2.
    split; [exact Ht1|]. split; [exact Ht2|].
    split; [exact Hseed|]. intros k Hk. split; apply Hmem.
    + left. now exists k.
    + right. now exists k.
Qed.

Lemma measure_patterns_reproducible_witness :
  exists u1 v1 u2 v2,
    trial_in_measure 2 (measure_shuffled 4096) [3] blank_world 1 3 u1 v1 /\
    trial_in_measure 2 (measure_shuffled 4096) [1; 3] busy_world 1 3 u2 v2 /\
    rng_seed v1 = rng_seed v2 /\
    forall k, 0 <= k < 3 ->
      a_mem v1 (k * 2) = a_mem v2 (k * 2) /\
      a_mem v1 (k * 2 + 2 / 2) = a_mem v2 (k * 2 + 2 / 2).
Proof.
  destruct (measure_patterns_reproducible 4096 2 1 3 [3] [1; 3] blank_world busy_world)
    as (_ & _ & _ & _ & (u1 & v1 & u2 & v2 & H1 & H2 & _ & Hseed & Hmem) & _).
  - lia.
  - intros s [<-|[]]. rewrite a_size_value. lia.
  - intros s [<-|[<-|[]]]; rewrite a_size_value; lia.
  - unfold iterations. lia.
  - now left.
  - right. now left.
  - exists u1, v1, u2, v2. split; [exact H1|]. split; [exact H2|].
    split; [exact Hseed | exact Hmem].
Defined.

(** The slots hold addresses: with the arena at another address the same
    trials leave other values. *)
Lemma patterns_differ_with_the_arena_address :
  exists m1 m2 f1 f2,
    measure 2 [3] (measure_shuffled 4096) blank_world = Some (m1, f1) /\
    measure 2 [3] (measure_shuffled 8192) blank_world = Some (m2, f2) /\
    rng_seed f1 = rng_seed f2 /\
    a_mem f1 0 <> a_mem f2 0.
Proof.
  set (r1 := measure 2 [3] (measure_shuffled 4096) blank_world).
  set (r2 := measure 2 [3] (measure_shuffled 8192) blank_world).
  exists (match r1 with Some (m, _) => m | None => no_measurements end),
         (match r2 with Some (m, _) => m | None => no_measurements end),
         (match r1 with Some (_, f) => f | None => blank_world end),
         (match r2 with Some (_, f) => f | None => blank_world end).
  split; [vm_compute; reflexivity|]. split; [vm_compute; reflexivity|].
  split; [vm_compute; reflexivity|]. vm_compute. discriminate.
Qed.

(** ** The program follows the clock *)

Lemma fit_spec (stride : Z) (all_spots : list Z) :
  fit stride all_spots = true ->
  1 <= stride /\ forall s, In s all_spots -> 1 <= s /\ s * stride <= a_size.
Proof.
  unfold fit. rewrite andb_true_iff, Z.leb_le, forallb_forall.
  intros [H1 H2]. split; [assumption|]. intros s Hs.
  specialize (H2 s Hs). rewrite andb_true_iff, !Z.leb_le in H2. exact H2.
Qed.

Section FollowsClock.

Variable pattern : Z -> Z -> M unit.
Variable offset : Z -> Z.
Hypothesis pattern_runs :
  forall stride spots,
    1 <= stride -> 1 <= spots -> spots * stride <= a_size -> runs (pattern stride spots).

Let method : Z -> Z -> M duration :=
  fun stride spots => pattern stride spots ;;; measure_walk stride spots (offset stride).

Lemma trials_follow_clock (stride i : Z) (all_spots : list Z) :
  1 <= stride -> (forall s, In s all_spots -> 1 <= s /\ s * stride <= a_size) ->
  forall (r : measurements) (w : world),
  exists w',
    for_fold all_spots (trial stride method i) r w
      = Some (fst (record_trials (clock w) all_spots (r, walks w)), w') /\
    clock w' = clock w /\
    walks w' = snd (record_trials (clock w) all_spots (r, walks w)).
Proof.
  intros Hstride. induction all_spots as [|s l IH]; intros Hfit r w.
  - exists w. repeat split.
  - destruct (Hfit s (or_introl eq_refl)) as [Hs1 Hs2].
    destruct (trial_outcome pattern offset stride i s r w) as (wp & _ & [Hc Hw] & Ht).
    { now apply pattern_runs. }
    destruct (IH (fun k Hk => Hfit k (or_intror Hk))
                 (push_back r s (clock w (walks w))) (walked wp))
      as (w' & Hrun & Hc' & Hw').
    cbn [walked clock walks] in Hrun, Hc', Hw'.
    rewrite Hc, Hw in Hrun. rewrite Hc in Hc'. rewrite Hc, Hw in Hw'.
    exists w'. cbn [for_fold record_trials fst snd].
    fold method in Ht. rewrite (bind_some _ _ _ _ _ Ht).
    repeat split; assumption.
Qed.

Lemma iterations_follow_clock (stride : Z) (all_spots : list Z) (idx : list Z) :
  1 <= stride -> (forall s, In s all_spots -> 1 <= s /\ s * stride <= a_size) ->
  forall (r : measurements) (w : world),
  exists w',
    for_fold idx (fun i => for_fold all_spots (trial stride method i)) r w
      = Some (fst (record_iterations (clock w) (List.length idx) all_spots (r, walks w)), w') /\
    clock w' = clock w /\
    walks w' = snd (record_iterations (clock w) (List.length idx) all_spots (r, walks w)).
Proof.
  intros Hstride Hfit. induction idx as [|i idx IH]; intros r w.
  - exists w. repeat split.
  - destruct (trials_follow_clock stride i all_spots Hstride Hfit r w)
      as (w1 & Hrun1 & Hc1 & Hw1).
    destruct (IH (fst (record_trials (clock w) all_spots (r, walks w))) w1)
      as (w' & Hrun & Hc' & Hw').
    rewrite Hc1, Hw1 in Hrun. rewrite Hc1 in Hc'. rewrite Hc1, Hw1 in Hw'.
    rewrite <- surjective_pairing in Hrun, Hw'.
    exists w'. cbn [for_fold List.length record_iterations].
    rewrite (bind_some _ _ _ _ _ Hrun1).
    repeat split; assumption.
Qed.

Lemma measure_follows_clock (stride : Z) (all_spots : list Z) (w : world)
      (measured : measurements) (t' : nat) :
  measure_clock (clock w) (walks w) stride all_spots = Some (measured, t') ->
  exists w',
    measure stride all_spots method w = Some (measured, w') /\
    clock w' = clock w /\ walks w' = t'.
Proof.
  unfold measure_clock. destruct (fit stride all_spots) eqn:E; [|discriminate].
  apply fit_spec in E. destruct E as [Hstride Hfit]. intros H.
  destruct (iterations_follow_clock stride all_spots (upto iterations) Hstride Hfit
              no_measurements w) as (w' & Hrun & Hc & Hw).
  rewrite length_upto in Hrun, Hw.
  set (p := record_iterations _ _ _ _) in *.
  assert (E : p = (measured, t')) by congruence. rewrite E in Hrun, Hw.
  exists w'. repeat split; assumption.
Qed.

End FollowsClock.

Lemma option_pair_inv {A B C : Type} (o : option (A * B)) (f : A -> B -> option C) (c : C) :
  match o with Some (a, b) => f a b | None => None end = Some c ->
  exists a b, o = Some (a, b) /\ f a b = Some c.
Proof. destruct o as [[a b]|]; [|discriminate]. intros H. now exists a, b. Qed.

Section ProgramFollowsClock.

Variable a_begin : Z.
Variable cbrt : float -> float.

Lemma measure_shuffled_follows_clock (stride : Z) (all_spots : list Z) (w : world)
      (measured : measurements) (t' : nat) :
  measure_clock (clock w) (walks w) stride all_spots = Some (measured, t') ->
  exists w',
    measure stride all_spots (measure_shuffled a_begin) w = Some (measured, w') /\
    clock w' = clock w /\ walks w' = t'.
Proof.
  apply (measure_follows_clock (shuffled_pattern a_begin) (fun s => s / 2)).
  intros. now apply runs_shuffled_pattern.
Qed.

Lemma measure_lookbehind_follows_clock (stride : Z) (all_spots : list Z) (w : world)
      (measured : measurements) (t' : nat) :
  measure_clock (clock w) (walks w) stride all_spots = Some (measured, t') ->
  exists w',
    measure stride all_spots (measure_lookbehind a_begin) w = Some (measured, w') /\
    clock w' = clock w /\ walks w' = t'.
Proof.
  apply (measure_follows_clock (lookbehind_pattern a_begin) (fun _ => 0)).
  intros. now apply runs_lookbehind_pattern.
Qed.

Lemma find_rest_loop_follows_clock (fuel : nat) (initial_stride stride : Z)
      (all_spots : list Z) (prev_measured : measurements) (w : world)
      (rest_spots : list Z) (t' : nat) :
  find_rest_loop_clock cbrt (clock w) fuel initial_stride stride all_spots prev_measured
                       (walks w) = Some (rest_spots, t') ->
  exists w',
    find_rest_loop a_begin cbrt fuel initial_stride stride all_spots prev_measured w
      = Some (rest_spots, w') /\
    clock w' = clock w /\ walks w' = t'.
Proof.
  revert stride all_spots prev_measured w.
  induction fuel as [|fuel IH]; intros stride all_spots prev_measured w H; [discriminate|].
  cbn [find_rest_loop_clock find_rest_loop] in *.
  destruct (measure_clock (clock w) (walks w) (wrap64 (stride * 2)) (with_halves all_spots))
    as [[new_measured t1]|] eqn:Em; [|discriminate].
  destruct (measure_shuffled_follows_clock _ _ _ _ _ Em) as (w1 & Hrun & Hc & Hw).
  rewrite (bind_some _ _ _ _ _ Hrun).
  destruct (distances cbrt prev_measured new_measured all_spots) as [d|]; [|discriminate].
  unfold bind at 1. cbn [lift].
  destruct (fst d <? snd d)%float.
  - destruct (scale_spots (wrap64 (stride * 2)) initial_stride all_spots) as [r|];
      [|discriminate].
    inversion H; subst. exists w1. repeat split; assumption.
  - destruct (make_spots (wrap64 (stride * 2))) as [all_spots'|]; [|discriminate].
    unfold bind at 1. cbn [lift].
    rewrite <- Hc, <- Hw in H. destruct (IH _ _ _ _ H) as (w' & Hrun' & Hc' & Hw').
    exists w'. repeat split; [assumption | congruence | assumption].
Qed.

Lemma find_rest_spots_follows_clock (fuel : nat) (initial_stride : Z) (w : world)
      (rest_spots : list Z) (t' : nat) :
  find_rest_spots_clock cbrt (clock w) fuel initial_stride (walks w) = Some (rest_spots, t') ->
  exists w',
    find_rest_spots a_begin cbrt fuel initial_stride w = Some (rest_spots, w') /\
    clock w' = clock w /\ walks w' = t'.
Proof.
  unfold find_rest_spots_clock, find_rest_spots. intros H.
  destruct (make_spots initial_stride) as [all_spots|]; [|discriminate].
  unfold bind at 1. cbn [lift].
  destruct (measure_clock (clock w) (walks w) initial_stride all_spots)
    as [[prev_measured t1]|] eqn:Em; [|discriminate].
  destruct (measure_shuffled_follows_clock _ _ _ _ _ Em) as (w1 & Hrun & Hc & Hw).
  rewrite (bind_some _ _ _ _ _ Hrun).
  rewrite <- Hc, <- Hw in H.
  destruct (find_rest_loop_follows_clock _ _ _ _ _ _ _ _ H) as (w' & Hrun' & Hc' & Hw').
  exists w'. repeat split; [assumption | congruence | assumption].
Qed.

Lemma find_jump_follows_clock (initial_stride : Z) (search_spots : list Z) (w : world)
      (jump : Z) (t' : nat) :
  find_jump_clock (clock w) (walks w) initial_stride search_spots = Some (jump, t') ->
  exists w',
    find_jump a_begin initial_stride search_spots w = Some (jump, w') /\
    clock w' = clock w /\ walks w' = t'.
Proof.
  unfold find_jump_clock, find_jump. intros H.
  destruct (measure_clock (clock w) (walks w) initial_stride search_spots)
    as [[measured t1]|] eqn:Em; [|discriminate].
  destruct (measure_shuffled_follows_clock _ _ _ _ _ Em) as (w1 & Hrun & Hc & Hw).
  rewrite (bind_some _ _ _ _ _ Hrun).
  destruct (find_jump_scan measured search_spots) as [j|]; [|discriminate].
  inversion H; subst. exists w1. repeat split; assumption.
Qed.

Lemma sweep_follows_clock (strides : list Z) (results : list duration) (w : world)
      (results' : list duration) (t' : nat) :
  sweep_clock (clock w) (walks w) strides results = Some (results', t') ->
  exists w',
    sweep_over a_begin strides results w = Some (results', w') /\
    clock w' = clock w /\ walks w' = t'.
Proof.
  revert results w. induction strides as [|stride strides IH]; intros results w H.
  - inversion H; subst. exists w. repeat split.
  - cbn [sweep_clock sweep_over] in *.
    destruct (udiv max_check_mem stride) as [spots|]; [|discriminate].
    unfold bind at 1. cbn [lift].
    destruct (measure_clock (clock w) (walks w) stride [spots])
      as [[measured t1]|] eqn:Em; [|discriminate].
    destruct (measure_lookbehind_follows_clock _ _ _ _ _ Em) as (w1 & Hrun & Hc & Hw).
    rewrite (bind_some _ _ _ _ _ Hrun).
    destruct (median (measured spots)) as [result|]; [|discriminate].
    unfold bind at 1. cbn [lift].
    rewrite <- Hc, <- Hw in H. destruct (IH _ _ H) as (w' & Hrun' & Hc' & Hw').
    exists w'. repeat split; [assumption | congruence | assumption].
Qed.

Lemma find_cache_line_size_follows_clock (w : world) (size : Z) (t' : nat) :
  find_cache_line_size_clock (clock w) (walks w) = Some (size, t') ->
  exists w',
    find_cache_line_size a_begin w = Some (size, w') /\
    clock w' = clock w /\ walks w' = t'.
Proof.
  unfold find_cache_line_size_clock, find_cache_line_size. intros H.
  destruct (sweep_clock (clock w) (walks w) [2; 4; 8; 16; 32; 64; 128] [])
    as [[results t1]|] eqn:Es; [|discriminate].
  destruct (sweep_follows_clock _ _ _ _ _ Es) as (w1 & Hrun & Hc & Hw).
  unfold bind. pose proof (sweep_strides a_begin w) as Hs. rewrite Hs, Hrun.
  clear Hs Es Hrun.
  destruct (cache_line_scan results) as [s|]; [|discriminate].
  injection H as H1 H2. subst. exists w1. repeat split; assumption.
Qed.

(** The program prints what its clock-driven rendition computes. *)
Lemma main_follows_clock (fuel : nat) (w : world) (out : string) :
  main_clock cbrt (clock w) fuel (walks w) = Some out ->
  exists w', main a_begin cbrt fuel w = Some (out, w').
Proof.
  unfold main_clock. intros H.
  apply option_pair_inv in H. destruct H as (rest_spots & t1 & E1 & H).
  destruct (find_rest_spots_follows_clock _ _ _ _ _ E1) as (w1 & Hrun1 & Hc1 & Hw1).
  rewrite <- Hc1, <- Hw1 in H.
  apply option_pair_inv in H. destruct H as (jump & t2 & E2 & H).
  destruct (find_jump_follows_clock _ _ _ _ _ E2) as (w2 & Hrun2 & Hc2 & Hw2).
  rewrite <- Hc2, <- Hw2 in H.
  apply option_pair_inv in H. destruct H as (size & t3 & E3 & H).
  destruct (find_cache_line_size_follows_clock _ _ _ E3) as (w3 & Hrun3 & _).
  exists w3. unfold main.
  rewrite (bind_some _ _ _ _ _ Hrun1), (bind_some _ _ _ _ _ Hrun2),
          (bind_some _ _ _ _ _ Hrun3).
  unfold lift. now rewrite H.
Qed.

End ProgramFollowsClock.

(** ** [make_spots] *)

Lemma next_spots_grows (stride spots : Z) :
  1 <= stride < 2 ^ 64 -> 1 <= spots < 2 ^ 32 ->
  spots < next_spots stride spots < 2 ^ 33.
Proof.
  intros Hs Hp. unfold next_spots. change step with 512.
  destruct (wrap64 (spots * stride) <=? 512).
  - rewrite wrap64_small by lia. lia.
  - destruct (stride >? 512) eqn:E.
    + rewrite wrap64_small by lia. lia.
    + rewrite Z.gtb_ltb in E. apply Z.ltb_ge in E.
      assert (1 <= 512 / stride <= 512).
      { split; [apply Z.div_le_lower_bound; lia | apply Z.div_le_upper_bound; nia]. }
      rewrite wrap64_small by lia. lia.
Qed.

Lemma make_spots_loop_defined (stride max_spots : Z) (fuel : nat) (spots : Z) :
  1 <= stride < 2 ^ 64 -> max_spots < 2 ^ 32 -> 1 <= spots ->
  max_spots - spots + 1 < Z.of_nat fuel -> (1 <= fuel)%nat ->
  exists l, make_spots_loop fuel stride max_spots spots = Some l.
Proof.
  intros Hs Hmax. revert spots.
  induction fuel as [|fuel IH]; intros spots Hp Hfuel Hone.
  - lia.
  - cbn [make_spots_loop]. destruct (spots <=? max_spots) eqn:E; [|now exists []].
    apply Z.leb_le in E.
    pose proof (next_spots_grows stride spots Hs ltac:(lia)).
    destruct (IH (next_spots stride spots)) as [l Hl]; [lia | lia | lia |].
    rewrite Hl. now eexists.
Qed.

(** The fuel [make_spots] gives its loop is enough: it returns for every
    stride but 0. *)
Lemma make_spots_defined (stride : Z) :
  1 <= stride < 2 ^ 64 -> exists l, make_spots stride = Some l.
Proof.
  intros Hs. unfold make_spots, udiv.
  destruct (stride =? 0) eqn:E; [apply Z.eqb_eq in E; lia|].
  assert (Hq : 0 <= max_discover_mem / stride <= 32768).
  { change max_discover_mem with 32768.
    split; [apply Z.div_pos; lia | apply Z.div_le_upper_bound; nia]. }
  assert (Hmax : next_spots stride (max_discover_mem / stride) < 2 ^ 32).
  { destruct (Z.eq_dec (max_discover_mem / stride) 0) as [->|Hne].
    - unfold next_spots. now rewrite Z.mul_0_l.
    - pose proof (next_spots_grows stride (max_discover_mem / stride) Hs ltac:(lia)) as H.
      unfold next_spots in *. change step with 512 in *.
      destruct (wrap64 (max_discover_mem / stride * stride) <=? 512).
      + rewrite wrap64_small by lia. lia.
      + destruct (stride >? 512) eqn:E'.
        * rewrite wrap64_small by lia. lia.
        * rewrite Z.gtb_ltb in E'. apply Z.ltb_ge in E'.
          assert (1 <= 512 / stride <= 512).
          { split; [apply Z.div_le_lower_bound; lia | apply Z.div_le_upper_bound; nia]. }
          rewrite wrap64_small by lia. lia. }
  apply make_spots_loop_defined; try lia.
Qed.

Lemma make_spots_head (stride x : Z) (l : list Z) :
  0 <= stride < 2 ^ 64 -> make_spots stride = Some (x :: l) ->
  x = 1 /\ 1 <= stride <= 32768.
Proof.
  intros Hs. unfold make_spots, udiv.
  destruct (stride =? 0) eqn:E; [discriminate|]. apply Z.eqb_neq in E.
  cbn [make_spots_loop].
  destruct (1 <=? next_spots stride (max_discover_mem / stride)) eqn:E1;
    [|discriminate].
  apply Z.leb_le in E1. intros H.
  destruct (make_spots_loop _ _ _ _); [|discriminate]. inversion H; subst.
  split; [reflexivity|]. split; [lia|].
  destruct (Z_le_gt_dec stride 32768) as [|Hgt]; [assumption|exfalso].
  change max_discover_mem with 32768 in E1.
  rewrite Z.div_small in E1 by lia.
  assert (E0 : next_spots stride 0 = 0) by (unfold next_spots; now rewrite Z.mul_0_l).
  rewrite E0 in E1. lia.
Qed.

Lemma max_spots_bound (stride : Z) :
  1 <= stride <= 32768 ->
  next_spots stride (max_discover_mem / stride) * stride <= 65536.
Proof.
  intros Hs. change max_discover_mem with 32768.
  assert (Hq : 0 <= 32768 / stride) by (apply Z.div_pos; lia).
  assert (Hm : 32768 / stride * stride <= 32768).
  { rewrite Z.mul_comm. apply Z.mul_div_le. lia. }
  assert (Hq' : 32768 / stride <= 32768) by (apply Z.div_le_upper_bound; nia).
  unfold next_spots. change step with 512.
  destruct (wrap64 (32768 / stride * stride) <=? 512).
  - rewrite wrap64_small by lia. lia.
  - destruct (stride >? 512) eqn:E.
    + rewrite wrap64_small by lia. lia.
    + rewrite Z.gtb_ltb in E. apply Z.ltb_ge in E.
      assert (H5 : 0 <= 512 / stride <= 512).
      { split; [apply Z.div_pos; lia | apply Z.div_le_upper_bound; nia]. }
      assert (H6 : 512 / stride * stride <= 512).
      { rewrite Z.mul_comm. apply Z.mul_div_le. lia. }
      rewrite wrap64_small by lia. lia.
Qed.

Lemma make_spots_loop_range (stride max_spots : Z) (fuel : nat) (spots : Z) (l : list Z) :
  1 <= stride < 2 ^ 64 -> max_spots < 2 ^ 32 -> 1 <= spots ->
  make_spots_loop fuel stride max_spots spots = Some l ->
  Forall (fun x => 1 <= x <= max_spots) l.
Proof.
  intros Hs Hmax. revert spots l.
  induction fuel as [|fuel IH]; intros spots l Hp H; [discriminate|].
  cbn [make_spots_loop] in H. destruct (spots <=? max_spots) eqn:E.
  - apply Z.leb_le in E.
    destruct (make_spots_loop fuel stride max_spots (next_spots stride spots))
      as [l'|] eqn:El; [|discriminate].
    injection H as <-.
    pose proof (next_spots_grows stride spots Hs ltac:(lia)).
    constructor; [lia|]. apply (IH (next_spots stride spots)); [lia | exact El].
  - injection H as <-. constructor.
Qed.

(** The patterns of the spots [make_spots] lists span at most twice the
    memory of [max_discover_mem] slots. *)
Lemma make_spots_range (stride : Z) (l : list Z) :
  1 <= stride <= 32768 -> make_spots stride = Some l ->
  Forall (fun x => 1 <= x /\ x * stride <= 65536) l.
Proof.
  intros Hs. pose proof (max_spots_bound stride Hs) as Hb.
  unfold make_spots, udiv.
  destruct (stride =? 0) eqn:E; [apply Z.eqb_eq in E; lia|].
  intros H. apply make_spots_loop_range in H; [|lia|nia|lia].
  eapply Forall_impl; [|exact H]. cbv beta. intros x Hx. split; [lia|nia].
Qed.

Lemma scale_spots_range (stride bound : Z) (all_spots rest_spots : list Z) :
  bound < 2 ^ 64 ->
  Forall (fun x => 0 <= x * (stride / 2 / 2) <= bound) all_spots ->
  scale_spots stride 2 all_spots = Some rest_spots ->
  Forall (fun y => 0 <= y <= bound) rest_spots.
Proof.
  intros Hb. revert rest_spots.
  induction all_spots as [|x l IH]; intros rest_spots Hl H.
  - injection H as <-. constructor.
  - cbn [scale_spots] in H. unfold udiv in H. cbn [Z.eqb] in H.
    destruct (scale_spots stride 2 l) as [r|]; [|discriminate].
    injection H as <-. inversion Hl as [|? ? Hx Hl']; subst.
    constructor; [|now apply IH]. rewrite wrap64_small by lia. lia.
Qed.

(** ** The sequence [find_rest_spots] returns *)

Section RestSpots.

Variable a_begin : Z.
Variable cbrt : float -> float.

Lemma find_rest_loop_front (fuel : nat) (stride : Z) (all_spots : list Z)
      (prev_measured : measurements) (w w' : world) (rest_spots : list Z) :
  2 <= stride < 2 ^ 64 -> make_spots stride = Some all_spots ->
  find_rest_loop a_begin cbrt fuel initial_stride stride all_spots prev_measured w
    = Some (rest_spots, w') ->
  exists front tail, rest_spots = front :: tail /\ 1 <= front.
Proof.
  revert stride all_spots prev_measured w.
  induction fuel as [|fuel IH]; intros stride all_spots prev_measured w Hs Hm H;
    [discriminate|].
  cbn [find_rest_loop] in H.
  apply bind_inv in H. destruct H as (new_measured & w1 & _ & H).
  apply bind_inv in H. destruct H as (d & w2 & Hd & H).
  apply lift_inv in Hd.
  destruct (fst d <? snd d)%float eqn:E.
  - apply lift_inv in H.
    destruct all_spots as [|x l].
    { inversion Hd; subst d. discriminate E. }
    destruct (make_spots_head stride x l ltac:(lia) Hm) as (-> & Hle).
    rewrite (wrap64_small (stride * 2)) in H by lia.
    cbn [scale_spots] in H. unfold udiv, initial_stride in H. cbn [Z.eqb] in H.
    destruct (scale_spots (stride * 2) 2 l); [|discriminate].
    inversion H; subst.
    assert (Hf : stride * 2 / 2 / 2 = stride / 2) by (now rewrite Z.div_mul by lia).
    rewrite Hf. exists (wrap64 (1 * (stride / 2))). eexists. split; [reflexivity|].
    assert (1 <= stride / 2 <= 32768).
    { split; [apply Z.div_le_lower_bound; lia | apply Z.div_le_upper_bound; lia]. }
    rewrite wrap64_small by lia. lia.
  - apply bind_inv in H. destruct H as (all_spots' & w3 & Hm' & H).
    apply lift_inv in Hm'.
    refine (IH _ _ _ _ _ Hm' H).
    pose proof (wrap64_range (stride * 2)) as Hr.
    assert (Hne : wrap64 (stride * 2) <> 0).
    { intros E0. rewrite E0 in Hm'. discriminate Hm'. }
    unfold wrap64 in *.
    pose proof (Z.div_mod (stride * 2) (2 ^ 64) ltac:(lia)). lia.
Qed.

Lemma find_rest_spots_front (fuel : nat) (w w' : world) (rest_spots : list Z) :
  find_rest_spots a_begin cbrt fuel initial_stride w = Some (rest_spots, w') ->
  exists front tail, rest_spots = front :: tail /\ 1 <= front.
Proof.
  unfold find_rest_spots. intros H.
  apply bind_inv in H. destruct H as (all_spots & w1 & Hm & H). apply lift_inv in Hm.
  apply bind_inv in H. destruct H as (prev_measured & w2 & _ & H).
  eapply find_rest_loop_front; [|exact Hm|exact H]. unfold initial_stride. lia.
Qed.

Lemma find_rest_loop_bounded (fuel : nat) (stride : Z) (all_spots : list Z)
      (prev_measured : measurements) (w w' : world) (rest_spots : list Z) :
  2 <= stride < 2 ^ 64 -> make_spots stride = Some all_spots ->
  find_rest_loop a_begin cbrt fuel initial_stride stride all_spots prev_measured w
    = Some (rest_spots, w') ->
  Forall (fun y => 0 <= y <= 32768) rest_spots.
Proof.
  revert stride all_spots prev_measured w.
  induction fuel as [|fuel IH]; intros stride all_spots prev_measured w Hs Hm H;
    [discriminate|].
  cbn [find_rest_loop] in H.
  apply bind_inv in H. destruct H as (new_measured & w1 & _ & H).
  apply bind_inv in H. destruct H as (d & w2 & Hd & H).
  apply lift_inv in Hd.
  destruct (fst d <? snd d)%float eqn:E.
  - apply lift_inv in H.
    destruct all_spots as [|x l].
    { inversion Hd; subst d. discriminate E. }
    destruct (make_spots_head stride x l ltac:(lia) Hm) as (_ & Hle).
    rewrite (wrap64_small (stride * 2)) in H by lia.
    unfold initial_stride in H.
    apply (scale_spots_range (stride * 2) 32768 (x :: l)); [lia | | exact H].
    eapply Forall_impl; [|exact (make_spots_range stride _ ltac:(lia) Hm)].
    cbv beta. intros k [Hk1 Hk2].
    rewrite Z.div_mul by lia.
    assert (0 <= stride / 2) by (apply Z.div_pos; lia).
    assert (stride / 2 * 2 <= stride) by (rewrite Z.mul_comm; apply Z.mul_div_le; lia).
    nia.
  - apply bind_inv in H. destruct H as (all_spots' & w3 & Hm' & H).
    apply lift_inv in Hm'.
    refine (IH _ _ _ _ _ Hm' H).
    pose proof (wrap64_range (stride * 2)) as Hr.
    assert (Hne : wrap64 (stride * 2) <> 0).
    { intros E0. rewrite E0 in Hm'. discriminate Hm'. }
    unfold wrap64 in *.
    pose proof (Z.div_mod (stride * 2) (2 ^ 64) ltac:(lia)). lia.
Qed.

(** The spots [find_rest_spots] returns are at most [max_discover_mem]. *)
Lemma find_rest_spots_bounded (fuel : nat) (w w' : world) (rest_spots : list Z) :
  find_rest_spots a_begin cbrt fuel initial_stride w = Some (rest_spots, w') ->
  Forall (fun y => 0 <= y <= 32768) rest_spots.
Proof.
  unfold find_rest_spots. intros H.
  apply bind_inv in H. destruct H as (all_spots & w1 & Hm & H). apply lift_inv in Hm.
  apply bind_inv in H. destruct H as (prev_measured & w2 & _ & H).
  eapply find_rest_loop_bounded; [|exact Hm|exact H]. unfold initial_stride. lia.
Qed.

End RestSpots.

(** ** What [main] prints *)

Lemma chars_app (s1 s2 : string) :
  list_ascii_of_string (s1 ++ s2) = list_ascii_of_string s1 ++ list_ascii_of_string s2.
Proof. induction s1 as [|c s1 IH]; simpl; [reflexivity | now rewrite IH]. Qed.

Lemma digits_string_of_uint (d : Decimal.uint) :
  Forall (fun c => is_digit c = true) (list_ascii_of_string (NilEmpty.string_of_uint d)).
Proof. induction d; simpl; constructor; auto. Qed.

Lemma digits_dec (n : Z) : digits (dec n).
Proof.
  unfold dec, digits, NilZero.string_of_uint.
  destruct (N.to_uint (Z.to_N n)) as [|d|d|d|d|d|d|d|d|d|d];
    (split; [discriminate|]);
    try (apply (digits_string_of_uint (Decimal.D0 d)));
    try (apply (digits_string_of_uint (Decimal.D1 d)));
    try (apply (digits_string_of_uint (Decimal.D2 d)));
    try (apply (digits_string_of_uint (Decimal.D3 d)));
    try (apply (digits_string_of_uint (Decimal.D4 d)));
    try (apply (digits_string_of_uint (Decimal.D5 d)));
    try (apply (digits_string_of_uint (Decimal.D6 d)));
    try (apply (digits_string_of_uint (Decimal.D7 d)));
    try (apply (digits_string_of_uint (Decimal.D8 d)));
    try (apply (digits_string_of_uint (Decimal.D9 d))).
  repeat constructor.
Qed.

Lemma digits_no_newline (s : string) :
  digits s -> ~ In (ascii_of_nat 10) (list_ascii_of_string s).
Proof.
  intros [_ H] Hin. rewrite Forall_forall in H. specialize (H _ Hin). discriminate H.
Qed.

Lemma summary_one_line (f1 f2 f3 : string) :
  digits f1 -> digits f2 -> digits f3 ->
  list_ascii_of_string
    ("associativity=" ++ f1 ++ " cache_size=" ++ f2 ++ " cache_line_size=" ++ f3 ++ newline)
  = list_ascii_of_string (summary_line f1 f2 f3) ++ [ascii_of_nat 10] /\
  ~ In (ascii_of_nat 10) (list_ascii_of_string (summary_line f1 f2 f3)).
Proof.
  intros H1 H2 H3. unfold summary_line. rewrite !chars_app. split.
  - rewrite <- !app_assoc. reflexivity.
  - rewrite !in_app_iff.
    pose proof (digits_no_newline _ H1) as N1.
    pose proof (digits_no_newline _ H2) as N2.
    pose proof (digits_no_newline _ H3) as N3.
    intros [H|[H|[H|[H|[H|H]]]]]; try contradiction;
      simpl in H; repeat (destruct H as [H|H]; [discriminate H|]); exact H.
Qed.

Lemma summary_spec (front : Z) (tail : list Z) (jump cache_line_size : Z) :
  1 <= front -> 0 <= jump <= 32768 -> 1 <= cache_line_size <= 64 ->
  summary (front :: tail) jump cache_line_size =
    Some ("associativity=" ++ dec (jump / front)
          ++ " cache_size=" ++ dec (jump * initial_stride * sizeof_uint64)
          ++ " cache_line_size=" ++ dec (cache_line_size * sizeof_uint64)
          ++ newline)%string.
Proof.
  intros H Hj Hc. unfold summary, udiv. cbn [hd_error].
  destruct (front =? 0) eqn:E; [apply Z.eqb_eq in E; lia|].
  unfold initial_stride, sizeof_uint64.
  rewrite (wrap64_small (jump * 2)) by lia.
  rewrite (wrap64_small (jump * 2 * 8)) by lia.
  rewrite (wrap64_small (cache_line_size * 8)) by lia.
  reflexivity.
Qed.

(** ** What [find_jump] and [find_cache_line_size] can return *)

Lemma jump_loop_in (measured : measurements) (search_spots : list Z)
      (smooth_suffix : list duration) (idx : list Z) (jump : Z) :
  jump_loop measured search_spots smooth_suffix idx = Some jump ->
  jump = 0 \/ In jump search_spots.
Proof.
  induction idx as [|i idx IH]; cbn [jump_loop]; intros H.
  - left. now injection H.
  - destruct (at_ search_spots i) as [spots|] eqn:Ei; [|discriminate].
    destruct (sum (measured spots)); [|discriminate].
    destruct (at_ search_spots (i + 1)) as [next|]; [|discriminate].
    destruct (sum (measured next)); [|discriminate].
    destruct (at_ smooth_suffix (i + 1)); [|discriminate].
    destruct (jump_test _ _ _); [|now apply IH].
    injection H as <-. right. unfold at_ in Ei.
    destruct (i <? 0); [discriminate|]. eapply nth_error_In. exact Ei.
Qed.

Lemma find_jump_in (a_begin stride : Z) (search_spots : list Z) (w w' : world) (jump : Z) :
  find_jump a_begin stride search_spots w = Some (jump, w') ->
  jump = 0 \/ In jump search_spots.
Proof.
  unfold find_jump. intros H.
  apply bind_inv in H. destruct H as (measured & w1 & _ & H). apply lift_inv in H.
  unfold find_jump_scan in H.
  destruct (totals measured search_spots); [|discriminate].
  destruct (smooth _); [|discriminate].
  eapply jump_loop_in. exact H.
Qed.

Lemma sweep_over_length (a_begin : Z) (strides : list Z) :
  forall (results results' : list duration) (w w' : world),
    sweep_over a_begin strides results w = Some (results', w') ->
    List.length results' = (List.length results + List.length strides)%nat.
Proof.
  induction strides as [|stride strides IH]; intros results results' w w' H.
  - injection H as <- _. simpl. lia.
  - cbn [sweep_over] in H.
    apply bind_inv in H. destruct H as (spots & w1 & _ & H).
    apply bind_inv in H. destruct H as (measured & w2 & _ & H).
    apply bind_inv in H. destruct H as (result & w3 & _ & H).
    apply IH in H. rewrite H, length_app. simpl. lia.
Qed.

(** The stride [find_cache_line_size] returns is between 1 and 64. *)
Lemma find_cache_line_size_range (a_begin : Z) (w w' : world) (cache_line_size : Z) :
  find_cache_line_size a_begin w = Some (cache_line_size, w') ->
  1 <= cache_line_size <= 64.
Proof.
  unfold find_cache_line_size. intros H.
  apply bind_inv in H. destruct H as (results & w1 & Hsweep & H). apply lift_inv in H.
  pose proof (sweep_strides a_begin w) as Hs. rewrite Hs in Hsweep. clear Hs.
  apply sweep_over_length in Hsweep. cbn [List.length Nat.add] in Hsweep.
  destruct (cache_line_scan_spec results) as (c & Hc & Hwhich).
  assert (c = cache_line_size) by congruence. subst c. clear H Hc.
  rewrite Hsweep in Hwhich.
  destruct Hwhich as [[-> _]|(i & Hi & -> & _)]; [lia|].
  assert (Ei : (i = 1 \/ i = 2 \/ i = 3 \/ i = 4 \/ i = 5 \/ i = 6)%nat) by lia.
  destruct Ei as [-> | [-> | [-> | [-> | [-> | ->]]]]];
    vm_compute; split; intros E; discriminate E.
Qed.

(** ** The run of [main] *)

Lemma main_line (a_begin : Z) (cbrt : float -> float) (fuel : nat) (w w1 w2 w3 : world)
      (rest_spots : list Z) (jump cache_line_size : Z) :
  find_rest_spots a_begin cbrt fuel initial_stride w = Some (rest_spots, w1) ->
  find_jump a_begin initial_stride rest_spots w1 = Some (jump, w2) ->
  find_cache_line_size a_begin w2 = Some (cache_line_size, w3) ->
  exists front,
    hd_error rest_spots = Some front /\ 1 <= front /\
    main a_begin cbrt fuel w =
      Some (("associativity=" ++ dec (jump / front)
             ++ " cache_size=" ++ dec (jump * initial_stride * sizeof_uint64)
             ++ " cache_line_size=" ++ dec (cache_line_size * sizeof_uint64)
             ++ newline)%string, w3).
Proof.
  intros Hrest Hjump Hsize.
  pose proof (find_rest_spots_bounded _ _ _ _ _ _ Hrest) as Hb.
  destruct (find_rest_spots_front _ _ _ _ _ _ Hrest) as (front & tail & -> & Hfront).
  assert (Hj : 0 <= jump <= 32768).
  { destruct (find_jump_in _ _ _ _ _ _ Hjump) as [->|Hin]; [lia|].
    rewrite Forall_forall in Hb. now apply Hb. }
  pose proof (find_cache_line_size_range _ _ _ _ Hsize) as Hc.
  exists front. split; [reflexivity|]. split; [assumption|].
  unfold main.
  rewrite (bind_some _ _ _ _ _ Hrest), (bind_some _ _ _ _ _ Hjump),
          (bind_some _ _ _ _ _ Hsize).
  now rewrite (summary_spec _ _ _ _ Hfront Hj Hc).
Qed.

(** C3: when the program completes, what it has written to the standard
    output is the one line [associativity=A cache_size=S cache_line_size=L]
    and a newline, the three fields being separated by one space each and
    [A], [S] and [L] decimal numbers: [A] is [jump / rest_spots.front()],
    [S] is [jump * initial_stride * 8] and [L] is [cache_line_size * 8],
    where [rest_spots], [jump] and [cache_line_size] are what
    [find_rest_spots], [find_jump] and [find_cache_line_size] returned, in
    this order. *)
Theorem main_prints_summary
        (a_begin : Z) (cbrt : float -> float) (fuel : nat) (w w' : world) (out : string) :
  main a_begin cbrt fuel w = Some (out, w') ->
  exists (rest_spots : list Z) (front jump cache_line_size : Z) (w1 w2 : world),
    find_rest_spots a_begin cbrt fuel initial_stride w = Some (rest_spots, w1) /\
    find_jump a_begin initial_stride rest_spots w1 = Some (jump, w2) /\
    find_cache_line_size a_begin w2 = Some (cache_line_size, w') /\
    hd_error rest_spots = Some front /\ 1 <= front /\
    initial_stride = 2 /\ sizeof_uint64 = 8 /\
    let f1 := dec (jump / front) in
    let f2 := dec (jump * initial_stride * sizeof_uint64) in
    let f3 := dec (cache_line_size * sizeof_uint64) in
    out = ("associativity=" ++ f1 ++ " cache_size=" ++ f2
           ++ " cache_line_size=" ++ f3 ++ newline)%string /\
    digits f1 /\ digits f2 /\ digits f3 /\
    list_ascii_of_string out
      = list_ascii_of_string (summary_line f1 f2 f3) ++ [ascii_of_nat 10] /\
    ~ In (ascii_of_nat 10) (list_ascii_of_string (summary_line f1 f2 f3)).
Proof.
  unfold main. intros H.
  apply bind_inv in H. destruct H as (rest_spots & w1 & Hrest & H).
  apply bind_inv in H. destruct H as (jump & w2 & Hjump & H).
  apply bind_inv in H. destruct H as (cache_line_size & w3 & Hsize & H).
  pose proof (find_rest_spots_bounded _ _ _ _ _ _ Hrest) as Hb.
  destruct (find_rest_spots_front _ _ _ _ _ _ Hrest) as (front & tail & -> & Hfront).
  assert (Hj : 0 <= jump <= 32768).
  { destruct (find_jump_in _ _ _ _ _ _ Hjump) as [->|Hin]; [lia|].
    rewrite Forall_forall in Hb. now apply Hb. }
  pose proof (find_cache_line_size_range _ _ _ _ Hsize) as Hc.
  rewrite (summary_spec _ _ _ _ Hfront Hj Hc) in H. cbn [lift] in H.
  injection H as <- <-.
  exists (front :: tail), front, jump, cache_line_size, w1, w2.
  do 3 (split; [assumption|]).
  split; [reflexivity|]. split; [assumption|].
  split; [reflexivity|]. split; [reflexivity|].
  cbn zeta.
  split; [reflexivity|].
  split; [apply digits_dec|]. split; [apply digits_dec|]. split; [apply digits_dec|].
  apply summary_one_line; apply digits_dec.
Qed.

Lemma main_prints_summary_witness :
  exists (w' : world) (front jump cache_line_size : Z),
    main 4096 newton_cbrt 1 (world_with_clock (example_samples step_at_512))
      = Some (("associativity=256 cache_size=4096 cache_line_size=64" ++ newline)%string, w') /\
    ("associativity=256 cache_size=4096 cache_line_size=64" ++ newline)%string
      = ("associativity=" ++ dec (jump / front)
         ++ " cache_size=" ++ dec (jump * initial_stride * sizeof_uint64)
         ++ " cache_line_size=" ++ dec (cache_line_size * sizeof_uint64)
         ++ newline)%string.
Proof.
  set (w := world_with_clock (example_samples step_at_512)).
  set (out := ("associativity=256 cache_size=4096 cache_line_size=64" ++ newline)%string).
  destruct (main_follows_clock 4096 newton_cbrt 1 w out) as [w' Hmain].
  { vm_compute. reflexivity. }
  destruct (main_prints_summary 4096 newton_cbrt 1 w w' out Hmain)
    as (rest_spots & front & jump & cache_line_size & w1 & w2 & _ & _ & _ & _ & _ & _ & _
        & Hout & _).
  exists w', front, jump, cache_line_size. split; [exact Hmain | exact Hout].
Defined.

(** ** No jump found *)

Lemma totals_total (measured : measurements) (spots : list Z) :
  (forall s, In s spots -> measured s <> []) ->
  totals measured spots = Some (map (total measured) spots).
Proof.
  induction spots as [|s spots IH]; intros H; [reflexivity|].
  cbn [totals map]. rewrite sum_total by (apply H; now left).
  now rewrite IH by (intros k Hk; apply H; now right).
Qed.

Lemma median_defined (container : list duration) :
  container <> [] -> exists result, median container = Some result.
Proof.
  intros Hne. unfold median.
  destruct (nth_error (sort container) _) as [result|] eqn:E; [now exists result|].
  apply nth_error_None in E. rewrite (Permutation_length (sort_perm container)) in E.
  assert (Hlen : (0 < List.length container)%nat).
  { destruct container; [contradiction | simpl; lia]. }
  exfalso. revert E Hlen. generalize (List.length container). intros n E Hlen.
  assert (H : Z.of_nat n / 2 < Z.of_nat n) by (apply Z.div_lt; lia).
  assert (H0 : 0 <= Z.of_nat n / 2) by (apply Z.div_pos; lia).
  lia.
Qed.

Lemma sweep_over_runs (a_begin : Z) (strides : list Z) :
  forallb (fun stride => match udiv max_check_mem stride with
                         | Some spots => fit stride [spots]
                         | None => false
                         end) strides = true ->
  forall (results : list duration) (w : world),
  exists results' w', sweep_over a_begin strides results w = Some (results', w').
Proof.
  induction strides as [|stride strides IH]; intros Hfit results w.
  - now exists results, w.
  - cbn [forallb] in Hfit. apply andb_true_iff in Hfit. destruct Hfit as [Hs Hrest].
    cbn [sweep_over].
    destruct (udiv max_check_mem stride) as [spots|]; [|discriminate].
    unfold bind at 1. cbn [lift].
    destruct (measure_lookbehind_follows_clock a_begin stride [spots] w
                (fst (record_iterations (clock w) (Z.to_nat iterations) [spots]
                        (no_measurements, walks w)))
                (snd (record_iterations (clock w) (Z.to_nat iterations) [spots]
                        (no_measurements, walks w))))
      as (w1 & Hrun & _).
    { unfold measure_clock. rewrite Hs. now rewrite <- surjective_pairing. }
    rewrite (bind_some _ _ _ _ _ Hrun).
    destruct (median_defined (fst (record_iterations (clock w) (Z.to_nat iterations)
                                     [spots] (no_measurements, walks w)) spots))
      as [result Hmed].
    { eapply measure_nonempty; [exact Hrun | now left]. }
    rewrite Hmed. unfold bind at 1. cbn [lift].
    apply IH. exact Hrest.
Qed.

(** [find_cache_line_size] has no precondition: its patterns fit the arena. *)
Lemma find_cache_line_size_runs (a_begin : Z) (w : world) :
  exists cache_line_size w', find_cache_line_size a_begin w = Some (cache_line_size, w').
Proof.
  unfold find_cache_line_size, bind.
  pose proof (sweep_strides a_begin w) as Hs. rewrite Hs. clear Hs.
  destruct (sweep_over_runs a_begin [2; 4; 8; 16; 32; 64; 128] eq_refl [] w)
    as (results & w' & Hrun).
  rewrite Hrun. clear Hrun.
  destruct (cache_line_scan_spec results) as (c & Hc & _).
  exists c, w'. unfold lift. now rewrite Hc.
Qed.

(** C9: when no position passes the two tests, [find_jump] returns 0; and
    when [find_jump] has returned 0, the program completes, and the line it
    prints starts with [associativity=0 cache_size=0]: the sequence
    [find_rest_spots] returned starts with a non-zero value, which 0 is
    divided by, and [find_cache_line_size] always returns. *)
Theorem find_jump_sentinel_prints_zero (a_begin : Z) (cbrt : float -> float) :
  (forall stride search_spots measured w w',
     search_spots <> [] -> vec_size search_spots < 2 ^ 64 ->
     measure stride search_spots (measure_shuffled a_begin) w = Some (measured, w') ->
     let sums := map (total measured) search_spots in
     (forall i, (S i < List.length search_spots)%nat ->
        ((1.045 <=? nth (S i) sums 0 / nth i sums 0) &&
         (1.12 <=? nth (S i) (smooth_rec sums) 0 / nth i sums 0))%float = false) ->
     find_jump a_begin stride search_spots w = Some (0, w')) /\
  (forall fuel w rest_spots w1 w2,
     find_rest_spots a_begin cbrt fuel initial_stride w = Some (rest_spots, w1) ->
     find_jump a_begin initial_stride rest_spots w1 = Some (0, w2) ->
     (exists front, hd_error rest_spots = Some front /\ 1 <= front /\ 0 / front = 0) /\
     exists cache_line_size w3,
       find_cache_line_size a_begin w2 = Some (cache_line_size, w3) /\
       main a_begin cbrt fuel w =
         Some (("associativity=0 cache_size=0 cache_line_size="
                ++ dec (cache_line_size * sizeof_uint64) ++ newline)%string, w3)).
Proof.
  split.
  - intros stride search_spots measured w w' Hne Hsize Hrun sums Hnone.
    assert (Ht : totals measured search_spots = Some sums).
    { apply totals_total. intros s Hs. eapply measure_nonempty; eauto. }
    unfold find_jump. rewrite (bind_some _ _ _ _ _ Hrun).
    unfold lift. rewrite (find_jump_scan_spec _ _ _ Hne Hsize Ht).
    destruct (first_jump_first search_spots sums)
      as [(i & Hi & _ & Hp & _)|[-> _]]; [|reflexivity].
    cbv beta in Hp. rewrite Hnone in Hp by assumption. discriminate Hp.
  - intros fuel w rest_spots w1 w2 Hrest Hjump.
    destruct (find_cache_line_size_runs a_begin w2) as (cache_line_size & w3 & Hsize).
    destruct (main_line _ _ _ _ _ _ _ _ _ _ Hrest Hjump Hsize)
      as (front & Hhd & Hfront & Hline).
    assert (H0 : 0 / front = 0) by (apply Z.div_0_l; lia).
    split.
    + exists front. split; [assumption|]. split; assumption.
    + exists cache_line_size, w3. split; [exact Hsize|].
      rewrite Hline, H0. reflexivity.
Qed.

Lemma find_jump_sentinel_prints_zero_witness :
  (exists w', find_jump 4096 2 [1; 2] (world_with_clock [1.0; 1.0]%float) = Some (0, w')) /\
  (exists (cache_line_size : Z) (w' : world),
     main 4096 newton_cbrt 1 (world_with_clock (example_samples flat))
       = Some (("associativity=0 cache_size=0 cache_line_size="
                ++ dec (cache_line_size * sizeof_uint64) ++ newline)%string, w')).
Proof.
  destruct (find_jump_sentinel_prints_zero 4096 newton_cbrt) as [Hzero Hmain].
  split.
  - set (w := world_with_clock [1.0; 1.0]%float).
    set (r := measure 2 [1; 2] (measure_shuffled 4096) w).
    set (measured := match r with Some (m, _) => m | None => no_measurements end).
    set (w' := match r with Some (_, w1) => w1 | None => w end).
    assert (Hrun : measure 2 [1; 2] (measure_shuffled 4096) w = Some (measured, w')).
    { vm_compute. reflexivity. }
    exists w'. apply (Hzero 2 [1; 2] measured w w'); [discriminate | reflexivity | exact Hrun |].
    intros i Hi. assert (i = 0%nat) by (simpl in Hi; lia). subst i.
    vm_compute. reflexivity.
  - set (w := world_with_clock (example_samples flat)).
    set (r1 := find_rest_spots_clock newton_cbrt (clock w) 1 initial_stride (walks w)).
    set (rest_spots := match r1 with Some (l, _) => l | None => [] end).
    set (t1 := match r1 with Some (_, t) => t | None => O end).
    assert (E1 : find_rest_spots_clock newton_cbrt (clock w) 1 initial_stride (walks w)
                 = Some (rest_spots, t1)) by (vm_compute; reflexivity).
    destruct (find_rest_spots_follows_clock 4096 newton_cbrt 1 initial_stride w _ _ E1)
      as (w1 & Hrun1 & Hc1 & Hw1).
    set (r2 := find_jump_clock (clock w) t1 initial_stride rest_spots).
    set (t2 := match r2 with Some (_, t) => t | None => O end).
    assert (E2 : find_jump_clock (clock w1) (walks w1) initial_stride rest_spots
                 = Some (0, t2)) by (rewrite Hc1, Hw1; vm_compute; reflexivity).
    destruct (find_jump_follows_clock 4096 initial_stride rest_spots w1 _ _ E2)
      as (w2 & Hrun2 & _).
    destruct (Hmain 1%nat w rest_spots w1 w2 Hrun1 Hrun2)
      as (_ & cache_line_size & w3 & _ & Hout).
    exists cache_line_size, w3. exact Hout.
Defined.

(** ** Chases in a closed set of slots *)

Lemma chase_closed (a_begin : Z) (S : Z -> Prop) (w : world) :
  closed a_begin S (a_mem w) ->
  forall (n : nat) (s : Z), S s ->
    exists visited last,
      chase a_begin n (addr_of a_begin s) w = Some ((visited, addr_of a_begin last), w) /\
      S last /\ List.length visited = n /\
      Forall (points_into a_begin S) visited.
Proof.
  intros Hc. induction n as [|n IH]; intros s Hs.
  - exists [], s. repeat split; [assumption | constructor].
  - destruct (Hc s Hs) as (Hin & t & Ht & Hm).
    destruct (IH t Ht) as (visited & last & Hrun & Hlast & Hlen & Hall).
    exists (addr_of a_begin s :: visited), last.
    split; [|split; [assumption|split; [simpl; now rewrite Hlen|]]].
    + cbn [chase].
      assert (Hd : deref a_begin (addr_of a_begin s) w = Some (addr_of a_begin t, w)).
      { unfold deref, bind, lift. rewrite slot_of_addr_of by assumption.
        unfold a_get. assert (E : in_arena s = true) by now apply in_arena_iff.
        now rewrite E, Hm. }
      rewrite (bind_some _ _ _ _ _ Hd), (bind_some _ _ _ _ _ Hrun). reflexivity.
    + constructor; [now exists s | assumption].
Qed.

Lemma closed_union (a_begin : Z) (S T : Z -> Prop) (m : Z -> Z) :
  closed a_begin S m -> closed a_begin T m -> closed a_begin (fun j => S j \/ T j) m.
Proof.
  intros HS HT s [Hs|Hs].
  - destruct (HS s Hs) as (Hin & t & Ht & Hm). split; [assumption|]. exists t. auto.
  - destruct (HT s Hs) as (Hin & t & Ht & Hm). split; [assumption|]. exists t. auto.
Qed.

(** ** The pattern of [measure_shuffled] *)

Lemma addr_of_range (a_begin j : Z) : 0 <= addr_of a_begin j < 2 ^ 64.
Proof. apply wrap64_range. Qed.

Lemma addr_of_half (a_begin j h : Z) :
  wrap64 (addr_of a_begin j + wrap64 (h * sizeof_uint64)) = addr_of a_begin (j + h).
Proof.
  unfold addr_of, wrap64. rewrite <- Zplus_mod. f_equal. unfold sizeof_uint64. ring.
Qed.

Section ShuffledPattern.

Variable a_begin : Z.
Variables stride spots : Z.
Hypothesis stride_pos : 1 <= stride.
Hypothesis spots_pos : 1 <= spots.
Hypothesis fits : spots * stride <= a_size.

Lemma half_not_anchor (i k : Z) :
  0 <= i < spots -> 0 <= k < spots ->
  i * stride + stride / 2 = k * stride -> stride / 2 = 0 /\ i = k.
Proof.
  intros Hi Hk E.
  assert (0 <= stride / 2 < stride).
  { split; [apply Z.div_pos; lia | apply Z.div_lt_upper_bound; lia]. }
  assert (i = k) by nia. subst. lia.
Qed.

Lemma half_inj (i k : Z) :
  i * stride + stride / 2 = k * stride + stride / 2 -> i = k.
Proof. intros E. nia. Qed.

(** The loop of lines 132-135 over the indices [l], started with the
    anchors as in [m0]. *)
Lemma half_loop_run (m0 : Z -> Z) (l : list Z) :
  (forall k, 0 <= k < spots -> 0 <= m0 (k * stride) < 2 ^ 64) ->
  Forall (fun i => 0 <= i < spots) l ->
  forall w, (forall k, 0 <= k < spots -> a_mem w (k * stride) = m0 (k * stride)) ->
  exists w',
    for_each l (fun i =>
      v <- a_get (wrap64 (i * stride)) ;;
      a_set (wrap64 (wrap64 (i * stride) + stride / 2))
            (wrap64 (v + wrap64 (stride / 2 * sizeof_uint64)))) w = Some (tt, w') /\
    rng_seed w' = rng_seed w /\ clock w' = clock w /\ walks w' = walks w /\
    (forall k, 0 <= k < spots -> a_mem w' (k * stride) = m0 (k * stride)) /\
    (forall k, In k l ->
       a_mem w' (k * stride + stride / 2)
         = wrap64 (m0 (k * stride) + wrap64 (stride / 2 * sizeof_uint64))) /\
    (forall j, (forall k, In k l -> j <> k * stride + stride / 2) -> a_mem w' j = a_mem w j).
Proof.
  intros Hm0 Hl. induction Hl as [|i l Hi Hl IH]; intros w Hw.
  - exists w. split; [reflexivity|]. repeat split; try assumption.
    intros k [].
  - destruct (anchor_slot stride spots stride_pos fits i Hi) as (Ew & Hin & _).
    destruct (half_slot stride spots stride_pos spots_pos fits i Hi) as (Ew' & Hin').
    set (val := wrap64 (m0 (i * stride) + wrap64 (stride / 2 * sizeof_uint64))).
    set (w1 := mk_world (upd (a_mem w) (i * stride + stride / 2) val)
                        (rng_seed w) (clock w) (walks w)).
    assert (Hbody : (v <- a_get (wrap64 (i * stride)) ;;
                     a_set (wrap64 (wrap64 (i * stride) + stride / 2))
                           (wrap64 (v + wrap64 (stride / 2 * sizeof_uint64)))) w
                    = Some (tt, w1)).
    { rewrite Ew, Ew'. unfold bind, a_get, a_set. rewrite Hin, Hin'.
      rewrite Hw by assumption. reflexivity. }
    destruct (IH w1) as (w' & Hrun & Hs & Hc & Hk & Hanch & Hhalf & Hoth).
    { intros k Hk. cbn [w1 a_mem]. unfold upd.
      destruct (k * stride =? i * stride + stride / 2) eqn:E.
      - apply Z.eqb_eq in E. symmetry in E.
        destruct (half_not_anchor i k Hi Hk E) as [Hz ->].
        unfold val. rewrite Hz. change (wrap64 (0 * sizeof_uint64)) with 0.
        rewrite Z.add_0_r. apply wrap64_small. now apply Hm0.
      - now apply Hw. }
    exists w'. cbn [for_each]. rewrite (bind_some _ _ _ _ _ Hbody).
    split; [exact Hrun|].
    split; [exact Hs|]. split; [exact Hc|]. split; [exact Hk|].
    split; [exact Hanch|]. split.
    + intros k [<-|Hk']; [|now apply Hhalf].
      destruct (In_dec Z.eq_dec i l) as [Hil|Hil]; [now apply Hhalf|].
      rewrite Hoth.
      * cbn [w1 a_mem]. now rewrite upd_same.
      * intros k Hk' E. apply half_inj in E. now subst.
    + intros j Hj. rewrite Hoth by (intros k Hk'; apply Hj; now right).
      cbn [w1 a_mem]. apply upd_other. apply Hj. now left.
Qed.

Lemma anchor_addresses_permutation :
  Permutation (map (fun i => addr_of a_begin ((i + 1) mod spots * stride)) (upto spots))
              (map (fun k => addr_of a_begin (k * stride)) (upto spots)).
Proof.
  pose proof (rotation_permutation spots spots_pos (1 mod spots)) as H.
  assert (E : map (fun i => addr_of a_begin ((i + 1) mod spots * stride)) (upto spots)
              = map (fun k => addr_of a_begin (k * stride))
                    (map (fun t => (1 mod spots + t) mod spots) (upto spots))).
  { rewrite map_map. apply map_ext. intros t.
    rewrite Zplus_mod_idemp_l. do 3 f_equal. ring. }
  rewrite E. apply Permutation_map. apply H. apply Z.mod_pos_bound. lia.
Qed.

(** What [shuffled_pattern] leaves in the arena. *)
Lemma shuffled_pattern_run (w : world) :
  exists w1,
    shuffled_pattern a_begin stride spots w = Some (tt, w1) /\
    clock w1 = clock w /\ walks w1 = walks w /\
    Permutation (anchors stride spots (a_mem w1))
                (map (fun k => addr_of a_begin (k * stride)) (upto spots)) /\
    (forall k, 0 <= k < spots ->
       a_mem w1 (k * stride + stride / 2)
         = wrap64 (a_mem w1 (k * stride) + wrap64 (stride / 2 * sizeof_uint64))) /\
    (forall j, ~ is_anchor stride spots j -> ~ is_half stride spots j ->
               a_mem w1 j = a_mem w j).
Proof.
  pose proof (spots_small stride spots stride_pos fits) as Hsmall.
  pose proof a_size_value as Ha.
  assert (Hfit' : (spots - 1) * stride < a_size) by nia.
  unfold shuffled_pattern.
  rewrite (bind_some _ _ _ _ _
             (create_forward_chain_run a_begin stride spots stride_pos spots_pos fits w)).
  set (wc := mk_world (chain_mem a_begin stride spots (a_mem w)) _ _ _).
  rewrite (bind_some _ _ _ _ _
             (shuffle_run stride spots ltac:(lia) ltac:(lia) Hfit' wc)).
  set (ws := mk_world _ _ _ _).
  assert (Hperm : Permutation (anchors stride spots (a_mem ws))
                    (map (fun k => addr_of a_begin (k * stride)) (upto spots))).
  { cbn [ws a_mem].
    rewrite (apply_swaps_anchors stride spots) by (try lia; now apply picks_in_range).
    cbn [wc a_mem]. rewrite <- anchor_addresses_permutation.
    apply Permutation_refl'. unfold anchors. apply map_ext_in.
    intros i Hi. apply in_upto in Hi. now apply chain_mem_anchor. }
  assert (Hrange : forall k, 0 <= k < spots -> 0 <= a_mem ws (k * stride) < 2 ^ 64).
  { intros k Hk.
    assert (Hin : In (a_mem ws (k * stride)) (anchors stride spots (a_mem ws))).
    { unfold anchors. apply in_map_iff. exists k. split; [reflexivity | now apply in_upto]. }
    apply (Permutation_in _ Hperm) in Hin. apply in_map_iff in Hin.
    destruct Hin as (t & <- & _). apply addr_of_range. }
  destruct (half_loop_run (a_mem ws) (upto spots) Hrange) with (w := ws)
    as (w1 & Hrun & _ & Hc & Hk & Hanch & Hhalf & Hoth).
  { apply Forall_forall. intros i Hi. now apply in_upto. }
  { reflexivity. }
  exists w1. split; [exact Hrun|].
  split; [exact Hc|]. split; [exact Hk|]. split.
  - rewrite <- Hperm. apply Permutation_refl'. unfold anchors. apply map_ext_in.
    intros i Hi. apply in_upto in Hi. now apply Hanch.
  - split.
    + intros k Hk'. rewrite Hhalf by now apply in_upto. now rewrite Hanch.
    + intros j Hja Hjh. rewrite Hoth.
      * cbn [ws a_mem]. rewrite (apply_swaps_other stride spots).
        -- cbn [wc a_mem]. apply chain_mem_other; try assumption.
           intros i Hi E. apply Hja. now exists i.
        -- intros i Hi E. apply Hja. now exists i.
        -- now apply picks_in_range.
      * intros k Hk' E. apply in_upto in Hk'. apply Hjh. now exists k.
Qed.

End ShuffledPattern.

(** X1: [measure_shuffled] builds a pattern the chases of [measure_walk]
    never leave.  For [stride >= 1] and [spots >= 1] with [spots * stride]
    slots inside the arena the pattern is built; the anchors then hold the
    addresses of the anchors, each one once; the slot half a stride after
    an anchor holds the address half a stride after the one its anchor
    holds; no other slot has changed; and both chases of [measure_walk] are
    defined: the first visits anchors only, the timed one, which starts half
    a stride into the arena, only slots half a stride after an anchor. *)
Theorem shuffled_walk_stays_in_pattern (a_begin stride spots : Z) (w : world) :
  1 <= stride -> 1 <= spots -> spots * stride <= a_size ->
  exists w1,
    shuffled_pattern a_begin stride spots w = Some (tt, w1) /\
    Permutation (anchors stride spots (a_mem w1))
                (map (fun k => addr_of a_begin (k * stride)) (upto spots)) /\
    (forall k, 0 <= k < spots ->
       exists t, 0 <= t < spots /\
         a_mem w1 (k * stride) = addr_of a_begin (t * stride) /\
         a_mem w1 (k * stride + stride / 2) = addr_of a_begin (t * stride + stride / 2)) /\
    (forall j, ~ is_anchor stride spots j -> ~ is_half stride spots j ->
               a_mem w1 j = a_mem w j) /\
    exists warm timed,
      walk_chases a_begin (stride / 2) w1 = Some ((warm, timed), w1) /\
      List.length warm = Z.to_nat ops /\ List.length timed = Z.to_nat ops /\
      Forall (points_into a_begin (is_anchor stride spots)) warm /\
      Forall (points_into a_begin (is_half stride spots)) timed.
Proof.
  intros Hstride Hspots Hfit.
  destruct (shuffled_pattern_run a_begin stride spots Hstride Hspots Hfit w)
    as (w1 & Hrun & _ & _ & Hperm & Hhalf & Hoth).
  assert (Hlinks : forall k, 0 <= k < spots ->
            exists t, 0 <= t < spots /\
              a_mem w1 (k * stride) = addr_of a_begin (t * stride) /\
              a_mem w1 (k * stride + stride / 2)
                = addr_of a_begin (t * stride + stride / 2)).
  { intros k Hk.
    assert (Hin : In (a_mem w1 (k * stride)) (anchors stride spots (a_mem w1))).
    { unfold anchors. apply in_map_iff. exists k. split; [reflexivity | now apply in_upto]. }
    apply (Permutation_in _ Hperm) in Hin. apply in_map_iff in Hin.
    destruct Hin as (t & Ht & Hin). apply in_upto in Hin.
    exists t. split; [assumption|]. split; [now symmetry|].
    rewrite Hhalf by assumption. rewrite <- Ht. apply addr_of_half. }
  assert (Hca : closed a_begin (is_anchor stride spots) (a_mem w1)).
  { intros s (k & Hk & ->).
    destruct (anchor_bound stride spots Hstride Hfit k Hk) as [? ?].
    split; [lia|]. destruct (Hlinks k Hk) as (t & Ht & E & _).
    exists (t * stride). split; [now exists t | exact E]. }
  assert (Hch : closed a_begin (is_half stride spots) (a_mem w1)).
  { intros s (k & Hk & ->).
    destruct (half_slot stride spots Hstride Hspots Hfit k Hk) as (_ & Hin).
    apply in_arena_iff in Hin.
    split; [assumption|]. destruct (Hlinks k Hk) as (t & Ht & _ & E).
    exists (t * stride + stride / 2). split; [now exists t | exact E]. }
  exists w1. split; [exact Hrun|]. split; [exact Hperm|]. split; [exact Hlinks|].
  split; [exact Hoth|].
  destruct (chase_closed a_begin _ w1 Hca (Z.to_nat ops) 0)
    as (warm & last1 & Hrun1 & _ & Hlen1 & Hall1).
  { exists 0. split; [lia | ring]. }
  destruct (chase_closed a_begin _ w1 Hch (Z.to_nat ops) (stride / 2))
    as (timed & last2 & Hrun2 & _ & Hlen2 & Hall2).
  { exists 0. split; [lia | ring]. }
  exists warm, timed. unfold walk_chases.
  rewrite (bind_some _ _ _ _ _ Hrun1), (bind_some _ _ _ _ _ Hrun2).
  repeat split; assumption.
Qed.

Lemma shuffled_walk_stays_in_pattern_witness :
  exists w1 warm timed,
    shuffled_pattern 4096 2 3 blank_world = Some (tt, w1) /\
    walk_chases 4096 (2 / 2) w1 = Some ((warm, timed), w1).
Proof.
  destruct (shuffled_walk_stays_in_pattern 4096 2 3 blank_world)
    as (w1 & Hrun & _ & _ & _ & warm & timed & Hwalk & _).
  - lia.
  - lia.
  - rewrite a_size_value. lia.
  - exists w1, warm, timed. split; [exact Hrun | exact Hwalk].
Defined.

(** ** The pattern of [measure_lookbehind] *)

Lemma closed_ext (a_begin : Z) (S T : Z -> Prop) (m : Z -> Z) :
  (forall j, S j <-> T j) -> closed a_begin S m -> closed a_begin T m.
Proof.
  intros E H s Hs. apply E in Hs. destruct (H s Hs) as (Hin & t & Ht & Hm).
  split; [assumption|]. exists t. split; [now apply E | assumption].
Qed.

Section LookbehindPattern.

Variable a_begin : Z.
Variables stride spots : Z.
Hypothesis stride_pos : 1 <= stride.
Hypothesis spots_pos : 1 <= spots.
Hypothesis fits : spots * stride <= a_size.

Lemma behind_slot_range (i : Z) :
  0 <= behind_slot stride spots i < a_size /\
  in_arena (behind_slot stride spots i) = true.
Proof.
  destruct (behind_index_range stride spots spots_pos i) as [Hr E].
  destruct (half_slot stride spots stride_pos spots_pos fits _ Hr) as (_ & Hin).
  rewrite E in Hin. split; [now apply in_arena_iff | assumption].
Qed.

(** One turn of the loop of lines 146-152. *)
Lemma lookbehind_turn (i : Z) (w : world) :
  0 <= i < spots ->
  (behind_index <- lift (umod (wrap64 (wrap64 (i + spots) - lookbehind_offset)) spots) ;;
   let behind := wrap64 (wrap64 (behind_index * stride) + stride / 2) in
   v <- a_get (wrap64 (i * stride)) ;;
   a_set behind v ;;;
   a_set (wrap64 (i * stride)) (addr_of a_begin behind)) w
  = Some (tt, mk_world (upd (upd (a_mem w) (behind_slot stride spots i) (a_mem w (i * stride)))
                            (i * stride) (addr_of a_begin (behind_slot stride spots i)))
                       (rng_seed w) (clock w) (walks w)).
Proof.
  intros Hi.
  destruct (behind_index_range stride spots spots_pos i) as [Hr E].
  destruct (anchor_slot stride spots stride_pos fits _ Hr) as (Ew & _ & _).
  destruct (half_slot stride spots stride_pos spots_pos fits _ Hr) as (Ew' & Hin').
  destruct (anchor_slot stride spots stride_pos fits i Hi) as (Ewi & Hini & _).
  unfold bind at 1. unfold lift, umod.
  destruct (spots =? 0) eqn:E0; [apply Z.eqb_eq in E0; lia|].
  cbv zeta. rewrite Ew, Ew', Ewi, E.
  rewrite E in Hin'.
  unfold bind, a_get, a_set. rewrite Hini, Hin'. reflexivity.
Qed.

Lemma lookbehind_loop_closed (l : list Z) :
  Forall (fun i => 0 <= i < spots) l ->
  forall (done : list Z) (w : world),
    closed a_begin (is_linked stride spots done) (a_mem w) ->
    exists w',
      for_each l (fun i =>
        behind_index <- lift (umod (wrap64 (wrap64 (i + spots) - lookbehind_offset)) spots) ;;
        let behind := wrap64 (wrap64 (behind_index * stride) + stride / 2) in
        v <- a_get (wrap64 (i * stride)) ;;
        a_set behind v ;;;
        a_set (wrap64 (i * stride)) (addr_of a_begin behind)) w = Some (tt, w') /\
      closed a_begin (is_linked stride spots (l ++ done)) (a_mem w') /\
      (forall j, ~ is_linked stride spots l j -> a_mem w' j = a_mem w j).
Proof.
  intros Hl. induction Hl as [|i l Hi Hl IH]; intros done w Hc.
  - exists w. split; [reflexivity|]. split; [exact Hc | reflexivity].
  - set (b := behind_slot stride spots i).
    set (w1 := mk_world (upd (upd (a_mem w) b (a_mem w (i * stride)))
                             (i * stride) (addr_of a_begin b))
                        (rng_seed w) (clock w) (walks w)).
    assert (Ha : is_anchor stride spots (i * stride)) by now exists i.
    assert (Hc1 : closed a_begin (is_linked stride spots (i :: done)) (a_mem w1)).
    { intros s Hs. cbn [w1 a_mem]. unfold upd.
      destruct (s =? i * stride) eqn:E1.
      - apply Z.eqb_eq in E1. subst s. split.
        + destruct (anchor_bound stride spots stride_pos fits i Hi); lia.
        + exists b. split; [|reflexivity]. right. exists i. split; [now left | reflexivity].
      - destruct (s =? b) eqn:E2.
        + apply Z.eqb_eq in E2. subst s.
          split; [apply behind_slot_range|].
          destruct (Hc (i * stride)) as (_ & t & Ht & Hm); [now left|].
          exists t. split; [|exact Hm].
          destruct Ht as [Ht|(k & Hk & ->)]; [now left|].
          right. exists k. split; [now right | reflexivity].
        + apply Z.eqb_neq in E2.
          assert (Hs' : is_linked stride spots done s).
          { destruct Hs as [Hs|(k & [<-|Hk] & ->)]; [now left | contradiction |].
            right. now exists k. }
          destruct (Hc s Hs') as (Hin & t & Ht & Hm).
          split; [assumption|]. exists t. split; [|exact Hm].
          destruct Ht as [Ht|(k & Hk & ->)]; [now left|].
          right. exists k. split; [now right | reflexivity]. }
    destruct (IH (i :: done) w1 Hc1) as (w' & Hrun & Hc' & Hoth).
    exists w'. cbn [for_each].
    rewrite (bind_some _ _ _ _ _ (lookbehind_turn i w Hi)). fold b. fold w1.
    split; [exact Hrun|]. split.
    + eapply closed_ext; [|exact Hc'].
      assert (HE : forall k, In k (l ++ i :: done) <-> In k ((i :: l) ++ done)).
      { intros k. cbn [app In]. rewrite !in_app_iff. cbn [In]. tauto. }
      intros j. unfold is_linked.
      split; (intros [H|(k & Hk & ->)]; [now left|]); right; exists k;
        (split; [now apply HE | reflexivity]).
    + intros j Hj. rewrite Hoth.
      * cbn [w1 a_mem]. rewrite !upd_other; [reflexivity | |].
        -- intros ->. apply Hj. right. exists i. split; [now left | reflexivity].
        -- intros ->. apply Hj. now left.
      * intros [H|(k & Hk & ->)]; apply Hj; [now left|].
        right. exists k. split; [now right | reflexivity].
Qed.

(** The turns [l], distinct, on anchors that still hold their links. *)
Lemma lookbehind_loop_links (l : list Z) :
  2 <= stride ->
  (forall i k, 0 <= i < spots -> 0 <= k < spots ->
               behind_slot stride spots i = behind_slot stride spots k -> i = k) ->
  NoDup l -> Forall (fun i => 0 <= i < spots) l ->
  forall w, exists w',
    for_each l (fun i =>
      behind_index <- lift (umod (wrap64 (wrap64 (i + spots) - lookbehind_offset)) spots) ;;
      let behind := wrap64 (wrap64 (behind_index * stride) + stride / 2) in
      v <- a_get (wrap64 (i * stride)) ;;
      a_set behind v ;;;
      a_set (wrap64 (i * stride)) (addr_of a_begin behind)) w = Some (tt, w') /\
    (forall i, In i l ->
       a_mem w' (i * stride) = addr_of a_begin (behind_slot stride spots i) /\
       a_mem w' (behind_slot stride spots i) = a_mem w (i * stride)) /\
    (forall j, ~ is_linked stride spots l j -> a_mem w' j = a_mem w j) /\
    (forall k, 0 <= k < spots -> ~ In k l -> a_mem w' (k * stride) = a_mem w (k * stride)).
Proof.
  intros Hstride Hinj Hnd Hl. induction Hl as [|i l Hi Hl IH]; intros w.
  - exists w. split; [reflexivity|]. split; [intros i []|]. split; reflexivity.
  - inversion Hnd as [|? ? Hil Hnd']; subst.
    assert (Hh : 0 < stride / 2 < stride).
    { split; [apply Z.div_str_pos; lia | apply Z.div_lt_upper_bound; lia]. }
    assert (Hba : forall k t, behind_slot stride spots k <> t * stride).
    { intros k t E. unfold behind_slot in E.
      set (q := wrap64 (k + spots - lookbehind_offset) mod spots) in E.
      assert (Hd : (t - q) * stride = stride / 2) by lia.
      destruct (Z_le_gt_dec (t - q) 0); nia. }
    set (b := behind_slot stride spots i).
    set (w1 := mk_world (upd (upd (a_mem w) b (a_mem w (i * stride)))
                             (i * stride) (addr_of a_begin b))
                        (rng_seed w) (clock w) (walks w)).
    destruct (IH Hnd' w1) as (w' & Hrun & Hlinks & Hoth & Hanch).
    exists w'. cbn [for_each].
    rewrite (bind_some _ _ _ _ _ (lookbehind_turn i w Hi)). fold b. fold w1.
    split; [exact Hrun|].
    assert (Hrange : forall k, In k l -> 0 <= k < spots).
    { intros k Hk. rewrite Forall_forall in Hl. now apply Hl. }
    split; [|split].
    + intros k [<-|Hk].
      * split.
        -- rewrite Hanch by assumption. cbn [w1 a_mem]. now rewrite upd_same.
        -- rewrite Hoth.
           ++ cbn [w1 a_mem]. rewrite upd_other by (fold b; apply Hba).
              fold b. now rewrite upd_same.
           ++ intros [(t & _ & E)|(t & Ht & E)]; [now apply Hba in E|].
              apply Hinj in E; [now subst | assumption | now apply Hrange].
      * destruct (Hlinks k Hk) as [E1 E2]. split; [exact E1|].
        rewrite E2. cbn [w1 a_mem]. rewrite !upd_other; [reflexivity | |].
        -- intros E. symmetry in E. now apply Hba in E.
        -- intros E. assert (k = i) by nia. now subst.
    + intros j Hj. rewrite Hoth.
      * cbn [w1 a_mem]. rewrite !upd_other; [reflexivity | |].
        -- intros ->. apply Hj. right. exists i. split; [now left | reflexivity].
        -- intros ->. apply Hj. left. now exists i.
      * intros [H|(k & Hk & ->)]; apply Hj; [now left|].
        right. exists k. split; [now right | reflexivity].
    + intros k Hk Hnk. rewrite Hanch by (try assumption; intros H; apply Hnk; now right).
      cbn [w1 a_mem]. rewrite !upd_other; [reflexivity | |].
      * intros E. symmetry in E. now apply Hba in E.
      * intros E. assert (k = i) by nia. subst. apply Hnk. now left.
Qed.

Lemma behind_slot_inj (i k : Z) :
  lookbehind_offset <= spots -> 0 <= i < spots -> 0 <= k < spots ->
  behind_slot stride spots i = behind_slot stride spots k -> i = k.
Proof.
  unfold behind_slot, lookbehind_offset. pose proof a_size_value.
  intros Hs Hi Hk E.
  rewrite !wrap64_small in E by nia.
  assert (E' : (i + spots - 16) mod spots = (k + spots - 16) mod spots) by nia.
  apply Z.cong_iff_0 in E'.
  replace (i + spots - 16 - (k + spots - 16)) with (i - k) in E' by ring.
  apply Z.mod_divide in E'; [|lia]. destruct E' as [q Hq].
  assert (q = 0) by nia. lia.
Qed.

End LookbehindPattern.

(** X2: [measure_lookbehind] builds a pattern the chases of [measure_walk]
    never leave.  For [stride >= 1] and [spots >= 1] with [spots * stride]
    slots inside the arena the pattern is built; every anchor and every slot
    the loop has stored to then holds the address of an anchor or of such a
    slot; no other slot has changed; and both chases of [measure_walk],
    which start on [&a[0]], are defined and visit only these slots. *)
Theorem lookbehind_walk_stays_in_pattern (a_begin stride spots : Z) (w : world) :
  1 <= stride -> 1 <= spots -> spots * stride <= a_size ->
  exists w1,
    lookbehind_pattern a_begin stride spots w = Some (tt, w1) /\
    closed a_begin (fun j => is_anchor stride spots j \/ is_behind stride spots j)
           (a_mem w1) /\
    (forall j, ~ is_anchor stride spots j -> ~ is_behind stride spots j ->
               a_mem w1 j = a_mem w j) /\
    exists warm timed,
      walk_chases a_begin 0 w1 = Some ((warm, timed), w1) /\
      List.length warm = Z.to_nat ops /\ List.length timed = Z.to_nat ops /\
      Forall (points_into a_begin
                (fun j => is_anchor stride spots j \/ is_behind stride spots j)) warm /\
      Forall (points_into a_begin
                (fun j => is_anchor stride spots j \/ is_behind stride spots j)) timed.
Proof.
  intros Hstride Hspots Hfit.
  pose proof (spots_small stride spots Hstride Hfit) as Hsmall.
  set (wc := mk_world (chain_mem a_begin stride spots (a_mem w))
                      (rng_seed w) (clock w) (walks w)).
  assert (Hc0 : closed a_begin (is_linked stride spots []) (a_mem wc)).
  { intros s [(k & Hk & ->)|(k & [] & _)].
    destruct (anchor_bound stride spots Hstride Hfit k Hk) as [? ?].
    split; [lia|]. exists ((k + 1) mod spots * stride). split.
    - left. exists ((k + 1) mod spots). split; [apply Z.mod_pos_bound; lia | reflexivity].
    - cbn [wc a_mem]. now apply chain_mem_anchor. }
  destruct (lookbehind_loop_closed a_begin stride spots Hstride Hspots Hfit (upto spots))
    with (done := @nil Z) (w := wc) as (w1 & Hrun & Hc & Hoth).
  { apply Forall_forall. intros i Hi. now apply in_upto. }
  { exact Hc0. }
  assert (HE : forall l j, (forall i, In i l <-> 0 <= i < spots) ->
                           is_linked stride spots l j <->
                           is_anchor stride spots j \/ is_behind stride spots j).
  { intros l j Hl. unfold is_linked, is_behind.
    split; (intros [H|(k & Hk & ->)]; [now left|]); right; exists k;
      (split; [now apply Hl | reflexivity]). }
  assert (Hc1 : closed a_begin (fun j => is_anchor stride spots j \/ is_behind stride spots j)
                       (a_mem w1)).
  { eapply closed_ext; [|exact Hc]. intros j. apply HE.
    intros i. rewrite app_nil_r. apply in_upto. }
  exists w1. split.
  { unfold lookbehind_pattern.
    rewrite (bind_some _ _ _ _ _
               (create_forward_chain_run a_begin stride spots Hstride Hspots Hfit w)).
    fold wc. apply Z.leb_gt in Hsmall. rewrite Hsmall. exact Hrun. }
  split; [exact Hc1|]. split.
  { intros j Hja Hjb. rewrite Hoth.
    - cbn [wc a_mem]. apply chain_mem_other; try assumption.
      intros i Hi E. apply Hja. now exists i.
    - intros H. apply HE in H; [tauto|]. intros i. apply in_upto. }
  destruct (chase_closed a_begin _ w1 Hc1 (Z.to_nat ops) 0)
    as (visited & last & Hchase & _ & Hlen & Hall).
  { left. exists 0. split; [lia | ring]. }
  exists visited, visited. unfold walk_chases.
  rewrite (bind_some _ _ _ _ _ Hchase), (bind_some _ _ _ _ _ Hchase).
  repeat split; assumption.
Qed.

Lemma lookbehind_walk_stays_in_pattern_witness :
  exists w1 warm timed,
    lookbehind_pattern 4096 2 3 blank_world = Some (tt, w1) /\
    walk_chases 4096 0 w1 = Some ((warm, timed), w1).
Proof.
  destruct (lookbehind_walk_stays_in_pattern 4096 2 3 blank_world)
    as (w1 & Hrun & _ & _ & warm & timed & Hwalk & _).
  - lia.
  - lia.
  - rewrite a_size_value. lia.
  - exists w1, warm, timed. split; [exact Hrun | exact Hwalk].
Defined.

(** X3: the links of the pattern of [measure_lookbehind].  For
    [stride >= 2] and [spots >= 16] with [spots * stride] slots inside the
    arena, anchor [i] points half a stride past the anchor 16 places behind
    it (counting round the [spots] anchors), and that slot points to anchor
    [i + 1], the last anchor's to anchor 0: two steps of the chase lead from
    an anchor to the next. *)
Theorem lookbehind_links (a_begin stride spots : Z) (w : world) :
  2 <= stride -> 16 <= spots -> spots * stride <= a_size ->
  exists w1,
    lookbehind_pattern a_begin stride spots w = Some (tt, w1) /\
    forall i, 0 <= i < spots ->
      let behind := (i + spots - 16) mod spots * stride + stride / 2 in
      let next := (i + 1) mod spots * stride in
      a_mem w1 (i * stride) = addr_of a_begin behind /\
      a_mem w1 behind = addr_of a_begin next /\
      chase a_begin 2 (addr_of a_begin (i * stride)) w1 =
        Some (([addr_of a_begin (i * stride); addr_of a_begin behind],
               addr_of a_begin next), w1).
Proof.
  intros Hstride Hspots Hfit.
  assert (Hstride' : 1 <= stride) by lia. assert (Hspots' : 1 <= spots) by lia.
  pose proof (spots_small stride spots Hstride' Hfit) as Hsmall.
  pose proof a_size_value as Ha.
  set (wc := mk_world (chain_mem a_begin stride spots (a_mem w))
                      (rng_seed w) (clock w) (walks w)).
  destruct (lookbehind_loop_links a_begin stride spots Hstride' Hspots' Hfit (upto spots))
    with (w := wc) as (w1 & Hrun & Hlinks & _).
  { exact Hstride. }
  { intros i k. apply behind_slot_inj; assumption. }
  { apply NoDup_upto. }
  { apply Forall_forall. intros i Hi. now apply in_upto. }
  exists w1. split.
  { unfold lookbehind_pattern.
    rewrite (bind_some _ _ _ _ _
               (create_forward_chain_run a_begin stride spots Hstride' Hspots' Hfit w)).
    fold wc. apply Z.leb_gt in Hsmall. rewrite Hsmall. exact Hrun. }
  intros i Hi behind next.
  assert (Eb : behind = behind_slot stride spots i).
  { unfold behind, behind_slot, lookbehind_offset. now rewrite wrap64_small by nia. }
  destruct (Hlinks i) as [E1 E2]; [now apply in_upto|].
  cbn [wc a_mem] in E2. rewrite chain_mem_anchor in E2 by assumption.
  rewrite <- Eb in E1, E2. fold next in E2.
  split; [exact E1|]. split; [exact E2|].
  destruct (anchor_slot stride spots Hstride' Hfit i Hi) as (_ & Hin & _).
  destruct (behind_slot_range stride spots Hstride' Hspots' Hfit i) as [Hbr Hbin].
  rewrite <- Eb in Hbr, Hbin.
  cbn [chase]. unfold deref, bind, lift, a_get, ret.
  rewrite slot_of_addr_of by (now apply in_arena_iff).
  rewrite Hin, E1. rewrite slot_of_addr_of by assumption.
  rewrite Hbin, E2. reflexivity.
Qed.

Lemma lookbehind_links_witness :
  exists w1,
    lookbehind_pattern 4096 2 20 blank_world = Some (tt, w1) /\
    a_mem w1 (3 * 2) = addr_of 4096 (7 * 2 + 1) /\
    a_mem w1 (7 * 2 + 1) = addr_of 4096 (4 * 2).
Proof.
  destruct (lookbehind_links 4096 2 20 blank_world) as (w1 & Hrun & Hlinks).
  - lia.
  - lia.
  - rewrite a_size_value. lia.
  - exists w1. split; [exact Hrun|].
    destruct (Hlinks 3) as (E1 & E2 & _); [lia|].
    split; [exact E1 | exact E2].
Defined.

(** ** The candidates of [make_spots] *)

Lemma make_spots_loop_sorted (stride max_spots : Z) (fuel : nat) (spots : Z) (l : list Z) :
  1 <= stride < 2 ^ 64 -> max_spots < 2 ^ 32 -> 1 <= spots ->
  make_spots_loop fuel stride max_spots spots = Some l ->
  StronglySorted Z.lt l /\ Forall (fun x => spots <= x) l.
Proof.
  intros Hs Hmax. revert spots l.
  induction fuel as [|fuel IH]; intros spots l Hp H; [discriminate|].
  cbn [make_spots_loop] in H. destruct (spots <=? max_spots) eqn:E.
  - apply Z.leb_le in E.
    destruct (make_spots_loop fuel stride max_spots (next_spots stride spots))
      as [l'|] eqn:El; [|discriminate].
    injection H as <-.
    pose proof (next_spots_grows stride spots Hs ltac:(lia)) as Hg.
    destruct (IH (next_spots stride spots) l' ltac:(lia) El) as [Hsorted Hall].
    split.
    + constructor; [assumption|].
      eapply Forall_impl; [|exact Hall]. cbv beta. intros x Hx. lia.
    + constructor; [lia|].
      eapply Forall_impl; [|exact Hall]. cbv beta. intros x Hx. lia.
  - injection H as <-. split; constructor.
Qed.

Lemma max_spots_small (stride : Z) :
  1 <= stride < 2 ^ 64 -> 0 <= next_spots stride (max_discover_mem / stride) <= 65536.
Proof.
  intros Hs. change max_discover_mem with 32768.
  destruct (Z_le_gt_dec stride 32768) as [Hle|Hgt].
  - pose proof (max_spots_bound stride ltac:(lia)) as Hb.
    change max_discover_mem with 32768 in Hb.
    assert (Hq : 1 <= 32768 / stride <= 32768).
    { split; [apply Z.div_le_lower_bound; lia | apply Z.div_le_upper_bound; nia]. }
    pose proof (next_spots_grows stride (32768 / stride) Hs ltac:(lia)). nia.
  - rewrite Z.div_small by lia. unfold next_spots. rewrite Z.mul_0_l.
    change (wrap64 0 <=? step) with true. cbv iota. change (wrap64 (0 * 2)) with 0. lia.
Qed.

(** X4: the candidates of [make_spots].  For stride 0 the quotient
    [max_discover_mem / stride] is undefined.  For every other stride the
    loop ends; the candidates it lists are strictly increasing, begin with 1
    and do not exceed [next_spots(stride, max_discover_mem / stride)]; for a
    stride above [max_discover_mem] there is none. *)
Theorem make_spots_candidates (stride : Z) :
  0 <= stride < 2 ^ 64 ->
  (stride = 0 -> make_spots stride = None) /\
  (1 <= stride ->
   exists l,
     make_spots stride = Some l /\
     StronglySorted Z.lt l /\
     Forall (fun x => 1 <= x <= next_spots stride (max_discover_mem / stride)) l /\
     (stride <= max_discover_mem -> hd_error l = Some 1) /\
     (max_discover_mem < stride -> l = [])).
Proof.
  intros Hr. split; [intros ->; reflexivity|]. intros Hs.
  destruct (make_spots_defined stride ltac:(lia)) as [l Hl].
  pose proof (max_spots_small stride ltac:(lia)) as Hmax.
  exists l. split; [exact Hl|].
  pose proof Hl as Hl'. unfold make_spots, udiv in Hl'.
  destruct (stride =? 0) eqn:E; [apply Z.eqb_eq in E; lia|].
  split; [|split; [|split]].
  - eapply make_spots_loop_sorted; [| | |exact Hl']; lia.
  - eapply make_spots_loop_range; [| | |exact Hl']; lia.
  - intros Hle. change max_discover_mem with 32768 in *.
    assert (Hq : 1 <= 32768 / stride <= 32768).
    { split; [apply Z.div_le_lower_bound; lia | apply Z.div_le_upper_bound; nia]. }
    pose proof (next_spots_grows stride (32768 / stride) ltac:(lia) ltac:(lia)) as Hg.
    cbn [make_spots_loop] in Hl'.
    destruct (1 <=? next_spots stride (32768 / stride)) eqn:E1;
      [|apply Z.leb_gt in E1; lia].
    destruct (make_spots_loop _ _ _ _); [|discriminate].
    now injection Hl' as <-.
  - intros Hgt. change max_discover_mem with 32768 in *.
    rewrite Z.div_small in Hl' by lia.
    assert (E0 : next_spots stride 0 = 0) by (unfold next_spots; now rewrite Z.mul_0_l).
    rewrite E0 in Hl'. cbn in Hl'. now injection Hl' as <-.
Qed.

Lemma make_spots_candidates_witness :
  exists l, make_spots 1024 = Some l /\ hd_error l = Some 1 /\ StronglySorted Z.lt l.
Proof.
  destruct (make_spots_candidates 1024) as [_ H]; [lia|].
  destruct H as (l & Hl & Hsorted & _ & Hhd & _); [lia|].
  exists l. split; [exact Hl|]. split; [apply Hhd; vm_compute; discriminate | exact Hsorted].
Defined.

(** ** The set of [find_rest_spots] *)

Lemma set_insert_sorted (x : Z) (s : list Z) :
  StronglySorted Z.lt s -> StronglySorted Z.lt (set_insert x s).
Proof.
  induction s as [|y s IH]; intros H; cbn [set_insert].
  - repeat constructor.
  - inversion H as [|? ? Hs Hy]; subst.
    destruct (x <? y) eqn:E1.
    + apply Z.ltb_lt in E1. constructor; [assumption|].
      constructor; [assumption|].
      eapply Forall_impl; [|exact Hy]. cbv beta. intros z Hz. lia.
    + destruct (x =? y) eqn:E2; [assumption|].
      apply Z.ltb_ge in E1. apply Z.eqb_neq in E2.
      constructor; [now apply IH|].
      apply Forall_forall. intros z Hz. apply in_set_insert in Hz.
      destruct Hz as [->|Hz]; [lia|].
      rewrite Forall_forall in Hy. now apply Hy.
Qed.

(** X5: the spots values measured at the doubled stride form a
    [std::set]: whatever the order and the repetitions of the candidates,
    they are iterated in strictly increasing order, and they are the
    candidates and the halves, rounded down, of the candidates above 1. *)
Theorem with_halves_is_a_set (all_spots : list Z) :
  StronglySorted Z.lt (with_halves all_spots) /\
  NoDup (with_halves all_spots) /\
  (forall x, In x (with_halves all_spots) <->
             In x all_spots \/ exists s, In s all_spots /\ 1 < s /\ x = s / 2) /\
  (forall x, In x (with_halves all_spots) ->
             (forall s, In s all_spots -> 1 <= s) -> 1 <= x).
Proof.
  assert (Hsorted : StronglySorted Z.lt (with_halves all_spots)).
  { unfold with_halves.
    assert (G : forall l acc, StronglySorted Z.lt acc ->
      StronglySorted Z.lt
        (fold_left (fun new_spots spots =>
                      let new_spots := set_insert spots new_spots in
                      if spots >? 1 then set_insert (spots / 2) new_spots else new_spots)
                   l acc)).
    { induction l as [|s l IH]; intros acc Hacc; cbn [fold_left]; [assumption|].
      apply IH. cbv zeta. destruct (s >? 1); repeat apply set_insert_sorted; assumption. }
    apply G. constructor. }
  split; [exact Hsorted|]. split; [|split].
  - induction Hsorted as [|x l Hl IH Hx]; constructor; [|assumption].
    intros Hin. rewrite Forall_forall in Hx. specialize (Hx x Hin). lia.
  - apply in_with_halves.
  - intros x Hx Hall. apply in_with_halves in Hx.
    destruct Hx as [Hx|(s & Hs & H1 & ->)]; [now apply Hall|].
    apply Z.div_le_lower_bound; lia.
Qed.

(** ** The turns of the loop of [find_rest_spots] *)

Lemma mem_In (x : Z) (l : list Z) : mem x l = true <-> In x l.
Proof.
  unfold mem. rewrite existsb_exists. split.
  - intros (y & Hy & E). apply Z.eqb_eq in E. now subst.
  - intros H. exists x. split; [assumption | apply Z.eqb_refl].
Qed.

Lemma turn_ok_all (k : Z) : 1 <= k <= 15 -> turn_ok k = true.
Proof.
  intros H.
  assert (E : k = 1 \/ k = 2 \/ k = 3 \/ k = 4 \/ k = 5 \/ k = 6 \/ k = 7 \/ k = 8 \/
              k = 9 \/ k = 10 \/ k = 11 \/ k = 12 \/ k = 13 \/ k = 14 \/ k = 15) by lia.
  repeat (destruct E as [-> | E]; [vm_compute; reflexivity|]).
  subst. vm_compute. reflexivity.
Qed.

Lemma measure_shuffled_fit (a_begin stride : Z) (all_spots : list Z) (w : world) :
  fit stride all_spots = true ->
  exists w',
    measure stride all_spots (measure_shuffled a_begin) w
      = Some (fst (record_iterations (clock w) (Z.to_nat iterations) all_spots
                     (no_measurements, walks w)), w') /\
    clock w' = clock w /\
    walks w' = snd (record_iterations (clock w) (Z.to_nat iterations) all_spots
                      (no_measurements, walks w)).
Proof.
  intros Hfit. apply measure_shuffled_follows_clock.
  unfold measure_clock. rewrite Hfit. now rewrite <- surjective_pairing.
Qed.

Lemma scale_spots_map (stride : Z) (all_spots : list Z) :
  Forall (fun x => 0 <= x * (stride / 2 / 2) < 2 ^ 64) all_spots ->
  scale_spots stride 2 all_spots = Some (map (fun s => s * (stride / 2 / 2)) all_spots).
Proof.
  induction 1 as [|x l Hx Hl IH]; [reflexivity|].
  cbn [scale_spots map]. unfold udiv. cbn [Z.eqb]. rewrite IH.
  now rewrite wrap64_small by assumption.
Qed.

Lemma pow2_facts (k : Z) :
  1 <= k <= 62 ->
  wrap64 (2 ^ k * 2) = 2 ^ (k + 1) /\ 2 ^ (k + 1) / 2 / 2 = 2 ^ (k - 1) /\
  2 <= 2 ^ k /\ 2 ^ k = 2 ^ (k - 1) * 2 /\ 1 <= 2 ^ (k - 1).
Proof.
  intros Hk.
  assert (E1 : 2 ^ (k + 1) = 2 ^ k * 2) by (rewrite Z.pow_add_r by lia; reflexivity).
  assert (E2 : 2 ^ k = 2 ^ (k - 1) * 2).
  { replace k with ((k - 1) + 1) at 1 by ring. rewrite Z.pow_add_r by lia. reflexivity. }
  assert (H1 : 1 <= 2 ^ (k - 1)) by (apply Z.pow_le_mono_r with (a := 2) (b := 0) (c := k - 1); lia).
  assert (H2 : 2 ^ (k + 1) <= 2 ^ 63) by (apply Z.pow_le_mono_r; lia).
  split.
  - rewrite <- E1. apply wrap64_small. lia.
  - split; [|lia]. rewrite E1, E2.
    rewrite Z.div_mul by lia. now rewrite Z.div_mul by lia.
Qed.

Lemma pow2_small (k : Z) : 1 <= k -> 2 ^ k <= 32768 -> k <= 15.
Proof.
  intros Hk H. destruct (Z_le_gt_dec k 15) as [|Hgt]; [assumption|exfalso].
  assert (2 ^ 16 <= 2 ^ k) by (apply Z.pow_le_mono_r; lia). lia.
Qed.

Section Turns.

Variable a_begin : Z.
Variable cbrt : float -> float.

(** One turn of the loop at a stride [2^k] that has candidates. *)
Lemma find_rest_loop_step (k : Z) (fuel : nat) (all_spots : list Z)
      (prev_measured : measurements) (w : world) :
  1 <= k <= 15 ->
  make_spots (2 ^ k) = Some all_spots ->
  (forall s, In s all_spots -> prev_measured s <> []) ->
  exists (w1 : world) (next_spots : list Z),
    let new_measured :=
      fst (record_iterations (clock w) (Z.to_nat iterations) (with_halves all_spots)
             (no_measurements, walks w)) in
    let d :=
      (fold_left (fun d s =>
                    d + cbrt (abs (full_difference prev_measured new_measured s)))%float
                 all_spots 0%float,
       fold_left (fun d s =>
                    d + cbrt (abs (half_difference prev_measured new_measured s)))%float
                 all_spots 0%float) in
    measure (2 ^ (k + 1)) (with_halves all_spots) (measure_shuffled a_begin) w
      = Some (new_measured, w1) /\
    clock w1 = clock w /\
    (forall s, In s all_spots ->
       In s (with_halves all_spots) /\ In (half_key s) (with_halves all_spots)) /\
    distances cbrt prev_measured new_measured all_spots = Some d /\
    make_spots (2 ^ (k + 1)) = Some next_spots /\
    (forall s, In s next_spots -> In s (with_halves all_spots)) /\
    (forall s, In s (with_halves all_spots) -> new_measured s <> []) /\
    find_rest_loop a_begin cbrt (S fuel) initial_stride (2 ^ k) all_spots prev_measured w =
      if (fst d <? snd d)%float
      then Some (map (fun s => s * 2 ^ (k - 1)) all_spots, w1)
      else find_rest_loop a_begin cbrt fuel initial_stride (2 ^ (k + 1)) next_spots
                          new_measured w1.
Proof.
  intros Hk Hl Hprev.
  pose proof (turn_ok_all k Hk) as Hok. unfold turn_ok in Hok. rewrite Hl in Hok.
  destruct (make_spots (2 ^ (k + 1))) as [next_spots|] eqn:Hnext; [|discriminate].
  cbv zeta in Hok. rewrite !andb_true_iff, !forallb_forall in Hok.
  destruct Hok as [[Hfit Hkeys] Hnextkeys].
  destruct (measure_shuffled_fit a_begin _ _ w Hfit) as (w1 & Hrun & Hc & _).
  exists w1, next_spots. cbv zeta.
  set (new_measured := fst (record_iterations _ _ _ _)) in *.
  assert (Hin : forall s, In s all_spots ->
             In s (with_halves all_spots) /\ In (half_key s) (with_halves all_spots)).
  { intros s Hs. specialize (Hkeys s Hs). apply andb_true_iff in Hkeys.
    destruct Hkeys as [H1 H2]. now rewrite !mem_In in *. }
  assert (Hne : forall s, In s (with_halves all_spots) -> new_measured s <> []).
  { intros s Hs. eapply measure_nonempty; [exact Hrun | exact Hs]. }
  assert (Hd : distances cbrt prev_measured new_measured all_spots = Some
                 (fold_left (fun d s =>
                    d + cbrt (abs (full_difference prev_measured new_measured s)))%float
                    all_spots 0%float,
                  fold_left (fun d s =>
                    d + cbrt (abs (half_difference prev_measured new_measured s)))%float
                    all_spots 0%float)).
  { unfold distances. apply distances_from_spec. intros s Hs.
    destruct (Hin s Hs) as [H1 H2].
    split; [now apply Hprev|]. split; now apply Hne. }
  split; [exact Hrun|]. split; [exact Hc|]. split; [exact Hin|]. split; [exact Hd|].
  split; [reflexivity|].
  split; [intros s Hs; apply mem_In; now apply Hnextkeys|].
  split; [exact Hne|].
  destruct (pow2_facts k ltac:(lia)) as (E1 & E2 & Hp & _).
  cbn [find_rest_loop]. rewrite E1.
  rewrite (bind_some _ _ _ _ _ Hrun). rewrite Hd. unfold bind at 1. cbn [lift].
  cbn [fst snd].
  destruct (_ <? _)%float.
  - unfold initial_stride. rewrite scale_spots_map.
    + cbn [lift]. now rewrite E2.
    + rewrite E2.
      assert (Hle : 2 ^ k <= 32768).
      { change 32768 with (2 ^ 15). apply Z.pow_le_mono_r; lia. }
      pose proof (make_spots_range (2 ^ k) all_spots ltac:(lia) Hl) as Hr.
      eapply Forall_impl; [|exact Hr]. cbv beta. intros x [Hx1 Hx2].
      destruct (pow2_facts k ltac:(lia)) as (_ & _ & _ & E4 & H5). nia.
  - rewrite Hnext. unfold bind at 1. cbn [lift]. reflexivity.
Qed.

End Turns.

Lemma make_spots_empty (stride : Z) :
  max_discover_mem < stride < 2 ^ 64 -> make_spots stride = Some [].
Proof.
  change max_discover_mem with 32768. intros H. unfold make_spots, udiv.
  destruct (stride =? 0) eqn:E; [apply Z.eqb_eq in E; lia|].
  change max_discover_mem with 32768. rewrite Z.div_small by lia.
  assert (E0 : next_spots stride 0 = 0) by (unfold next_spots; now rewrite Z.mul_0_l).
  rewrite E0. reflexivity.
Qed.

Lemma lift_run {A : Type} (o : option A) (x : A) (w w' : world) :
  lift o w = Some (x, w') -> o = Some x /\ w' = w.
Proof. unfold lift. destruct o; [|discriminate]. intros H. now inversion H. Qed.

Section Discovery.

Variable a_begin : Z.
Variable cbrt : float -> float.

(** At the stride [2^63] the doubled stride is 0, which [make_spots]
    divides by. *)
Lemma find_rest_loop_wraps (fuel : nat) (all_spots : list Z)
      (prev_measured : measurements) (w : world) :
  make_spots (2 ^ 63) = Some all_spots ->
  find_rest_loop a_begin cbrt fuel initial_stride (2 ^ 63) all_spots prev_measured w = None.
Proof.
  intros Hl. rewrite make_spots_empty in Hl by (vm_compute; split; reflexivity).
  injection Hl as <-. destruct fuel as [|fuel]; [reflexivity|].
  cbn [find_rest_loop]. change (wrap64 (2 ^ 63 * 2)) with 0.
  change (with_halves []) with (@nil Z).
  assert (Hm : measure 0 [] (measure_shuffled a_begin) w = Some (no_measurements, w))
    by reflexivity.
  rewrite (bind_some _ _ _ _ _ Hm). reflexivity.
Qed.

Lemma find_rest_loop_result (fuel : nat) :
  forall (k : Z) (all_spots : list Z) (prev_measured : measurements) (w w' : world)
         (rest_spots : list Z),
    1 <= k <= 63 -> make_spots (2 ^ k) = Some all_spots ->
    find_rest_loop a_begin cbrt fuel initial_stride (2 ^ k) all_spots prev_measured w
      = Some (rest_spots, w') ->
    exists k' last_spots,
      k <= k' <= 15 /\ (Z.to_nat (k' - k) < fuel)%nat /\
      make_spots (2 ^ k') = Some last_spots /\ last_spots <> [] /\
      rest_spots = map (fun s => s * 2 ^ (k' - 1)) last_spots /\
      forall fuel', (Z.to_nat (k' - k) < fuel')%nat ->
        find_rest_loop a_begin cbrt fuel' initial_stride (2 ^ k) all_spots prev_measured w
          = Some (rest_spots, w').
Proof.
  induction fuel as [|fuel IH]; intros k all_spots prev_measured w w' rest_spots Hk Hl H;
    [discriminate|].
  destruct (Z.eq_dec k 63) as [->|Hne].
  { now rewrite find_rest_loop_wraps in H. }
  destruct (pow2_facts k ltac:(lia)) as (E1 & E2 & Hp & E4 & H5).
  cbn [find_rest_loop] in H. rewrite E1 in H.
  apply bind_inv in H. destruct H as (new_measured & w1 & Hm & H).
  apply bind_inv in H. destruct H as (d & w2 & Hd & H).
  apply lift_run in Hd. destruct Hd as [Hd ->].
  destruct (fst d <? snd d)%float eqn:Et.
  - apply lift_run in H. destruct H as [Hscale ->].
    destruct all_spots as [|x l].
    { injection Hd as <-. discriminate Et. }
    assert (Hpow : 2 ^ k < 2 ^ 64) by (apply Z.pow_lt_mono_r; lia).
    destruct (make_spots_head (2 ^ k) x l ltac:(lia) Hl) as (-> & Hle).
    pose proof (pow2_small k ltac:(lia) ltac:(lia)) as Hk15.
    unfold initial_stride in Hscale. rewrite scale_spots_map in Hscale.
    2:{ rewrite E2.
        pose proof (make_spots_range (2 ^ k) _ ltac:(lia) Hl) as Hr.
        eapply Forall_impl; [|exact Hr]. cbv beta. intros y [Hy1 Hy2]. nia. }
    rewrite E2 in Hscale. injection Hscale as <-.
    exists k, (1 :: l). split; [lia|]. split; [rewrite Z.sub_diag; simpl; lia|].
    split; [exact Hl|]. split; [discriminate|]. split; [reflexivity|].
    intros fuel' Hf. destruct fuel' as [|fuel']; [lia|].
    cbn [find_rest_loop]. rewrite E1, (bind_some _ _ _ _ _ Hm).
    unfold bind at 1. unfold lift at 1. rewrite Hd, Et.
    unfold initial_stride, lift. rewrite scale_spots_map.
    + now rewrite E2.
    + rewrite E2.
      pose proof (make_spots_range (2 ^ k) _ ltac:(lia) Hl) as Hr.
      eapply Forall_impl; [|exact Hr]. cbv beta. intros y [Hy1 Hy2]. nia.
  - apply bind_inv in H. destruct H as (next_spots & w3 & Hnext & H).
    apply lift_run in Hnext. destruct Hnext as [Hnext ->].
    destruct (IH (k + 1) next_spots new_measured w1 w' rest_spots ltac:(lia) Hnext H)
      as (k' & last_spots & Hk' & Hfuel & Hlast & Hne' & Hrest & Hany).
    exists k', last_spots. split; [lia|]. split; [lia|].
    split; [exact Hlast|]. split; [exact Hne'|]. split; [exact Hrest|].
    intros fuel' Hf. destruct fuel' as [|fuel']; [lia|].
    cbn [find_rest_loop]. rewrite E1, (bind_some _ _ _ _ _ Hm).
    unfold bind at 1. unfold lift at 1. rewrite Hd, Et.
    unfold bind at 1. unfold lift at 1. rewrite Hnext.
    apply Hany. lia.
Qed.

End Discovery.

Lemma find_rest_spots_shape
        (a_begin : Z) (cbrt : float -> float) (fuel : nat) (w w' : world)
        (rest_spots : list Z) :
  find_rest_spots a_begin cbrt fuel initial_stride w = Some (rest_spots, w') ->
  exists k last_spots,
    1 <= k <= 15 /\ (Z.to_nat k <= fuel)%nat /\
    make_spots (2 ^ k) = Some last_spots /\ last_spots <> [] /\
    rest_spots = map (fun s => s * 2 ^ (k - 1)) last_spots /\
    forall fuel', (Z.to_nat k <= fuel')%nat ->
      find_rest_spots a_begin cbrt fuel' initial_stride w = Some (rest_spots, w').
Proof.
  unfold find_rest_spots. intros H.
  apply bind_inv in H. destruct H as (all_spots & w1 & Hl & H).
  apply lift_run in Hl. destruct Hl as [Hl ->].
  apply bind_inv in H. destruct H as (prev_measured & w2 & Hm & H).
  change initial_stride with (2 ^ 1) in H at 2.
  destruct (find_rest_loop_result a_begin cbrt fuel 1 all_spots prev_measured w2 w'
              rest_spots ltac:(lia) Hl H)
    as (k & last_spots & Hk & Hfuel & Hlast & Hne & Hrest & Hany).
  exists k, last_spots. split; [lia|]. split; [lia|].
  split; [exact Hlast|]. split; [exact Hne|]. split; [exact Hrest|].
  intros fuel' Hf. unfold bind at 1. unfold lift at 1. rewrite Hl.
  rewrite (bind_some _ _ _ _ _ Hm).
  change initial_stride with (2 ^ 1) at 2. apply Hany. lia.
Qed.

Lemma map_scale_sorted (c : Z) (l : list Z) :
  1 <= c -> StronglySorted Z.lt l -> StronglySorted Z.lt (map (fun s => s * c) l).
Proof.
  intros Hc. induction 1 as [|x l Hl IH Hx]; cbn [map]; constructor; [assumption|].
  apply Forall_forall. intros y Hy. apply in_map_iff in Hy. destruct Hy as (z & <- & Hz).
  rewrite Forall_forall in Hx. specialize (Hx z Hz). nia.
Qed.

(** X7: the turn in which [find_rest_spots] returns.  When it returns, it
    does so in one of the first 15 turns of its loop, the turn [k] that
    starts with the stride [2^k] and measures at [2^(k+1)]: the spots it
    returns are the candidates of [make_spots (2^k)], of which there is at
    least one, each multiplied by [2^(k-1)]; they begin with [2^(k-1)], are
    strictly increasing and lie between 1 and [max_discover_mem]; the bound
    given to the number of turns does not matter once it is at least [k]. *)
Theorem find_rest_spots_returns_early
        (a_begin : Z) (cbrt : float -> float) (fuel : nat) (w w' : world)
        (rest_spots : list Z) :
  find_rest_spots a_begin cbrt fuel initial_stride w = Some (rest_spots, w') ->
  exists k last_spots,
    1 <= k <= 15 /\ (Z.to_nat k <= fuel)%nat /\
    make_spots (2 ^ k) = Some last_spots /\ last_spots <> [] /\
    rest_spots = map (fun s => s * 2 ^ (k - 1)) last_spots /\
    hd_error rest_spots = Some (2 ^ (k - 1)) /\
    StronglySorted Z.lt rest_spots /\
    Forall (fun y => 1 <= y <= max_discover_mem) rest_spots /\
    forall fuel', (Z.to_nat k <= fuel')%nat ->
      find_rest_spots a_begin cbrt fuel' initial_stride w = Some (rest_spots, w').
Proof.
  intros H.
  destruct (find_rest_spots_shape _ _ _ _ _ _ H)
    as (k & last_spots & Hk & Hfuel & Hlast & Hne & Hmap & Hany).
  destruct (pow2_facts k ltac:(lia)) as (_ & _ & Hp & E4 & H5).
  assert (Hle : 2 ^ k <= 32768).
  { change 32768 with (2 ^ 15). apply Z.pow_le_mono_r; lia. }
  exists k, last_spots.
  split; [exact Hk|]. split; [exact Hfuel|]. split; [exact Hlast|].
  split; [exact Hne|]. split; [exact Hmap|].
  split; [|split; [|split; [|exact Hany]]].
  - destruct last_spots as [|x l]; [contradiction|].
    destruct (make_spots_head (2 ^ k) x l ltac:(lia) Hlast) as (-> & _).
    rewrite Hmap. cbn [map hd_error]. now rewrite Z.mul_1_l.
  - rewrite Hmap. apply map_scale_sorted; [exact H5|].
    pose proof Hlast as Hl. unfold make_spots, udiv in Hl.
    destruct (2 ^ k =? 0); [discriminate|].
    pose proof (max_spots_small (2 ^ k) ltac:(lia)).
    eapply make_spots_loop_sorted; [| | |exact Hl]; lia.
  - rewrite Hmap. apply Forall_forall. intros y Hy.
    apply in_map_iff in Hy. destruct Hy as (s & <- & Hs).
    pose proof (make_spots_range (2 ^ k) last_spots ltac:(lia) Hlast) as Hr.
    rewrite Forall_forall in Hr. destruct (Hr s Hs) as [Hs1 Hs2].
    change max_discover_mem with 32768. nia.
Qed.

Lemma find_rest_spots_returns_early_witness :
  exists k last_spots rest_spots w',
    find_rest_spots 4096 newton_cbrt 1 initial_stride
                    (world_with_clock (example_samples step_at_512))
      = Some (rest_spots, w') /\
    1 <= k <= 15 /\ make_spots (2 ^ k) = Some last_spots /\
    rest_spots = map (fun s => s * 2 ^ (k - 1)) last_spots.
Proof.
  set (w := world_with_clock (example_samples step_at_512)).
  set (r1 := find_rest_spots_clock newton_cbrt (clock w) 1 initial_stride (walks w)).
  set (rest_spots := match r1 with Some (l, _) => l | None => [] end).
  set (t1 := match r1 with Some (_, t) => t | None => O end).
  assert (E1 : find_rest_spots_clock newton_cbrt (clock w) 1 initial_stride (walks w)
               = Some (rest_spots, t1)) by (vm_compute; reflexivity).
  destruct (find_rest_spots_follows_clock 4096 newton_cbrt 1 initial_stride w _ _ E1)
    as (w1 & Hrun & _).
  destruct (find_rest_spots_returns_early 4096 newton_cbrt 1 w w1 rest_spots Hrun)
    as (k & last_spots & Hk & _ & Hlast & _ & Hrest & _).
  exists k, last_spots, rest_spots, w1.
  split; [exact Hrun|]. split; [exact Hk|]. split; [exact Hlast | exact Hrest].
Defined.

(** X6: a turn of the loop of [find_rest_spots] reads no missing key.  In
    the turn that starts with the stride [2^k], [1 <= k <= 15], with the
    candidates of [make_spots (2^k)] and a sample of the previous stride for
    each of them: the patterns measured at the stride [2^(k+1)] fit the
    arena, so [measure] returns; it has samples for every candidate [s] and
    for [s / 2 + s % 2], so the two distances are defined; it has samples
    for every candidate of the next turn; and the turn either returns the
    candidates multiplied by [2^(k-1)] or goes on with the next one. *)
Theorem find_rest_spots_turn
        (a_begin : Z) (cbrt : float -> float) (k : Z) (fuel : nat) (all_spots : list Z)
        (prev_measured : measurements) (w : world) :
  1 <= k <= 15 ->
  make_spots (2 ^ k) = Some all_spots ->
  (forall s, In s all_spots -> prev_measured s <> []) ->
  exists (new_measured : measurements) (w1 : world) (d : float * float)
         (next_spots : list Z),
    measure (2 ^ (k + 1)) (with_halves all_spots) (measure_shuffled a_begin) w
      = Some (new_measured, w1) /\
    (forall s, In s all_spots ->
       new_measured s <> [] /\ new_measured (half_key s) <> []) /\
    distances cbrt prev_measured new_measured all_spots = Some d /\
    make_spots (2 ^ (k + 1)) = Some next_spots /\
    (forall s, In s next_spots -> new_measured s <> []) /\
    find_rest_loop a_begin cbrt (S fuel) initial_stride (2 ^ k) all_spots prev_measured w =
      if (fst d <? snd d)%float
      then Some (map (fun s => s * 2 ^ (k - 1)) all_spots, w1)
      else find_rest_loop a_begin cbrt fuel initial_stride (2 ^ (k + 1)) next_spots
                          new_measured w1.
Proof.
  intros Hk Hl Hprev.
  destruct (find_rest_loop_step a_begin cbrt k fuel all_spots prev_measured w Hk Hl Hprev)
    as (w1 & next_spots & Hrun & _ & Hin & Hd & Hnext & Hnextin & Hne & Hloop).
  eexists. exists w1. eexists. exists next_spots.
  split; [exact Hrun|].
  split; [intros s Hs; destruct (Hin s Hs); split; now apply Hne|].
  split; [exact Hd|]. split; [exact Hnext|].
  split; [intros s Hs; apply Hne; now apply Hnextin|].
  exact Hloop.
Qed.

Lemma find_rest_spots_turn_witness :
  exists new_measured w1 d,
    measure (2 ^ (1 + 1)) (with_halves (spots_at 2)) (measure_shuffled 4096) blank_world
      = Some (new_measured, w1) /\
    distances newton_cbrt (fun _ => [1.0%float]) new_measured (spots_at 2) = Some d.
Proof.
  destruct (find_rest_spots_turn 4096 newton_cbrt 1 0 (spots_at 2)
              (fun _ => [1.0%float]) blank_world)
    as (new_measured & w1 & d & next_spots & Hrun & _ & Hd & _).
  - lia.
  - vm_compute. reflexivity.
  - intros s _. discriminate.
  - exists new_measured, w1, d. split; [exact Hrun | exact Hd].
Defined.

(** ** A clock that always reads the same *)

Lemma record_trials_constant (c : nat -> duration) (c0 : duration) (all_spots : list Z) :
  (forall n, c n = c0) ->
  forall (acc : measurements * nat) (k : Z),
    fst (record_trials c all_spots acc) k
      = fst acc k ++ repeat c0 (count_occ Z.eq_dec all_spots k).
Proof.
  intros Hc. induction all_spots as [|s l IH]; intros acc k.
  - cbn. now rewrite app_nil_r.
  - cbn [record_trials count_occ]. rewrite IH. cbn [fst]. unfold push_back.
    rewrite Hc. destruct (Z.eq_dec s k) as [->|Hne].
    + rewrite Z.eqb_refl. rewrite <- app_assoc. reflexivity.
    + assert (E : (k =? s) = false) by (apply Z.eqb_neq; congruence).
      now rewrite E.
Qed.

Lemma record_iterations_constant (c : nat -> duration) (c0 : duration) (all_spots : list Z)
      (n : nat) :
  (forall t, c t = c0) ->
  forall (acc : measurements * nat) (k : Z),
    fst (record_iterations c n all_spots acc) k
      = fst acc k ++ repeat c0 (n * count_occ Z.eq_dec all_spots k).
Proof.
  intros Hc. induction n as [|n IH]; intros acc k.
  - cbn. now rewrite app_nil_r.
  - cbn [record_iterations]. rewrite IH.
    rewrite (record_trials_constant c c0 all_spots Hc).
    rewrite <- app_assoc, <- repeat_app. reflexivity.
Qed.

Lemma sorted_NoDup (l : list Z) : StronglySorted Z.lt l -> NoDup l.
Proof.
  induction 1 as [|x l Hl IH Hx]; constructor; [|assumption].
  intros Hin. rewrite Forall_forall in Hx. specialize (Hx x Hin). lia.
Qed.

Lemma with_halves_sorted (all_spots : list Z) : StronglySorted Z.lt (with_halves all_spots).
Proof.
  unfold with_halves.
  assert (G : forall l acc, StronglySorted Z.lt acc ->
    StronglySorted Z.lt
      (fold_left (fun new_spots spots =>
                    let new_spots := set_insert spots new_spots in
                    if spots >? 1 then set_insert (spots / 2) new_spots else new_spots)
                 l acc)).
  { induction l as [|s l IH]; intros acc Hacc; cbn [fold_left]; [assumption|].
    apply IH. cbv zeta. destruct (s >? 1); repeat apply set_insert_sorted; assumption. }
  apply G. constructor.
Qed.

Lemma fold_left_ext_in {A B : Type} (f g : A -> B -> A) (l : list B) (a : A) :
  (forall x y, In y l -> f x y = g x y) -> fold_left f l a = fold_left g l a.
Proof.
  revert a. induction l as [|y l IH]; intros a H; [reflexivity|].
  cbn [fold_left]. rewrite (H a y) by now left.
  apply IH. intros x z Hz. apply H. now right.
Qed.

Section ConstantClock.

Variable a_begin : Z.
Variable cbrt : float -> float.
Variable c0 : duration.

Lemma find_rest_loop_constant (fuel : nat) :
  forall (k : Z) (all_spots : list Z) (prev_measured : measurements) (w : world),
    1 <= k <= 63 -> make_spots (2 ^ k) = Some all_spots ->
    (forall s, In s all_spots -> prev_measured s <> []) ->
    (forall n, clock w n = c0) ->
    find_rest_loop a_begin cbrt fuel initial_stride (2 ^ k) all_spots prev_measured w = None.
Proof.
  induction fuel as [|fuel IH]; intros k all_spots prev_measured w Hk Hl Hprev Hc;
    [reflexivity|].
  destruct (Z.eq_dec k 63) as [->|Hne]; [now apply find_rest_loop_wraps|].
  destruct (Z_le_gt_dec k 15) as [Hle|Hgt].
  - destruct (find_rest_loop_step a_begin cbrt k fuel all_spots prev_measured w
                ltac:(lia) Hl Hprev)
      as (w1 & next_spots & Hrun & Hc1 & Hin & Hd & Hnext & Hnextin & Hne' & Hloop).
    rewrite Hloop. clear Hloop. cbn [fst snd].
    set (new_measured := fst (record_iterations _ _ _ _)) in *.
    assert (Hsame : forall s, In s (with_halves all_spots) ->
              new_measured s = repeat c0 (Z.to_nat iterations)).
    { intros s Hs. unfold new_measured.
      rewrite (record_iterations_constant _ c0 _ _ Hc). cbn [fst no_measurements app].
      pose proof (sorted_NoDup _ (with_halves_sorted all_spots)) as Hnd.
      rewrite (proj1 (NoDup_count_occ' Z.eq_dec _) Hnd s Hs). reflexivity. }
    assert (Efold :
      fold_left (fun d s =>
                   d + cbrt (abs (full_difference prev_measured new_measured s)))%float
                all_spots 0%float
      = fold_left (fun d s =>
                     d + cbrt (abs (half_difference prev_measured new_measured s)))%float
                  all_spots 0%float).
    { apply fold_left_ext_in. intros x s Hs. destruct (Hin s Hs) as [H1 H2].
      unfold full_difference, half_difference, total.
      now rewrite (Hsame s H1), (Hsame _ H2). }
    rewrite Efold, ltb_irrefl.
    apply IH; [lia | exact Hnext | | intros n; rewrite Hc1; apply Hc].
    intros s Hs. apply Hne'. now apply Hnextin.
  - assert (Hbig : max_discover_mem < 2 ^ k < 2 ^ 64).
    { change max_discover_mem with (2 ^ 15). split; apply Z.pow_lt_mono_r; lia. }
    rewrite make_spots_empty in Hl by assumption. injection Hl as <-.
    destruct (pow2_facts k ltac:(lia)) as (E1 & _).
    assert (Hbig' : max_discover_mem < 2 ^ (k + 1) < 2 ^ 64).
    { change max_discover_mem with (2 ^ 15). split; apply Z.pow_lt_mono_r; lia. }
    cbn [find_rest_loop]. rewrite E1. change (with_halves []) with (@nil Z).
    destruct (measure_shuffled_fit a_begin (2 ^ (k + 1)) [] w) as (w1 & Hrun & Hc1 & _).
    { unfold fit. cbn [forallb]. rewrite andb_true_r. apply Z.leb_le.
      change max_discover_mem with 32768 in Hbig'. lia. }
    rewrite (bind_some _ _ _ _ _ Hrun).
    unfold bind at 1. cbn [lift distances distances_from fst snd].
    rewrite ltb_irrefl.
    rewrite (make_spots_empty _ Hbig'). unfold bind at 1. cbn [lift].
    apply IH; [lia | now apply make_spots_empty | intros s [] |].
    intros n. rewrite Hc1. apply Hc.
Qed.

End ConstantClock.

(** X8: without a signal in the timings [find_rest_spots] does not return.
    If every walk is timed the same, the full and the half distance are
    equal in every turn, the test [full_distance < half_distance] never
    passes, and the loop goes on doubling the stride: whatever the number
    of turns it is given, [find_rest_spots] has no result. *)
Theorem find_rest_spots_needs_a_signal
        (a_begin : Z) (cbrt : float -> float) (c0 : duration) (fuel : nat) (w : world) :
  (forall n, clock w n = c0) ->
  find_rest_spots a_begin cbrt fuel initial_stride w = None /\
  main a_begin cbrt fuel w = None.
Proof.
  intros Hc.
  assert (H : find_rest_spots a_begin cbrt fuel initial_stride w = None).
  { unfold find_rest_spots.
    assert (Hl : make_spots initial_stride = Some (spots_at 2)) by (vm_compute; reflexivity).
    unfold bind at 1. unfold lift at 1. rewrite Hl.
    destruct (measure_shuffled_fit a_begin initial_stride (spots_at 2) w)
      as (w1 & Hrun & Hc1 & _); [vm_compute; reflexivity|].
    rewrite (bind_some _ _ _ _ _ Hrun).
    change initial_stride with (2 ^ 1) at 2.
    apply (find_rest_loop_constant a_begin cbrt c0); [lia | exact Hl | |].
    - intros s Hs. eapply measure_nonempty; [exact Hrun | exact Hs].
    - intros n. rewrite Hc1. apply Hc. }
  split; [exact H|]. unfold main, bind. now rewrite H.
Qed.

Lemma find_rest_spots_needs_a_signal_witness :
  main 4096 newton_cbrt 100 blank_world = None.
Proof.
  destruct (find_rest_spots_needs_a_signal 4096 newton_cbrt 0%float 100 blank_world)
    as [_ H]; [reflexivity | exact H].
Defined.

(** ** The sequence generator *)

(** X9: the generator steps through the 64-bit seeds one-to-one.  A call
    of [rng] returns the new seed; the seed before the call is recovered
    from it, so two different 64-bit seeds never lead to the same value,
    and every 64-bit value is the successor of a seed. *)
Theorem rng_is_a_bijection (seed : Z) :
  uint64 seed ->
  uint64 (rng_next seed) /\ uint64 (rng_prev seed) /\
  rng_prev (rng_next seed) = seed /\ rng_next (rng_prev seed) = seed /\
  (forall seed', uint64 seed' -> rng_next seed' = rng_next seed -> seed' = seed) /\
  (forall w, rng_seed w = seed ->
     exists w', rng w = Some (rng_next seed, w') /\ rng_seed w' = rng_next seed /\
                a_mem w' = a_mem w).
Proof.
  intros Hs.
  assert (Hinv : forall s, uint64 s -> rng_prev (rng_next s) = s).
  { intros s [H0 H1]. unfold rng_prev, rng_next, wrap64.
    rewrite Zplus_mod_idemp_l, <- Zmult_mod_idemp_l, Zminus_mod_idemp_l.
    replace (s * 2862933555777941757 + 3037000493 - 3037000493)
      with (s * 2862933555777941757) by ring.
    rewrite Zmult_mod_idemp_l, <- Z.mul_assoc, <- Zmult_mod_idemp_r.
    change ((2862933555777941757 * 16133697096952638549) mod 2 ^ 64) with 1.
    rewrite Z.mul_1_r. apply Z.mod_small. lia. }
  split; [apply wrap64_range|]. split; [apply wrap64_range|].
  split; [now apply Hinv|]. split.
  - destruct Hs as [H0 H1]. unfold rng_prev, rng_next, wrap64.
    rewrite Zmult_mod_idemp_l, Zplus_mod_idemp_l.
    rewrite <- Zplus_mod_idemp_l, <- Z.mul_assoc, <- Zmult_mod_idemp_r.
    change ((16133697096952638549 * 2862933555777941757) mod 2 ^ 64) with 1.
    rewrite Z.mul_1_r, Zplus_mod_idemp_l.
    replace (seed - 3037000493 + 3037000493) with seed by ring.
    apply Z.mod_small. lia.
  - split.
    + intros seed' Hs' E. rewrite <- (Hinv seed' Hs'), E. now apply Hinv.
    + intros w <-. eexists. unfold rng. split; [reflexivity|]. split; reflexivity.
Qed.

Lemma rng_is_a_bijection_witness :
  rng_prev (rng_next 7) = 7 /\ rng_next (rng_prev 7) = 7.
Proof.
  assert (H : uint64 7) by (unfold uint64; lia).
  destruct (rng_is_a_bijection 7 H) as (_ & _ & H1 & H2 & _).
  split; [exact H1 | exact H2].
Defined.

(** ** The values [shuffle] draws *)

Lemma picks_seed (idx : list Z) (seed : Z) :
  snd (picks idx seed) = Nat.iter (List.length idx) rng_next seed /\
  map snd (fst (picks idx seed))
    = map (fun p => fst p mod (snd p + 1)) (combine (rng_stream seed (List.length idx)) idx).
Proof.
  revert seed. induction idx as [|i idx IH]; intros seed; [split; reflexivity|].
  cbn [picks fst snd List.length rng_stream combine map].
  destruct (IH (rng_next seed)) as [E1 E2]. rewrite E1, E2. split; [|reflexivity].
  symmetry. apply Nat.iter_succ_r.
Qed.

Lemma length_downto1 (n : Z) : List.length (downto1 n) = Z.to_nat n.
Proof. unfold downto1. now rewrite length_map, length_rev, length_seq. Qed.

(** X10: [shuffle] draws exactly [spots - 1] values.  For
    [1 <= spots < 2^32] with the anchors inside the arena, the seed
    [shuffle] leaves is the seed it found advanced [spots - 1] times, and
    the anchor swapped with anchor [i] is the one at the index
    [r mod (i + 1)] for the value [r] drawn in that turn, the first value
    going to the last anchor. *)
Theorem shuffle_draws (stride spots : Z) (w : world) :
  0 <= stride -> 1 <= spots < 2 ^ 32 -> (spots - 1) * stride < a_size ->
  exists w',
    shuffle stride spots w = Some (tt, w') /\
    rng_seed w' = Nat.iter (Z.to_nat (spots - 1)) rng_next (rng_seed w) /\
    a_mem w' = apply_swaps stride
                 (combine (downto1 (spots - 1))
                    (map (fun p => fst p mod (snd p + 1))
                       (combine (rng_stream (rng_seed w) (Z.to_nat (spots - 1)))
                                (downto1 (spots - 1)))))
                 (a_mem w) /\
    clock w' = clock w /\ walks w' = walks w.
Proof.
  intros Hstride Hspots Hfit.
  eexists. split; [now apply shuffle_run|]. cbn [rng_seed a_mem clock walks].
  destruct (picks_seed (downto1 (spots - 1)) (rng_seed w)) as [E1 E2].
  rewrite length_downto1 in E1, E2.
  split; [exact E1|]. split; [|split; reflexivity].
  assert (Ec : forall l : list (Z * Z), combine (map fst l) (map snd l) = l).
  { induction l as [|[a b] l IH]; [reflexivity|]. cbn [map combine fst snd]. now rewrite IH. }
  pose proof (Ec (fst (picks (downto1 (spots - 1)) (rng_seed w)))) as H.
  rewrite picks_fst, E2 in H. now rewrite H.
Qed.

Lemma shuffle_draws_witness :
  exists w', shuffle 2 3 blank_world = Some (tt, w') /\
             rng_seed w' = rng_next (rng_next 0).
Proof.
  destruct (shuffle_draws 2 3 blank_world) as (w' & Hrun & Hseed & _).
  - lia.
  - lia.
  - rewrite a_size_value. lia.
  - exists w'. split; [exact Hrun | exact Hseed].
Defined.

(** ** [create_forward_chain] without a spot *)

Lemma for_each_fails (l : list Z) (body : Z -> M unit) (i : Z) :
  In i l -> (forall w, body i w = None) -> forall w, for_each l body w = None.
Proof.
  intros Hi Hfail. induction l as [|j l IH]; intros w; [contradiction|].
  cbn [for_each]. unfold bind.
  destruct Hi as [->|Hi]; [now rewrite Hfail|].
  destruct (body j w) as [[[] w1]|]; [now apply IH | reflexivity].
Qed.

(** X11: [create_forward_chain] needs a spot.  With [spots = 0] the bound
    [spots - 1] of the loop wraps to [2^64 - 1]; for every stride but 0 the
    stores of the loop then run past the end of the arena. *)
Theorem create_forward_chain_needs_a_spot (a_begin stride : Z) (w : world) :
  1 <= stride < 2 ^ 64 -> create_forward_chain a_begin stride 0 w = None.
Proof.
  intros Hs. unfold create_forward_chain. unfold bind.
  pose proof a_size_value as Ha.
  set (body := fun i => a_set (wrap64 (i * stride)) _).
  assert (Hfail : forall i, 0 <= i -> a_size <= i * stride < 2 ^ 64 ->
                            forall w0, body i w0 = None).
  { intros i Hi Hr w0. unfold body, a_set.
    rewrite wrap64_small by lia.
    assert (E : in_arena (i * stride) = false).
    { destruct (in_arena (i * stride)) eqn:E; [|reflexivity].
      apply in_arena_iff in E. lia. }
    now rewrite E. }
  change (wrap64 (0 - 1)) with (2 ^ 64 - 1).
  destruct (Z_lt_ge_dec stride a_size) as [Hlt|Hge].
  - rewrite (for_each_fails _ body a_size); [reflexivity | |].
    + apply in_upto. lia.
    + apply Hfail; nia.
  - rewrite (for_each_fails _ body 1); [reflexivity | |].
    + apply in_upto. lia.
    + apply Hfail; lia.
Qed.

Lemma create_forward_chain_needs_a_spot_witness :
  create_forward_chain 4096 2 0 blank_world = None.
Proof. apply create_forward_chain_needs_a_spot. lia. Defined.

(** ** [median] and [sum] on their arguments *)

(** X12: [median] and [sum] need a sample.  On an empty container both
    index past its end; on any other they return, the median one of the
    samples of the container, the sum the first sample with the others
    added to it from left to right. *)
Theorem median_and_sum_need_a_sample (container : list duration) :
  (median container = None <-> container = []) /\
  (sum container = None <-> container = []) /\
  (forall m, median container = Some m -> In m container) /\
  (forall first rest, container = first :: rest ->
     sum container = Some (fold_left PrimFloat.add rest first)).
Proof.
  split; [|split; [|split]].
  - split.
    + intros H. destruct container as [|x l]; [reflexivity|].
      destruct (median_defined (x :: l)) as [m Hm]; [discriminate | congruence].
    + intros ->. reflexivity.
  - destruct container; split; intros H; try reflexivity; discriminate.
  - intros m H. unfold median in H. apply nth_error_In in H.
    eapply Permutation_in; [apply sort_perm | exact H].
  - intros first rest ->. reflexivity.
Qed.

(** ** The samples [measure] collects *)

Lemma trials_count (stride : Z) (method : Z -> Z -> M duration) (i : Z)
      (all_spots : list Z) (r r' : measurements) (w w' : world) :
  for_fold all_spots (trial stride method i) r w = Some (r', w') ->
  forall k, List.length (r' k)
            = (List.length (r k) + count_occ Z.eq_dec all_spots k)%nat.
Proof.
  revert r w. induction all_spots as [|s l IH]; intros r w H k.
  - inversion H; subst. cbn. lia.
  - apply for_fold_cons_inv in H. destruct H as (r1 & w1 & Ht & Hrest).
    apply trial_inv in Ht. destruct Ht as [d ->].
    rewrite (IH _ _ Hrest). cbn [count_occ]. unfold push_back.
    destruct (Z.eq_dec s k) as [->|Hne].
    + rewrite Z.eqb_refl, length_app. cbn. lia.
    + assert (E : (k =? s) = false) by (apply Z.eqb_neq; congruence).
      rewrite E. lia.
Qed.

(** X13: [measure] collects nine samples for each spots value.  Whatever
    the method, when [measure] returns, the vector of a key holds nine
    samples for each time the key occurs among the spots values, and none
    for a key that does not: reading such a key yields an empty vector. *)
Theorem measure_sample_counts (stride : Z) (method : Z -> Z -> M duration)
        (all_spots : list Z) (measured : measurements) (w w' : world) :
  measure stride all_spots method w = Some (measured, w') ->
  (forall k, List.length (measured k) = (9 * count_occ Z.eq_dec all_spots k)%nat) /\
  (forall k, ~ In k all_spots -> measured k = []) /\
  (forall k, In k all_spots -> NoDup all_spots -> List.length (measured k) = 9%nat).
Proof.
  unfold measure. intros H.
  assert (G : forall idx r w0,
            for_fold idx (fun i => for_fold all_spots (trial stride method i)) r w0
              = Some (measured, w') ->
            forall k, List.length (measured k)
                      = (List.length (r k)
                         + List.length idx * count_occ Z.eq_dec all_spots k)%nat).
  { induction idx as [|i idx IH]; intros r w0 H0 k.
    - inversion H0; subst. cbn. lia.
    - apply for_fold_cons_inv in H0. destruct H0 as (r1 & w1 & Hi & Hrest).
      rewrite (IH _ _ Hrest), (trials_count _ _ _ _ _ _ _ _ Hi). cbn [List.length]. lia. }
  assert (Hcount : forall k, List.length (measured k)
                             = (9 * count_occ Z.eq_dec all_spots k)%nat).
  { intros k. rewrite (G _ _ _ H k). rewrite length_upto. reflexivity. }
  split; [exact Hcount|]. split.
  - intros k Hk. apply length_zero_iff_nil. rewrite Hcount.
    rewrite (proj1 (count_occ_not_In Z.eq_dec all_spots k) Hk). lia.
  - intros k Hk Hnd. rewrite Hcount.
    rewrite (proj1 (NoDup_count_occ' Z.eq_dec all_spots) Hnd k Hk). reflexivity.
Qed.

Lemma measure_sample_counts_witness :
  exists measured w',
    measure 2 [1; 2] (measure_shuffled 4096) blank_world = Some (measured, w') /\
    List.length (measured 2) = 9%nat /\ measured 3 = [].
Proof.
  set (w := blank_world).
  set (r := measure 2 [1; 2] (measure_shuffled 4096) w).
  set (measured := match r with Some (m, _) => m | None => no_measurements end).
  set (w' := match r with Some (_, w1) => w1 | None => w end).
  assert (Hrun : measure 2 [1; 2] (measure_shuffled 4096) w = Some (measured, w')).
  { vm_compute. reflexivity. }
  destruct (measure_sample_counts 2 (measure_shuffled 4096) [1; 2] measured w w' Hrun)
    as (Hcount & Hnone & _).
  exists measured, w'. split; [exact Hrun|]. split.
  - rewrite Hcount. reflexivity.
  - apply Hnone. intros [H|[H|[]]]; discriminate H.
Defined.

(** ** The bytes of an [aligned_array] *)

(** X14: the block of an [aligned_array] is a whole number of pages, but
    not always enough of them.  Below 2^61 slots the byte count requested
    is a multiple of the page size; it covers the [size] slots exactly when
    [size * 8] is a multiple of the page size or at most two pages. *)
Theorem aligned_array_bytes_cover (size : Z) :
  0 <= size < 2 ^ 61 ->
  aligned_array_bytes size mod page_size = 0 /\
  (size * sizeof_uint64 <= aligned_array_bytes size <->
   (size * sizeof_uint64) mod page_size = 0 \/ size * sizeof_uint64 <= 2 * page_size).
Proof.
  intros Hs. unfold aligned_array_bytes, sizeof_uint64, page_size.
  rewrite (wrap64_small (size * 8)) by lia.
  destruct (size * 8 mod 16384 =? 0) eqn:E.
  - apply Z.eqb_eq in E. cbn [negb]. split; [exact E|]. split; [now left | lia].
  - apply Z.eqb_neq in E. cbn [negb].
    change (wrap64 ((16384 / 16384 + 1) * 16384)) with 32768.
    split; [reflexivity|]. split; [intros H; right; lia|].
    intros [H|H]; [contradiction | lia].
Qed.

Lemma aligned_array_bytes_cover_witness :
  aligned_array_bytes 5000 mod page_size = 0 /\
  ~ (5000 * sizeof_uint64 <= aligned_array_bytes 5000).
Proof.
  destruct (aligned_array_bytes_cover 5000) as [H1 H2]; [lia|].
  split; [exact H1|]. intros H. apply H2 in H.
  destruct H as [H|H]; vm_compute in H; [discriminate H | now apply H].
Defined.

(** ** The walks of [find_cache_line_size] *)

Lemma record_trials_walks (c : nat -> duration) (all_spots : list Z)
      (acc : measurements * nat) :
  snd (record_trials c all_spots acc) = (snd acc + List.length all_spots)%nat.
Proof.
  revert acc. induction all_spots as [|s l IH]; intros acc; cbn [record_trials List.length].
  - lia.
  - rewrite IH. cbn [snd]. lia.
Qed.

Lemma record_iterations_walks (c : nat -> duration) (n : nat) (all_spots : list Z)
      (acc : measurements * nat) :
  snd (record_iterations c n all_spots acc) = (snd acc + n * List.length all_spots)%nat.
Proof.
  revert acc. induction n as [|n IH]; intros acc; cbn [record_iterations].
  - lia.
  - rewrite IH, record_trials_walks. lia.
Qed.

Lemma sweep_over_walks (a_begin : Z) (strides : list Z) :
  forallb (fun stride => match udiv max_check_mem stride with
                         | Some spots => fit stride [spots]
                         | None => false
                         end) strides = true ->
  forall (results : list duration) (w : world),
  exists results' w',
    sweep_over a_begin strides results w = Some (results', w') /\
    clock w' = clock w /\
    walks w' = (walks w + 9 * List.length strides)%nat.
Proof.
  induction strides as [|stride strides IH]; intros Hfit results w.
  - exists results, w. split; [reflexivity|]. split; [reflexivity | cbn; lia].
  - cbn [forallb] in Hfit. apply andb_true_iff in Hfit. destruct Hfit as [Hs Hrest].
    cbn [sweep_over].
    destruct (udiv max_check_mem stride) as [spots|]; [|discriminate].
    unfold bind at 1. cbn [lift].
    destruct (measure_lookbehind_follows_clock a_begin stride [spots] w
                (fst (record_iterations (clock w) (Z.to_nat iterations) [spots]
                        (no_measurements, walks w)))
                (snd (record_iterations (clock w) (Z.to_nat iterations) [spots]
                        (no_measurements, walks w))))
      as (w1 & Hrun & Hc1 & Hw1).
    { unfold measure_clock. rewrite Hs. now rewrite <- surjective_pairing. }
    rewrite record_iterations_walks in Hw1. cbn [snd List.length] in Hw1.
    rewrite (bind_some _ _ _ _ _ Hrun).
    destruct (median_defined (fst (record_iterations (clock w) (Z.to_nat iterations)
                                     [spots] (no_measurements, walks w)) spots))
      as [result Hmed].
    { eapply measure_nonempty; [exact Hrun | now left]. }
    rewrite Hmed. unfold bind at 1. cbn [lift].
    destruct (IH Hrest (results ++ [result]) w1) as (results' & w' & Hrun' & Hc' & Hw').
    exists results', w'. split; [exact Hrun'|]. split; [congruence|].
    rewrite Hw', Hw1. change (Z.to_nat iterations) with 9%nat. cbn [List.length]. lia.
Qed.

Lemma half_stride_values (i : nat) :
  (1 <= i < 7)%nat -> In (half_stride i) [2; 4; 8; 16; 32; 64].
Proof.
  intros Hi.
  assert (Ei : (i = 1 \/ i = 2 \/ i = 3 \/ i = 4 \/ i = 5 \/ i = 6)%nat) by lia.
  destruct Ei as [-> | [-> | [-> | [-> | [-> | ->]]]]]; vm_compute; tauto.
Qed.

(** X15: [find_cache_line_size] always returns, and what it returns is a
    power of two between 1 and 64.  The patterns of its seven strides fit
    the arena whatever the arena held before; it times 63 walks, nine for
    each stride, and leaves the clock as it is. *)
Theorem find_cache_line_size_returns (a_begin : Z) (w : world) :
  exists cache_line_size w',
    find_cache_line_size a_begin w = Some (cache_line_size, w') /\
    In cache_line_size [1; 2; 4; 8; 16; 32; 64] /\
    clock w' = clock w /\ walks w' = (walks w + 63)%nat.
Proof.
  unfold find_cache_line_size, bind.
  pose proof (sweep_strides a_begin w) as Hs. rewrite Hs. clear Hs.
  destruct (sweep_over_walks a_begin [2; 4; 8; 16; 32; 64; 128] eq_refl [] w)
    as (results & w' & Hrun & Hc & Hw).
  pose proof (sweep_over_length _ _ _ _ _ _ Hrun) as Hlen.
  rewrite Hrun. clear Hrun. cbn [List.length Nat.add] in Hlen.
  destruct (cache_line_scan_spec results) as (c & Hcs & Hwhich).
  exists c, w'. unfold lift. rewrite Hcs. split; [reflexivity|].
  split; [|split; [exact Hc | exact Hw]].
  rewrite Hlen in Hwhich.
  destruct Hwhich as [[-> _]|(i & Hi & -> & _)]; [now left|].
  right. now apply half_stride_values.
Qed.

(** ** What [main] can print *)

Lemma some_eq {A : Type} (a b : A) : Some a = Some b -> a = b.
Proof. congruence. Qed.

Lemma main_inv (a_begin : Z) (cbrt : float -> float) (fuel : nat) (w w' : world)
      (out : string) :
  main a_begin cbrt fuel w = Some (out, w') ->
  exists rest_spots w1 jump w2 cache_line_size,
    find_rest_spots a_begin cbrt fuel initial_stride w = Some (rest_spots, w1) /\
    find_jump a_begin initial_stride rest_spots w1 = Some (jump, w2) /\
    find_cache_line_size a_begin w2 = Some (cache_line_size, w') /\
    summary rest_spots jump cache_line_size = Some out.
Proof.
  unfold main. intros H.
  apply bind_inv in H. destruct H as (rest_spots & w1 & Hrest & H).
  apply bind_inv in H. destruct H as (jump & w2 & Hjump & H).
  apply bind_inv in H. destruct H as (line & w3 & Hsize & H).
  apply lift_run in H. destruct H as [Hsum ->].
  exists rest_spots, w1, jump, w2, line.
  exact (conj Hrest (conj Hjump (conj Hsize Hsum))).
Qed.

Lemma find_cache_line_size_values (a_begin : Z) (w w' : world) (cache_line_size : Z) :
  find_cache_line_size a_begin w = Some (cache_line_size, w') ->
  In cache_line_size [1; 2; 4; 8; 16; 32; 64].
Proof.
  unfold find_cache_line_size. intros H.
  apply bind_inv in H. destruct H as (results & w1 & Hsweep & H). apply lift_inv in H.
  pose proof (sweep_strides a_begin w) as Hs. rewrite Hs in Hsweep. clear Hs.
  apply sweep_over_length in Hsweep. cbn [List.length Nat.add] in Hsweep.
  destruct (cache_line_scan_spec results) as (c & Hc & Hwhich).
  assert (c = cache_line_size) by congruence. subst c. clear H Hc.
  rewrite Hsweep in Hwhich.
  destruct Hwhich as [[-> _]|(i & Hi & -> & _)]; [now left|].
  right. now apply half_stride_values.
Qed.

(** X16: the figures [main] prints.  When the program completes, its
    discovery loop has stopped at some stride [2^k], [1 <= k <= 15]; the
    associativity it prints is 0 or one of the candidates of
    [make_spots (2^k)], the cache size is that number of spots of [2^k]
    slots of 8 bytes, and the cache line size is 8 times a power of two
    between 1 and 64. *)
Theorem main_prints_a_candidate
        (a_begin : Z) (cbrt : float -> float) (fuel : nat) (w w' : world) (out : string) :
  main a_begin cbrt fuel w = Some (out, w') ->
  exists (k : Z) (last_spots : list Z) (s line : Z),
    1 <= k <= 15 /\ make_spots (2 ^ k) = Some last_spots /\
    (s = 0 \/ In s last_spots) /\ 0 <= s <= 32768 /\ s * 2 ^ k <= 65536 /\
    In line [1; 2; 4; 8; 16; 32; 64] /\
    out = ("associativity=" ++ dec s
           ++ " cache_size=" ++ dec (s * 2 ^ k * 8)
           ++ " cache_line_size=" ++ dec (line * 8) ++ newline)%string.
Proof.
  intros H. apply main_inv in H.
  destruct H as (rest_spots & w1 & jump & w2 & line & Hrest & Hjump & Hsize & Hsum).
  pose proof (find_cache_line_size_values _ _ _ _ Hsize) as Hline.
  pose proof (find_cache_line_size_range _ _ _ _ Hsize) as Hlr.
  destruct (find_rest_spots_shape _ _ _ _ _ _ Hrest)
    as (k & last_spots & Hk & _ & Hlast & Hne & Hmap & _).
  destruct (pow2_facts k ltac:(lia)) as (_ & _ & Hp & E4 & H5).
  assert (Hle : 2 ^ k <= 32768).
  { change 32768 with (2 ^ 15). apply Z.pow_le_mono_r; lia. }
  pose proof (make_spots_range (2 ^ k) last_spots ltac:(lia) Hlast) as Hr.
  rewrite Forall_forall in Hr.
  destruct last_spots as [|x l]; [contradiction|].
  assert (Hpow : 2 ^ k < 2 ^ 64) by lia.
  destruct (make_spots_head (2 ^ k) x l ltac:(lia) Hlast) as (-> & _).
  assert (Hs : exists s, (s = 0 \/ In s (1 :: l)) /\ jump = s * 2 ^ (k - 1)).
  { destruct (find_jump_in _ _ _ _ _ _ Hjump) as [->|Hin].
    - exists 0. split; [now left | ring].
    - rewrite Hmap in Hin. apply in_map_iff in Hin. destruct Hin as (s & <- & Hs).
      exists s. split; [now right | reflexivity]. }
  destruct Hs as (s & Hs & ->).
  assert (Hsr : 0 <= s /\ s * 2 ^ k <= 65536).
  { destruct Hs as [->|Hs]; [lia|]. destruct (Hr s Hs). lia. }
  exists k, (1 :: l), s, line.
  split; [lia|]. split; [exact Hlast|]. split; [exact Hs|].
  split; [nia|]. split; [lia|]. split; [exact Hline|].
  rewrite Hmap in Hsum. cbn [map] in Hsum.
  rewrite summary_spec in Hsum by nia.
  assert (Eq1 : s * 2 ^ (k - 1) / (1 * 2 ^ (k - 1)) = s)
    by (rewrite Z.mul_1_l, Z.div_mul by lia; reflexivity).
  assert (Eq2 : s * 2 ^ (k - 1) * initial_stride * sizeof_uint64 = s * 2 ^ k * 8)
    by (unfold initial_stride, sizeof_uint64; rewrite E4; ring).
  rewrite Eq1, Eq2 in Hsum. apply some_eq in Hsum. symmetry. exact Hsum.
Qed.

Lemma main_prints_a_candidate_witness :
  exists (k : Z) (last_spots : list Z) (s line : Z),
    make_spots (2 ^ k) = Some last_spots /\ (s = 0 \/ In s last_spots) /\
    ("associativity=256 cache_size=4096 cache_line_size=64" ++ newline)%string
      = ("associativity=" ++ dec s ++ " cache_size=" ++ dec (s * 2 ^ k * 8)
         ++ " cache_line_size=" ++ dec (line * 8) ++ newline)%string.
Proof.
  set (w := world_with_clock (example_samples step_at_512)).
  set (out := ("associativity=256 cache_size=4096 cache_line_size=64" ++ newline)%string).
  destruct (main_follows_clock 4096 newton_cbrt 1 w out) as [w' Hmain].
  { vm_compute. reflexivity. }
  destruct (main_prints_a_candidate 4096 newton_cbrt 1 w w' out Hmain)
    as (k & last_spots & s & line & _ & Hlast & Hs & _ & _ & _ & Hout).
  exists k, last_spots, s, line. split; [exact Hlast|]. split; [exact Hs | exact Hout].
Defined.

(** ** [find_jump] on the spots of [find_rest_spots] *)

Lemma at_nil {A : Type} (i : Z) : at_ (@nil A) i = None.
Proof. unfold at_. destruct (i <? 0); [reflexivity|]. now destruct (Z.to_nat i). Qed.

(** X17: [find_jump] needs a spots value.  On an empty sequence
    [smooth_suffix.size() - 1] wraps to [2^64 - 1] and the smoothing loop
    starts by reading past the end of the empty [smooth_suffix]. *)
Theorem find_jump_needs_a_spot (a_begin stride : Z) (w : world) :
  find_jump a_begin stride [] w = None.
Proof.
  unfold find_jump.
  assert (Hm : measure stride [] (measure_shuffled a_begin) w = Some (no_measurements, w))
    by reflexivity.
  rewrite (bind_some _ _ _ _ _ Hm).
  unfold lift, find_jump_scan. cbn [totals]. unfold smooth, vec_size. cbn [List.length].
  change (wrap64 (Z.of_nat 0 - 1)) with (2 ^ 64 - 1).
  rewrite downto1_cons by lia. generalize (downto1 (2 ^ 64 - 1 - 1)). intros rest.
  cbn [smooth_loop]. rewrite at_nil. reflexivity.
Qed.

Lemma make_spots_loop_length (stride max_spots : Z) (fuel : nat) (spots : Z) (l : list Z) :
  make_spots_loop fuel stride max_spots spots = Some l -> (List.length l <= fuel)%nat.
Proof.
  revert spots l. induction fuel as [|fuel IH]; intros spots l H; [discriminate|].
  cbn [make_spots_loop] in H. destruct (spots <=? max_spots).
  - destruct (make_spots_loop fuel stride max_spots (next_spots stride spots))
      as [l'|] eqn:El; [|discriminate].
    injection H as <-. apply IH in El. cbn [List.length]. lia.
  - injection H as <-. cbn. lia.
Qed.

Lemma make_spots_length (stride : Z) (l : list Z) :
  1 <= stride < 2 ^ 64 -> make_spots stride = Some l -> vec_size l < 2 ^ 64.
Proof.
  intros Hs H. pose proof (max_spots_small stride Hs) as Hmax.
  unfold make_spots, udiv in H.
  destruct (stride =? 0); [discriminate|].
  apply make_spots_loop_length in H. unfold vec_size. lia.
Qed.

Lemma find_jump_returns (a_begin : Z) (cbrt : float -> float) (fuel : nat) (w w1 : world)
      (rest_spots : list Z) :
  find_rest_spots a_begin cbrt fuel initial_stride w = Some (rest_spots, w1) ->
  forall w0, exists jump w2,
    find_jump a_begin initial_stride rest_spots w0 = Some (jump, w2).
Proof.
  intros Hrest w0.
  destruct (find_rest_spots_shape _ _ _ _ _ _ Hrest)
    as (k & last_spots & Hk & _ & Hlast & Hne & Hmap & _).
  destruct (pow2_facts k ltac:(lia)) as (_ & _ & Hp & E4 & H5).
  assert (Hle : 2 ^ k <= 32768).
  { change 32768 with (2 ^ 15). apply Z.pow_le_mono_r; lia. }
  pose proof (make_spots_range (2 ^ k) last_spots ltac:(lia) Hlast) as Hr.
  rewrite Forall_forall in Hr.
  assert (Hfit : fit initial_stride rest_spots = true).
  { unfold fit. apply andb_true_iff. split; [reflexivity|].
    apply forallb_forall. intros r Hin. rewrite Hmap in Hin.
    apply in_map_iff in Hin. destruct Hin as (s & <- & Hs).
    destruct (Hr s Hs) as [Hs1 Hs2]. pose proof a_size_value.
    unfold initial_stride. apply andb_true_iff. split; apply Z.leb_le; nia. }
  destruct (measure_shuffled_fit a_begin _ _ w0 Hfit) as (w2 & Hrun & _).
  set (measured := fst (record_iterations _ _ _ _)) in Hrun.
  destruct (totals_defined measured rest_spots) as [sums Hsums].
  { intros s Hs. eapply measure_nonempty; [exact Hrun | exact Hs]. }
  exists (first_jump rest_spots sums), w2.
  unfold find_jump. rewrite (bind_some _ _ _ _ _ Hrun). unfold lift.
  rewrite (find_jump_scan_spec _ _ sums); [reflexivity | | | exact Hsums].
  - rewrite Hmap. destruct last_spots; [contradiction | discriminate].
  - rewrite Hmap. unfold vec_size. rewrite length_map.
    apply (make_spots_length (2 ^ k)); [lia | exact Hlast].
Qed.

(** X18: once the discovery loop has returned, nothing can fail.  The
    program completes exactly when [find_rest_spots] returns: the patterns
    [find_jump] measures on the spots it is given fit the arena and each
    has samples, and [find_cache_line_size] always returns. *)
Theorem main_completes_with_find_rest_spots
        (a_begin : Z) (cbrt : float -> float) (fuel : nat) (w : world) :
  (exists rest_spots w1,
     find_rest_spots a_begin cbrt fuel initial_stride w = Some (rest_spots, w1)) <->
  (exists out w', main a_begin cbrt fuel w = Some (out, w')).
Proof.
  split.
  - intros (rest_spots & w1 & Hrest).
    destruct (find_jump_returns _ _ _ _ _ _ Hrest w1) as (jump & w2 & Hjump).
    destruct (find_cache_line_size_runs a_begin w2) as (line & w3 & Hsize).
    destruct (main_line _ _ _ _ _ _ _ _ _ _ Hrest Hjump Hsize) as (front & _ & _ & Hmain).
    eexists. exists w3. exact Hmain.
  - intros (out & w' & Hmain). apply main_inv in Hmain.
    destruct Hmain as (rest_spots & w1 & _ & _ & _ & Hrest & _).
    now exists rest_spots, w1.
Qed.
